(** * Memory MCP server: the memory lifecycle engine

    A shallow embedding of [src/types.ts], [src/validation.ts],
    [src/vectorstore/memory.ts], [src/memory/MemoryManager.ts] and the
    local embedding provider, and the properties of the engine proved over
    it.

    Modelling conventions.
    - JavaScript numbers that carry measurements (importance, relevance,
      embedding components, scores) are real numbers: IEEE rounding is
      abstracted away, [Math.exp], [Math.log], [Math.sqrt] are [exp], [ln],
      [sqrt].  Millisecond timestamps ([Date.now()], [olderThan]) are
      integers ([Z]); counters and sizes are natural numbers.
    - A JavaScript [Map] iterates in insertion order, so it is an
      association list with unique keys ([JsMap]).
    - A [Memory] object holds a reference to its [metadata] object; the
      manager mutates metadata in place ([memory.metadata.importance = ...])
      and the in-process vector store keeps the very same objects that the
      working-memory map holds.  Metadata objects therefore live in a heap
      and records carry addresses.
    - [async] methods are computations in a state-and-exception monad: a
      rejected promise is [Throw], and the state reached before the
      rejection is kept.
    - Every operation reads the clock once ([now] is an argument), and
      [randomUUID()] is the next element of a sequence of identifiers.
    - For the manager the embedding provider is a function from text to
      vectors; its failures and its internal vocabulary are outside the
      model of the manager.  The local TF-IDF provider is modelled on its
      own ([LocalEmbedding]), its vocabulary passed from call to call and
      its [tokenize] left abstract.
    - The validators that look inside a string see it as its UTF-16 code
      units ([ustring]); the others compare whole strings.  The rate
      limiter's [check] takes the reading of [Date.now()] as an argument.
    - Plain objects used as dictionaries ([groupByTags], the tag counts)
      are association lists in insertion order; keys are taken not to look
      like array indices (which JavaScript enumerates first) and not to
      name members of [Object.prototype].

    [initialize], [loadWorkingMemory] and [close] are not modelled. *)

From Stdlib Require Import Reals Lra Lia ZArith List String Ascii Bool Arith.
From Stdlib Require Import DecimalString Decimal Permutation Sorted.
Import ListNotations.

Local Open Scope string_scope.

(** ** JavaScript preliminaries *)

(** Boolean readings of the real comparisons used by the source. *)
Definition Rgeb (x y : R) : bool := if Rge_dec x y then true else false.
Definition Rltb' (x y : R) : bool := if Rlt_dec x y then true else false.
Definition Rgtb (x y : R) : bool := if Rgt_dec x y then true else false.
Definition Reqb (x y : R) : bool := if Req_dec_T x y then true else false.

(** [`${n}`] for a natural number. *)
Definition show_nat (n : nat) : string := NilZero.string_of_uint (Nat.to_uint n).

(** [xs.join(sep)] *)
Fixpoint join (sep : string) (xs : list string) : string :=
  match xs with
  | [] => ""
  | [x] => x
  | x :: rest => x ++ sep ++ join sep rest
  end.

(** [xs.slice(0, n)] and [xs.slice(n)] *)
Definition slice_to {A} (n : nat) (xs : list A) : list A := firstn n xs.
Definition slice_from {A} (n : nat) (xs : list A) : list A := skipn n xs.

(** [xs.includes(x)] on strings *)
Definition includes (x : string) (xs : list string) : bool :=
  existsb (String.eqb x) xs.

(** Truthiness of an optional number: [undefined] and [0] are falsy. *)
Definition truthyZ (o : option Z) : bool :=
  match o with
  | Some z => negb (z =? 0)%Z
  | None => false
  end.

(** Truthiness of an optional string: [undefined] and [""] are falsy. *)
Definition truthyS (o : option string) : bool :=
  match o with
  | Some s => negb (s =? "")
  | None => false
  end.

(** [xs.sort(cmp)]: the sort is stable; an element moves behind another
    only when the comparator is positive on the pair. *)
Section Sort.
Context {A : Type} (cmp : A -> A -> R).

Fixpoint sort_insert (x : A) (l : list A) : list A :=
  match l with
  | [] => [x]
  | y :: l' => if Rgtb (cmp x y) 0 then y :: sort_insert x l' else x :: l
  end.

Definition sort (l : list A) : list A := fold_right sort_insert [] l.
End Sort.

(** *** Insertion-ordered maps ([Map<string, V>]) *)
Section JsMap.
Context {V : Type}.

Definition JsMap := list (string * V).

Fixpoint map_get (k : string) (m : JsMap) : option V :=
  match m with
  | [] => None
  | (k', v) :: m' => if k =? k' then Some v else map_get k m'
  end.

Definition map_has (k : string) (m : JsMap) : bool :=
  match map_get k m with Some _ => true | None => false end.

(** [m.set(k, v)]: an existing key keeps its position. *)
Fixpoint map_set (k : string) (v : V) (m : JsMap) : JsMap :=
  match m with
  | [] => [(k, v)]
  | (k', v') :: m' =>
      if k =? k' then (k, v) :: m' else (k', v') :: map_set k v m'
  end.

(** [m.delete(k)]; its boolean result is [map_has k m]. *)
Fixpoint map_delete (k : string) (m : JsMap) : JsMap :=
  match m with
  | [] => []
  | (k', v') :: m' =>
      if k =? k' then m' else (k', v') :: map_delete k m'
  end.

Definition map_values (m : JsMap) : list V := map snd m.
Definition map_keys (m : JsMap) : list string := map fst m.
End JsMap.
Arguments JsMap : clear implicits.

(** *** Promises: state and exceptions *)

Inductive Exn : Type := Error (message : string).

Inductive Result (A : Type) : Type :=
| Ok (a : A)
| Throw (e : Exn).
Arguments Ok {A} a.
Arguments Throw {A} e.

Definition M (S A : Type) : Type := S -> Result A * S.

Definition ret {S A} (a : A) : M S A := fun s => (Ok a, s).
Definition throw {S A} (e : Exn) : M S A := fun s => (Throw e, s).
Definition bind {S A B} (m : M S A) (k : A -> M S B) : M S B :=
  fun s => match m s with
           | (Ok a, s') => k a s'
           | (Throw e, s') => (Throw e, s')
           end.
Definition gets {S A} (f : S -> A) : M S A := fun s => (Ok (f s), s).
Definition modify {S} (f : S -> S) : M S unit := fun s => (Ok tt, f s).

Declare Scope js_scope.
Delimit Scope js_scope with js.
Notation "x <- m ;; k" := (bind m (fun x => k))
  (at level 61, m at next level, right associativity) : js_scope.
Notation "m ;;; k" := (bind m (fun _ => k))
  (at level 61, right associativity) : js_scope.

(** [for (const x of xs) { await body(x) }] *)
Fixpoint for_of {S A} (xs : list A) (body : A -> M S unit) : M S unit :=
  match xs with
  | [] => ret tt
  | x :: rest => bind (body x) (fun _ => for_of rest body)
  end.

(** ** [src/types.ts] *)

Inductive MemoryLayer : Type := WORKING | SHORT_TERM | LONG_TERM.
Inductive MemorySource : Type := USER | AGENT | SYSTEM.

Definition layer_eqb (a b : MemoryLayer) : bool :=
  match a, b with
  | WORKING, WORKING | SHORT_TERM, SHORT_TERM | LONG_TERM, LONG_TERM => true
  | _, _ => false
  end.

(** The string value of the enum. *)
Definition layer_name (l : MemoryLayer) : string :=
  match l with
  | WORKING => "working"
  | SHORT_TERM => "short-term"
  | LONG_TERM => "long-term"
  end.

Record MemoryMetadata : Type := mkMetadata {
  timestamp : Z;
  importance : R;
  source : MemorySource;
  tags : list string;
  accessCount : nat;
  lastAccessed : Z;
  layer : MemoryLayer
}.

(** Address of a metadata object. *)
Definition Addr := nat.

Record Memory : Type := mkMemory {
  id : string;
  content : string;
  embedding : option (list R);
  metadata : Addr
}.

Record MemorySearchResult : Type := mkSearchResult {
  sr_id : string;
  sr_content : string;
  relevance : R;
  sr_metadata : Addr
}.

Record ConsolidationResult : Type := mkConsolidationResult {
  consolidated : list Memory;
  cr_deleted : list string;
  summary : string
}.

Record ForgetResult : Type := mkForgetResult {
  deleted : list string;
  reason : string
}.

Record MemoryStoreOptions : Type := mkStoreOptions {
  so_importance : option R;
  so_tags : option (list string);
  so_source : option MemorySource;
  so_layer : option MemoryLayer
}.

Record MemorySearchOptions : Type := mkSearchOptions {
  limit : option nat;
  layerFilter : option (list MemoryLayer);
  minRelevance : option R;
  se_tags : option (list string)
}.

Record ConsolidationOptions : Type := mkConsolidationOptions {
  co_olderThan : option Z;
  targetSize : option nat;
  co_layer : option MemoryLayer
}.

Record ForgetOptions : Type := mkForgetOptions {
  memoryId : option string;
  fo_olderThan : option Z;
  fo_layer : option MemoryLayer;
  fo_reason : option string
}.

(** The [Record<string, unknown>] filter passed to a vector store; only
    these keys are ever read. *)
Record Filter : Type := mkFilter {
  f_layer : option MemoryLayer;
  f_tags : option (list string);
  f_minImportance : option R
}.

Definition no_filter : Filter := mkFilter None None None.

(** *** The heap of metadata objects *)

Definition Heap := Addr -> MemoryMetadata.

Definition heap_set (h : Heap) (a : Addr) (md : MemoryMetadata) : Heap :=
  fun a' => if Nat.eqb a' a then md else h a'.

Definition set_importance (x : R) (md : MemoryMetadata) : MemoryMetadata :=
  mkMetadata (timestamp md) x (source md) (tags md) (accessCount md)
             (lastAccessed md) (layer md).

Definition set_layer (l : MemoryLayer) (md : MemoryMetadata) : MemoryMetadata :=
  mkMetadata (timestamp md) (importance md) (source md) (tags md)
             (accessCount md) (lastAccessed md) l.

Definition set_timestamp (t : Z) (md : MemoryMetadata) : MemoryMetadata :=
  mkMetadata t (importance md) (source md) (tags md)
             (accessCount md) (lastAccessed md) (layer md).

Definition touch (now : Z) (md : MemoryMetadata) : MemoryMetadata :=
  mkMetadata (timestamp md) (importance md) (source md) (tags md)
             (S (accessCount md)) now (layer md).

(** ** [src/config.ts] *)

Record Config : Type := mkConfig {
  ttl : MemoryLayer -> Z;
  consolidation_age : Z;
  decay_rate : R
}.

(** The values taken when no environment variable is set. *)
Definition config : Config :=
  mkConfig
    (fun l => match l with
              | WORKING => 1800000
              | SHORT_TERM => 604800000
              | LONG_TERM => 31536000000
              end)%Z
    2592000000%Z
    (1 / 10)%R.

(** ** [src/validation.ts] *)

Definition validateImportance (importance : R) : Result R :=
  if Rltb' importance 0 || Rgtb importance 1
  then Throw (Error "Importance must be between 0 and 1")
  else Ok importance.

Definition validateTimestamp (timestamp : Z) : Result Z :=
  if (timestamp <? 0)%Z then Throw (Error "Timestamp cannot be negative")
  else if (timestamp >? 4102444800000)%Z
       then Throw (Error "Timestamp is too far in the future")
       else Ok timestamp.

(** ** [src/vectorstore/memory.ts] *)

Record StoredMemory : Type := mkStored {
  memory : Memory;
  sm_embedding : list R
}.

Module MemoryVectorStore.

(** [this.memories] *)
Definition t := JsMap StoredMemory.

Definition empty : t := [].

Definition store (m : Memory) : M t unit :=
  match embedding m with
  | None => throw (Error "Memory must have an embedding to store")
  | Some e => modify (map_set (id m) (mkStored m e))
  end.

Fixpoint storeBatch (ms : list Memory) : M t unit :=
  match ms with
  | [] => ret tt
  | m :: rest => bind (store m) (fun _ => storeBatch rest)
  end.

(** The accumulation loop of [cosineSimilarity]; the two arrays have the
    same length when it runs. *)
Fixpoint cosine_loop (a b : list R) (acc : R * R * R) : R * R * R :=
  match a, b with
  | x :: a', y :: b' =>
      let '(dotProduct, magnitudeA, magnitudeB) := acc in
      cosine_loop a' b'
        (dotProduct + x * y, magnitudeA + x * x, magnitudeB + y * y)%R
  | _, _ => acc
  end.

Definition cosineSimilarity (a b : list R) : Result R :=
  if negb (List.length a =? List.length b)%nat
  then Throw (Error "Vector dimensions must match")
  else
    let '(dotProduct, magnitudeA, magnitudeB) := cosine_loop a b (0, 0, 0)%R in
    let magnitudeA := sqrt magnitudeA in
    let magnitudeB := sqrt magnitudeB in
    if Reqb magnitudeA 0 || Reqb magnitudeB 0 then Ok 0%R
    else Ok (dotProduct / (magnitudeA * magnitudeB))%R.

(** [filter.tags.every(tag => stored.memory.metadata.tags.includes(tag))] *)
Definition hasAllTags (wanted have : list string) : bool :=
  forallb (fun tag => includes tag have) wanted.

(** The [continue] tests shared by [search] and [list]. *)
Definition passes_layer_tags (h : Heap) (f : Filter) (stored : StoredMemory) : bool :=
  let md := h (metadata (memory stored)) in
  match f_layer f with
  | Some l => layer_eqb (layer md) l
  | None => true
  end &&
  match f_tags f with
  | Some ts => hasAllTags ts (tags md)
  | None => true
  end.

Definition passes_search (h : Heap) (f : Filter) (stored : StoredMemory) : bool :=
  passes_layer_tags h f stored &&
  match f_minImportance f with
  | Some x => negb (Rltb' (importance (h (metadata (memory stored)))) x)
  | None => true
  end.

(** The scan of [search]: results in map order, or the first exception. *)
Fixpoint scan (h : Heap) (q : list R) (f : Filter) (entries : list (string * StoredMemory))
  : Result (list MemorySearchResult) :=
  match entries with
  | [] => Ok []
  | (_, stored) :: rest =>
      if passes_search h f stored then
        match cosineSimilarity q (sm_embedding stored) with
        | Throw e => Throw e
        | Ok rel =>
            match scan h q f rest with
            | Throw e => Throw e
            | Ok results =>
                Ok (mkSearchResult (id (memory stored)) (content (memory stored))
                                   rel (metadata (memory stored)) :: results)
            end
        end
      else scan h q f rest
  end.

Definition search (h : Heap) (q : list R) (limit : nat) (f : Filter)
  : M t (list MemorySearchResult) :=
  fun memories =>
    match scan h q f memories with
    | Throw e => (Throw e, memories)
    | Ok results =>
        (Ok (slice_to limit
               (sort (fun a b => relevance b - relevance a)%R results)),
         memories)
    end.

Definition get (k : string) : M t (option Memory) :=
  gets (fun memories => option_map memory (map_get k memories)).

Definition delete (k : string) : M t bool :=
  fun memories => (Ok (map_has k memories), map_delete k memories).

Fixpoint deleteBatch_loop (ids : list string) (deleted : nat) : M t nat :=
  match ids with
  | [] => ret deleted
  | k :: rest =>
      bind (delete k) (fun b =>
        deleteBatch_loop rest (if b then S deleted else deleted))
  end.

Definition deleteBatch (ids : list string) : M t nat := deleteBatch_loop ids 0.

Definition list (h : Heap) (f : Filter) : M t (list Memory) :=
  gets (fun memories =>
          map memory (filter (passes_layer_tags h f) (map_values memories))).

Definition update (m : Memory) : M t unit :=
  fun memories =>
    match map_get (id m) memories with
    | None => (Throw (Error ("Memory with id " ++ id m ++ " not found")), memories)
    | Some existing =>
        (Ok tt,
         map_set (id m)
           (mkStored m match embedding m with
                       | Some e => e
                       | None => sm_embedding existing
                       end)
           memories)
    end.

Definition close : M t unit := modify (fun _ => []).

End MemoryVectorStore.

(** ** The [IVectorStore] interface of [src/types.ts]

    A store reads metadata through the heap and has a state of its own. *)
Record IVectorStore (VS : Type) : Type := mkVectorStore {
  vs_store : Memory -> M VS unit;
  vs_search : Heap -> list R -> nat -> Filter -> M VS (list MemorySearchResult);
  vs_get : string -> M VS (option Memory);
  vs_delete : string -> M VS bool;
  vs_deleteBatch : list string -> M VS nat;
  vs_list : Heap -> Filter -> M VS (list Memory);
  vs_update : Memory -> M VS unit
}.
Arguments vs_store {VS}.
Arguments vs_search {VS}.
Arguments vs_get {VS}.
Arguments vs_delete {VS}.
Arguments vs_deleteBatch {VS}.
Arguments vs_list {VS}.
Arguments vs_update {VS}.

Definition memoryVectorStore : IVectorStore MemoryVectorStore.t :=
  mkVectorStore MemoryVectorStore.t
    MemoryVectorStore.store MemoryVectorStore.search MemoryVectorStore.get
    MemoryVectorStore.delete MemoryVectorStore.deleteBatch
    MemoryVectorStore.list MemoryVectorStore.update.

(** ** [src/memory/MemoryManager.ts] *)

(** The manager object: the heap of metadata objects it shares with its
    collaborators, the vector store, the working-memory map, and the
    number of identifiers drawn so far. *)
Record Manager (VS : Type) : Type := mkManager {
  heap : Heap;
  heapNext : Addr;
  vectorStore : VS;
  workingMemory : JsMap Memory;
  uuids : nat
}.
Arguments mkManager {VS}.
Arguments heap {VS}.
Arguments heapNext {VS}.
Arguments vectorStore {VS}.
Arguments workingMemory {VS}.
Arguments uuids {VS}.

Definition dquote : string := String (ascii_of_nat 34) "".
Definition newline : string := String (ascii_of_nat 10) "".

Definition DAY : R := 1000 * 60 * 60 * 24.

Section MemoryManager.
Context {VS : Type}.
Variable backend : IVectorStore VS.
Variable cfg : Config.
(** [randomUUID()]: the n-th identifier drawn. *)
Variable randomUUID : nat -> string.
(** [embeddingProvider.embed] *)
Variable embed : string -> list R.
(** [new Date(ms).toLocaleDateString()] *)
Variable toLocaleDateString : Z -> string.

Local Open Scope js_scope.

Definition St := Manager VS.

Definition with_heap (h : Heap) (s : St) : St :=
  mkManager h (heapNext s) (vectorStore s) (workingMemory s) (uuids s).
Definition with_workingMemory (w : JsMap Memory) (s : St) : St :=
  mkManager (heap s) (heapNext s) (vectorStore s) w (uuids s).

(** A call on [this.vectorStore]. *)
Definition call {A} (op : M VS A) : M St A :=
  fun s => let (r, vs') := op (vectorStore s) in
           (r, mkManager (heap s) (heapNext s) vs' (workingMemory s) (uuids s)).

(** A call that reads metadata objects. *)
Definition callH {A} (op : Heap -> M VS A) : M St A :=
  fun s => call (op (heap s)) s.

Definition generateId : M St string :=
  fun s => (Ok (randomUUID (uuids s)),
            mkManager (heap s) (heapNext s) (vectorStore s) (workingMemory s)
                      (S (uuids s))).

(** Allocation of a metadata object literal. *)
Definition alloc (md : MemoryMetadata) : M St Addr :=
  fun s => (Ok (heapNext s),
            mkManager (heap_set (heap s) (heapNext s) md) (S (heapNext s))
                      (vectorStore s) (workingMemory s) (uuids s)).

(** In-place field assignment on a metadata object. *)
Definition mutate (a : Addr) (f : MemoryMetadata -> MemoryMetadata) : M St unit :=
  modify (fun s => with_heap (heap_set (heap s) a (f (heap s a))) s).

Definition wm_set (k : string) (m : Memory) : M St unit :=
  modify (fun s => with_workingMemory (map_set k m (workingMemory s)) s).
Definition wm_delete (k : string) : M St unit :=
  modify (fun s => with_workingMemory (map_delete k (workingMemory s)) s).
Definition wm_has (k : string) : M St bool :=
  gets (fun s => map_has k (workingMemory s)).

Definition determineInitialLayer (options : MemoryStoreOptions) : MemoryLayer :=
  let importance := match so_importance options with
                    | Some x => x
                    | None => 0.5%R
                    end in
  if Rgeb importance 0.8 then LONG_TERM
  else if Rgeb importance 0.5 then SHORT_TERM
  else WORKING.

Definition store (now : Z) (content : string) (options : MemoryStoreOptions)
  : M St Memory :=
  id <- generateId ;;
  let embedding := embed content in
  md <- alloc (mkMetadata
                 now
                 match so_importance options with Some x => x | None => 0.5%R end
                 match so_source options with Some x => x | None => AGENT end
                 match so_tags options with Some x => x | None => [] end
                 0
                 now
                 match so_layer options with
                 | Some x => x
                 | None => determineInitialLayer options
                 end) ;;
  let memory := mkMemory id content (Some embedding) md in
  wm_set id memory ;;;
  call (vs_store backend memory) ;;;
  ret memory.

Definition get (k : string) : M St (option Memory) :=
  working <- gets (fun s => map_get k (workingMemory s)) ;;
  match working with
  | Some m => ret (Some m)
  | None => call (vs_get backend k)
  end.

Definition updateAccessCount (now : Z) (k : string) : M St unit :=
  memory <- get k ;;
  match memory with
  | Some m =>
      mutate (metadata m) (touch now) ;;;
      present <- wm_has k ;;
      (if present then wm_set k m else ret tt) ;;;
      call (vs_update backend m)
  | None => ret tt
  end.

Definition search (now : Z) (query : string) (options : MemorySearchOptions)
  : M St (list MemorySearchResult) :=
  let limit := match limit options with Some n => n | None => 10 end in
  let minRelevance := match minRelevance options with
                      | Some x => x
                      | None => 0%R
                      end in
  let queryEmbedding := embed query in
  let filter :=
    mkFilter
      match layerFilter options with
      | Some (first :: _) => Some first
      | _ => None
      end
      match se_tags options with
      | Some (t :: ts) => Some (t :: ts)
      | _ => None
      end
      None in
  results <- callH (fun h => vs_search backend h queryEmbedding (limit * 2) filter) ;;
  let results := List.filter (fun r => Rgeb (relevance r) minRelevance) results in
  for_of results (fun result => updateAccessCount now (sr_id result)) ;;;
  ret (slice_to limit results).

(** The [reduce] of [generateSummary]: occurrences per key, keys in
    order of first occurrence. *)
Fixpoint count_add (k : string) (counts : list (string * nat)) : list (string * nat) :=
  match counts with
  | [] => [(k, 1)]
  | (k', n) :: rest =>
      if k =? k' then (k', S n) :: rest else (k', n) :: count_add k rest
  end.

Definition count_all (ks : list string) : list (string * nat) :=
  fold_left (fun acc k => count_add k acc) ks [].

Definition generateSummary (h : Heap) (results : list MemorySearchResult)
           (task : string) : string :=
  match results with
  | [] => "No relevant memories found for task: " ++ dquote ++ task ++ dquote
  | _ =>
      let layers :=
        count_all (map (fun r => layer_name (layer (h (sr_metadata r)))) results) in
      let layerSummary :=
        join ", " (map (fun '(layer, count) => show_nat count ++ " " ++ layer) layers) in
      "Found " ++ show_nat (List.length results) ++ " relevant memories ("
        ++ layerSummary ++ ") for task: " ++ dquote ++ task ++ dquote
  end.

Definition recall (now : Z) (task : string) (context : option string) (limit : nat)
  : M St (list MemorySearchResult * string) :=
  let searchQuery :=
    match context with
    | Some c => if truthyS context
                then task ++ newline ++ newline ++ "Context: " ++ c
                else task
    | None => task
    end in
  relevantMemories <-
    search now searchQuery
      (mkSearchOptions (Some limit) (Some [WORKING; SHORT_TERM; LONG_TERM]) None None) ;;
  h <- gets heap ;;
  ret (relevantMemories, generateSummary h relevantMemories task).

Definition calculateMemoryScore (h : Heap) (now : Z) (m : Memory) : R :=
  let age := (now - timestamp (h (metadata m)))%Z in
  let ageDays := (IZR age / DAY)%R in
  let decayedImportance :=
    (importance (h (metadata m)) * exp (- decay_rate cfg * (ageDays / 30)))%R in
  let accessBonus := (ln (INR (accessCount (h (metadata m)) + 1)) * 0.1)%R in
  (decayedImportance + accessBonus)%R.

(** [groups[primaryTag].push(memory)], creating the group when absent. *)
Fixpoint group_push (k : string) (m : Memory) (groups : list (string * list Memory))
  : list (string * list Memory) :=
  match groups with
  | [] => [(k, [m])]
  | (k', ms) :: rest =>
      if k =? k' then (k', (ms ++ [m])%list) :: rest else (k', ms) :: group_push k m rest
  end.

Definition primaryTag (h : Heap) (m : Memory) : string :=
  match tags (h (metadata m)) with
  | t :: _ => if t =? "" then "uncategorized" else t
  | [] => "uncategorized"
  end.

Definition groupByTags (h : Heap) (memories : list Memory)
  : list (string * list Memory) :=
  fold_left (fun groups m => group_push (primaryTag h m) m groups) memories [].

(** [[...new Set(xs)]]: first occurrences, in order. *)
Fixpoint dedup (xs : list string) : list string :=
  match xs with
  | [] => []
  | x :: rest => x :: List.filter (fun y => negb (y =? x)) (dedup rest)
  end.

Definition Zmin_list (x : Z) (xs : list Z) : Z := fold_left Z.min xs x.
Definition Zmax_list (x : Z) (xs : list Z) : Z := fold_left Z.max xs x.

(** The text of a consolidated record.  It is only built for groups of
    at least three records, so the date range is that of a non-empty
    list. *)
Definition consolidateMemories (h : Heap) (memories : list Memory) : string :=
  let contents := map content memories in
  let tagCounts := count_all (flat_map (fun m => tags (h (metadata m))) memories) in
  let topTags :=
    map fst (slice_to 3 (sort (fun a b => INR (snd b) - INR (snd a))%R tagCounts)) in
  let stamps := map (fun m => timestamp (h (metadata m))) memories in
  let first := hd 0%Z stamps in
  "[Consolidated Memory: " ++ show_nat (List.length memories) ++ " entries from "
    ++ toLocaleDateString (Zmin_list first stamps) ++ " to "
    ++ toLocaleDateString (Zmax_list first stamps) ++ "]" ++ newline
    ++ "Tags: " ++ join ", " topTags ++ newline
    ++ "Summary: " ++ join " | " (slice_to 3 contents)
    ++ (if (3 <? List.length contents)%nat then "..." else "").

(** [memories.reduce((sum, m) => sum + m.metadata.importance, 0)] *)
Definition sum_importance (h : Heap) (memories : list Memory) : R :=
  fold_left (fun sum m => (sum + importance (h (metadata m)))%R) memories 0%R.

(** The body of the loop over the tag groups; [acc] holds the
    [consolidated] and [deleted] arrays. *)
Definition consolidate_group (now : Z) (acc : list Memory * list string)
           (group : string * list Memory) : M St (list Memory * list string) :=
  let '(tag, memories) := group in
  if (List.length memories <? 3)%nat then ret acc
  else
    h <- gets heap ;;
    let consolidatedContent := consolidateMemories h memories in
    let avgImportance := (sum_importance h memories / INR (List.length memories))%R in
    consolidatedMemory <-
      store now consolidatedContent
        (mkStoreOptions
           (Some (avgImportance * 0.9)%R)
           (Some (dedup (flat_map (fun m => tags (h (metadata m))) memories)
                    ++ [tag; "consolidated"])%list)
           (Some SYSTEM)
           (Some LONG_TERM)) ;;
    let ids := map id memories in
    call (vs_deleteBatch backend ids) ;;;
    for_of ids wm_delete ;;;
    ret ((fst acc ++ [consolidatedMemory])%list, (snd acc ++ ids)%list).

Fixpoint consolidate_groups (now : Z) (groups : list (string * list Memory))
         (acc : list Memory * list string) : M St (list Memory * list string) :=
  match groups with
  | [] => ret acc
  | g :: rest =>
      acc' <- consolidate_group now acc g ;;
      consolidate_groups now rest acc'
  end.

Definition consolidate (now : Z) (options : ConsolidationOptions)
  : M St ConsolidationResult :=
  let olderThan := match co_olderThan options with
                   | Some t => t
                   | None => (now - consolidation_age cfg)%Z
                   end in
  let targetSize := match targetSize options with Some n => n | None => 50 end in
  let layer := match co_layer options with Some l => l | None => SHORT_TERM end in
  allMemories <- callH (fun h => vs_list backend h (mkFilter (Some layer) None None)) ;;
  h <- gets heap ;;
  let oldMemories :=
    List.filter (fun m => (timestamp (h (metadata m)) <? olderThan)%Z) allMemories in
  if (List.length oldMemories <? targetSize)%nat then
    ret (mkConsolidationResult [] []
           ("Not enough old memories to consolidate. Found "
              ++ show_nat (List.length oldMemories) ++ ", need at least "
              ++ show_nat targetSize))
  else
    let sortedMemories :=
      sort (fun a b => calculateMemoryScore h now b - calculateMemoryScore h now a)%R
           oldMemories in
    let toConsolidate := slice_from targetSize sortedMemories in
    let grouped := groupByTags h toConsolidate in
    acc <- consolidate_groups now grouped ([], []) ;;
    ret (mkConsolidationResult (fst acc) (snd acc)
           ("Consolidated " ++ show_nat (List.length (fst acc)) ++ " memories from "
              ++ show_nat (List.length (snd acc)) ++ " old memories")).

Definition forget (options : ForgetOptions) : M St ForgetResult :=
  (* the value read where [options.olderThan] has been found truthy *)
  let olderThan := match fo_olderThan options with Some t => t | None => 0%Z end in
  acc1 <-
    (match memoryId options with
     | Some k =>
         if truthyS (memoryId options) then
           success <- call (vs_delete backend k) ;;
           wm_delete k ;;;
           ret (if success : bool
                then ([k],
                      [if truthyS (fo_reason options)
                       then match fo_reason options with Some r => r | None => "" end
                       else "Explicit deletion"])
                else ([], []))
         else ret ([], [])
     | None => ret ([], [])
     end) ;;
  let '(deleted, reasons) := acc1 in
  acc2 <-
    (if truthyZ (fo_olderThan options)
        || match fo_layer options with Some _ => true | None => false end
     then
       memories <-
         callH (fun h => vs_list backend h (mkFilter (fo_layer options) None None)) ;;
       h <- gets heap ;;
       let toDelete :=
         List.filter
           (fun m =>
              if truthyZ (fo_olderThan options)
                 && (timestamp (h (metadata m)) >=? olderThan)%Z
              then false else true)
           memories in
       let ids := map id toDelete in
       call (vs_deleteBatch backend ids) ;;;
       for_of ids wm_delete ;;;
       let why :=
         if truthyZ (fo_olderThan options)
         then "Older than " ++ toLocaleDateString olderThan
         else "Layer: " ++ match fo_layer options with
                           | Some l => layer_name l
                           | None => "undefined"
                           end in
       ret (List.app deleted ids, List.app reasons [why])
     else ret (deleted, reasons)) ;;
  let '(deleted, reasons) := acc2 in
  let joined := join "; " reasons in
  ret (mkForgetResult deleted
         (if joined =? "" then "No memories matched criteria" else joined)).

(** The body of the loop of [applyImportanceDecay]. *)
Definition decay_step (now : Z) (memory : Memory) : M St unit :=
  h <- gets heap ;;
  let age := (now - timestamp (h (metadata memory)))%Z in
  let ageDays := (IZR age / DAY)%R in
  if Rgeb ageDays 1 then
    let decayFactor := exp (- decay_rate cfg * (ageDays / 30)) in
    mutate (metadata memory)
           (fun md => set_importance (Rmax 0.1 (importance md * decayFactor)) md) ;;;
    call (vs_update backend memory) ;;;
    present <- wm_has (id memory) ;;
    if present then wm_set (id memory) memory else ret tt
  else ret tt.

Definition applyImportanceDecay (now : Z) : M St unit :=
  allMemories <- callH (fun h => vs_list backend h no_filter) ;;
  for_of allMemories (decay_step now).

Definition getNextLowerLayer (current : MemoryLayer) : MemoryLayer :=
  match current with
  | LONG_TERM => SHORT_TERM
  | SHORT_TERM => WORKING
  | _ => current
  end.

(** The body of the loop of [rebalanceLayers]. *)
Definition rebalance_step (now : Z) (memory : Memory) : M St unit :=
  h <- gets heap ;;
  let md := h (metadata memory) in
  let score := calculateMemoryScore h now memory in
  let age := (now - timestamp md)%Z in
  let ttl := ttl cfg (layer md) in
  newLayer <-
    (if (age >? ttl)%Z && Rltb' score 0.3 then
       match layer md with
       | LONG_TERM =>
           mutate (metadata memory)
                  (fun md => set_importance (Rmax 0.1 (importance md * 0.5)) md) ;;;
           ret None
       | l => ret (Some (getNextLowerLayer l))
       end
     else if Rgtb score 0.8 then
       match layer md with
       | LONG_TERM => ret None
       | _ => ret (Some LONG_TERM)
       end
     else ret None) ;;
  match newLayer with
  | Some l =>
      if negb (layer_eqb l (layer md)) then
        mutate (metadata memory) (set_layer l) ;;;
        call (vs_update backend memory) ;;;
        present <- wm_has (id memory) ;;
        if present then wm_set (id memory) memory else ret tt
      else ret tt
  | None => ret tt
  end.

Definition rebalanceLayers (now : Z) : M St unit :=
  allMemories <- callH (fun h => vs_list backend h no_filter) ;;
  for_of allMemories (rebalance_step now).
End MemoryManager.

(** ** A vector store whose write requests can be rejected

    The adapters for remote databases issue network requests, and such a
    request may be rejected.  As the manager sees it, such an adapter
    behaves like the in-process store except that each write request
    ([store], [update], [delete], [deleteBatch]) first consults the
    environment: [outages] lists, for the successive write requests,
    whether the request is rejected. *)
Module RemoteStore.

Record t : Type := mk {
  data : MemoryVectorStore.t;
  outages : list bool
}.

Definition read {A} (op : M MemoryVectorStore.t A) : M t A :=
  fun s => let (r, d) := op (data s) in (r, mk d (outages s)).

Definition write {A} (op : M MemoryVectorStore.t A) : M t A :=
  fun s =>
    match outages s with
    | true :: rest => (Throw (Error "request failed"), mk (data s) rest)
    | false :: rest => let (r, d) := op (data s) in (r, mk d rest)
    | [] => let (r, d) := op (data s) in (r, mk d [])
    end.

Definition adapter : IVectorStore t :=
  mkVectorStore t
    (fun m => write (MemoryVectorStore.store m))
    (fun h q k f => read (MemoryVectorStore.search h q k f))
    (fun k => read (MemoryVectorStore.get k))
    (fun k => write (MemoryVectorStore.delete k))
    (fun ids => write (MemoryVectorStore.deleteBatch ids))
    (fun h f => read (MemoryVectorStore.list h f))
    (fun m => write (MemoryVectorStore.update m)).

End RemoteStore.

(** ** Fixtures for the concrete scenarios *)

Definition uuid_of (n : nat) : string := "id-" ++ show_nat n.
Definition unit_embed (_ : string) : list R := [1%R].
Definition iso_date (_ : Z) : string := "1/1/1970".

Definition md0 : MemoryMetadata := mkMetadata 0 0.5 AGENT [] 0 0 WORKING.
Definition empty_heap : Heap := fun _ => md0.

Definition fresh {VS} (vs : VS) : Manager VS := mkManager empty_heap 0 vs [] 0.

(** ** Definitions used in the statements *)

(** The mapping from importance to layer, as the specification words it. *)
Definition initial_layer_by_importance (x : R) (l : MemoryLayer) : Prop :=
  (0.8 <= x /\ l = LONG_TERM)%R \/
  (0.5 <= x < 0.8 /\ l = SHORT_TERM)%R \/
  (x < 0.5 /\ l = WORKING)%R.

Definition effective_importance (options : MemoryStoreOptions) : R :=
  match so_importance options with Some x => x | None => 0.5%R end.

(** What [store] does up to the point where it awaits the vector store. *)
Definition stored_metadata (now : Z) (options : MemoryStoreOptions) : MemoryMetadata :=
  mkMetadata now (effective_importance options)
    match so_source options with Some x => x | None => AGENT end
    match so_tags options with Some x => x | None => [] end
    0 now
    match so_layer options with
    | Some x => x
    | None => determineInitialLayer options
    end.

Section StoreSteps.
Context {VS : Type}.
Variables (randomUUID : nat -> string) (embed : string -> list R).

Definition new_memory (content : string) (s : Manager VS) : Memory :=
  mkMemory (randomUUID (uuids s)) content (Some (embed content)) (heapNext s).

Definition before_write (now : Z) (content : string) (options : MemoryStoreOptions)
           (s : Manager VS) : Manager VS :=
  mkManager (heap_set (heap s) (heapNext s) (stored_metadata now options))
            (S (heapNext s)) (vectorStore s)
            (map_set (randomUUID (uuids s)) (new_memory content s) (workingMemory s))
            (S (uuids s)).
End StoreSteps.


(** *** Scenarios *)

(** A [store] on an empty remote store whose next write is rejected. *)
Definition failed_store_run : Result Memory * Manager RemoteStore.t :=
  store RemoteStore.adapter uuid_of unit_embed 1000 "note"
        (mkStoreOptions None None None None)
        (fresh (RemoteStore.mk [] [true])).

(** The candidate set of [consolidate], in the specification's words: the
    records of the chosen layer whose timestamp is below [olderThan]. *)
Definition candidates (h : Heap) (memories : MemoryVectorStore.t)
           (l : MemoryLayer) (olderThan : Z) : list Memory :=
  List.filter
    (fun m => layer_eqb (layer (h (metadata m))) l
              && (timestamp (h (metadata m)) <? olderThan)%Z)
    (map memory (map_values memories)).

(** The records that [forget] is asked to delete, in the specification's
    words: those of the given layer (all layers when none is given) whose
    timestamp is strictly below [olderThan]. *)
Definition older_records (h : Heap) (memories : MemoryVectorStore.t)
           (l : option MemoryLayer) (olderThan : Z) : list Memory :=
  List.filter
    (fun m => match l with
              | Some l => layer_eqb (layer (h (metadata m))) l
              | None => true
              end
              && (timestamp (h (metadata m)) <? olderThan)%Z)
    (map memory (map_values memories)).

(** A manager over the in-process store holding the given records, each
    with a metadata object of its own, present in the store and in the
    working-memory map (the state a sequence of [store] calls leaves). *)
Definition heap_of (mds : list MemoryMetadata) : Heap := fun a => nth a mds md0.

Definition record (k : string) (a : Addr) : Memory := mkMemory k k (Some [1%R]) a.

Fixpoint records_from (a : Addr) (ks : list string) : list Memory :=
  match ks with
  | [] => []
  | k :: rest => record k a :: records_from (S a) rest
  end.

Definition seeded (rs : list (string * MemoryMetadata)) : Manager MemoryVectorStore.t :=
  let ms := records_from 0 (map fst rs) in
  mkManager (heap_of (map snd rs)) (List.length rs)
            (map (fun m => (id m, mkStored m [1%R])) ms)
            (map (fun m => (id m, m)) ms)
            (List.length rs).

(** One short-term and one long-term record, none in the working layer. *)
Definition two_tiers : Manager MemoryVectorStore.t :=
  seeded [("a", mkMetadata 1000 0.6 AGENT [] 0 1000 SHORT_TERM);
          ("b", mkMetadata 1000 0.9 AGENT [] 0 1000 LONG_TERM)].

(** One working record created at time 5. *)
Definition one_working : Manager MemoryVectorStore.t :=
  seeded [("a", mkMetadata 5 0.3 AGENT [] 0 5 WORKING)].

(** The filter that [search] builds for the vector store, and its
    defaults. *)
Definition search_limit (options : MemorySearchOptions) : nat :=
  match limit options with Some n => n | None => 10 end.

Definition search_minRelevance (options : MemorySearchOptions) : R :=
  match minRelevance options with Some x => x | None => 0%R end.

Definition search_filter (options : MemorySearchOptions) : Filter :=
  mkFilter
    match layerFilter options with
    | Some (first :: _) => Some first
    | _ => None
    end
    match se_tags options with
    | Some (t :: ts) => Some (t :: ts)
    | _ => None
    end
    None.

(** The results of the vector store that survive [minRelevance]. *)
Definition surviving (options : MemorySearchOptions)
           (results : list MemorySearchResult) : list MemorySearchResult :=
  List.filter (fun r => Rgeb (relevance r) (search_minRelevance options)) results.

(** A remote store that holds one record and rejects the next write. *)
Definition remote_one : Manager RemoteStore.t :=
  mkManager (heap_of [mkMetadata 1000 0.5 AGENT [] 0 1000 SHORT_TERM]) 1
            (RemoteStore.mk [("a", mkStored (record "a" 0) [1%R])] [true])
            [("a", record "a" 0)] 1.

Definition no_options : MemorySearchOptions := mkSearchOptions None None None None.





(** An in-process store holding one record whose embedding is opposite to
    the query [[1]]. *)
Definition opposite_store : MemoryVectorStore.t :=
  [("a", mkStored (mkMemory "a" "a" (Some [(-1)%R]) 0) [(-1)%R])].

(** The result the store computes for the query [[1]] on [opposite_store]. *)
Definition opposite_result : MemorySearchResult :=
  mkSearchResult "a" "a" (-1)%R 0.

(** *** Importance decay, record by record *)

(** The records a store holds, in map order, and the store seen as a map
    from id to record. *)
Definition stored_records (memories : MemoryVectorStore.t) : list Memory :=
  map memory (map_values memories).

Definition projection (memories : MemoryVectorStore.t) : list (string * Memory) :=
  map (fun e => (fst e, memory (snd e))) memories.

(** A well-formed in-process store: keys are unique, every record is filed
    under its own id, and no two records share a metadata object.  This is
    what [store] establishes, every record being created with a fresh id
    and a fresh metadata object. *)
Definition wf_store (memories : MemoryVectorStore.t) : Prop :=
  NoDup (map_keys memories) /\
  (forall k sm, In (k, sm) memories -> k = id (memory sm)) /\
  NoDup (map metadata (stored_records memories)).

Definition ageDays (now : Z) (md : MemoryMetadata) : R :=
  (IZR (now - timestamp md) / DAY)%R.

(** What one iteration of the decay loop does to a metadata object. *)
Definition decay_once (cfg : Config) (now : Z) (md : MemoryMetadata) : MemoryMetadata :=
  if Rgeb (ageDays now md) 1
  then set_importance
         (Rmax 0.1 (importance md * exp (- decay_rate cfg * (ageDays now md / 30)))) md
  else md.

Definition decay_heap (cfg : Config) (now : Z) (ms : list Memory) (h : Heap) : Heap :=
  fold_left (fun h m => heap_set h (metadata m) (decay_once cfg now (h (metadata m))))
            ms h.

(** Thirty days in milliseconds. *)
Definition THIRTY_DAYS : Z := 2592000000.

(** One record of importance 1 created at time 0, looked at thirty days
    later. *)
Definition month_old : Manager MemoryVectorStore.t :=
  seeded [("a", mkMetadata 0 1 AGENT [] 0 0 LONG_TERM)].

(** The state of [month_old] after one and after two runs of the decay at
    the same clock value. *)
Definition after_first_decay : Manager MemoryVectorStore.t :=
  snd (applyImportanceDecay memoryVectorStore config THIRTY_DAYS month_old).

Definition after_second_decay : Manager MemoryVectorStore.t :=
  snd (applyImportanceDecay memoryVectorStore config THIRTY_DAYS after_first_decay).

(** *** The importance invariant *)

Definition importance_ok (h : Heap) : Prop :=
  forall a, (0 <= importance (h a) <= 1)%R.

(** Relative to an earlier heap [h0]: every importance is in [0, 1], and
    one that differs from its earlier value is at least 0.1. *)
Definition floored_since (h0 h : Heap) : Prop :=
  importance_ok h /\
  forall a, importance (h a) = importance (h0 a) \/ (0.1 <= importance (h a))%R.

(** [keeps I m Q]: from a heap that satisfies [I], the computation [m]
    ends, by return or by exception, in a heap that satisfies [I], and a
    returned value satisfies [Q]. *)
Definition keeps {VS A} (I : Heap -> Prop) (m : M (Manager VS) A) (Q : A -> Prop) : Prop :=
  forall s, I (heap s) ->
            I (heap (snd (m s))) /\ forall a, fst (m s) = Ok a -> Q a.

Definition anything {A} (_ : A) : Prop := True.

(** A [store] of importance 0, which the boundary validation accepts. *)
Definition zero_importance_run : Result Memory * Manager MemoryVectorStore.t :=
  store memoryVectorStore uuid_of unit_embed 1000 "note"
        (mkStoreOptions (Some 0%R) None None None)
        (fresh MemoryVectorStore.empty).

(** [options.importance], when present, has passed [validateImportance]. *)
Definition validated (options : MemoryStoreOptions) : Prop :=
  match so_importance options with
  | Some x => validateImportance x = Ok x
  | None => True
  end.

(** Three working records and one short-term record. *)
Definition three_working : Manager MemoryVectorStore.t :=
  seeded [("a", mkMetadata 10 0.3 AGENT [] 0 10 WORKING);
          ("b", mkMetadata 20 0.3 AGENT [] 0 20 WORKING);
          ("c", mkMetadata 30 0.6 AGENT [] 0 30 SHORT_TERM);
          ("d", mkMetadata 40 0.3 AGENT [] 0 40 WORKING)].

(** One stored record, searched twice. *)
Definition one_record : Manager MemoryVectorStore.t :=
  seeded [("a", mkMetadata 1000 0.5 AGENT [] 0 1000 SHORT_TERM)].

Definition after_one_search : Manager MemoryVectorStore.t :=
  snd (search memoryVectorStore unit_embed 2000 "Hello" no_options one_record).

Definition after_two_searches : Manager MemoryVectorStore.t :=
  snd (search memoryVectorStore unit_embed 3000 "Hello" no_options after_one_search).

(** *** Statements about the in-process store *)

(** What a filter asks of a record, in words: the requested layer, every
    requested tag, at least the requested importance. *)
Definition satisfies (f : Filter) (md : MemoryMetadata) : Prop :=
  (forall l, f_layer f = Some l -> layer md = l) /\
  (forall ts, f_tags f = Some ts -> forall t, In t ts -> In t (tags md)) /\
  (forall x, f_minImportance f = Some x -> (x <= importance md)%R).

(** Results in order of decreasing relevance. *)
Definition descending (rs : list MemorySearchResult) : Prop :=
  StronglySorted (fun a b => (relevance b <= relevance a)%R) rs.

(** The stored records that pass the tests of [search]. *)
Definition matching (h : Heap) (f : Filter) (memories : MemoryVectorStore.t)
  : list StoredMemory :=
  List.filter (MemoryVectorStore.passes_search h f) (map_values memories).

(** A record without an embedding, as [list] of a remote adapter may
    return it. *)
Definition bare (k : string) (a : Addr) : Memory := mkMemory k k None a.

(** *** Statements about the manager *)

(** The working-memory map mirrors the store: what it holds under an id is
    the record the store holds under that id. *)
Definition cache_coherent (s : Manager MemoryVectorStore.t) : Prop :=
  forall k m, map_get k (workingMemory s) = Some m ->
              exists sm, map_get k (vectorStore s) = Some sm /\ memory sm = m.

(** The reason [forget] reports for an explicit deletion. *)
Definition deletion_reason (why : option string) : string :=
  match why with
  | Some r => if r =? "" then "Explicit deletion" else r
  | None => "Explicit deletion"
  end.

(** The record that [zero_importance_run] creates. *)
Definition zero_importance_record : Memory :=
  new_memory uuid_of unit_embed "note" (fresh MemoryVectorStore.empty).

(** The heap after the metadata objects at [addrs] have been rewritten by
    [g], one after the other. *)
Definition apply_at (g : MemoryMetadata -> MemoryMetadata) (addrs : list Addr)
           (h : Heap) : Heap :=
  fold_left (fun h a => heap_set h a (g (h a))) addrs h.

(** The memory score as a function of a metadata object. *)
Definition score_of (cfg : Config) (now : Z) (md : MemoryMetadata) : R :=
  (importance md * exp (- decay_rate cfg * (ageDays now md / 30))
   + ln (INR (accessCount md + 1)) * 0.1)%R.

(** What [rebalanceLayers] decides for one record, from its metadata
    alone: an expired record of low score is attenuated when long-term and
    demoted by one layer otherwise (working stays); else a record of high
    score is promoted to long-term; else nothing changes. *)
Definition rebalanced (cfg : Config) (now : Z) (md : MemoryMetadata) : MemoryMetadata :=
  if ((now - timestamp md >? ttl cfg (layer md))%Z
      && Rltb' (score_of cfg now md) 0.3)%bool
  then match layer md with
       | LONG_TERM => set_importance (Rmax 0.1 (importance md * 0.5)) md
       | SHORT_TERM => set_layer WORKING md
       | WORKING => md
       end
  else if Rgtb (score_of cfg now md) 0.8
       then match layer md with
            | LONG_TERM => md
            | _ => set_layer LONG_TERM md
            end
       else md.

(** Two stored records and a search limited to one result. *)
Definition two_records : Manager MemoryVectorStore.t :=
  seeded [("a", mkMetadata 1000 0.5 AGENT [] 0 1000 SHORT_TERM);
          ("b", mkMetadata 1000 0.5 AGENT [] 0 1000 SHORT_TERM)].

Definition limit_one : MemorySearchOptions := mkSearchOptions (Some 1) None None None.

Definition both_found : list MemorySearchResult :=
  [mkSearchResult "a" "a" 1 0; mkSearchResult "b" "b" 1 1].


(** ** [src/validation.ts], character by character

    For the functions that look inside a string, a string is its sequence
    of UTF-16 code units. *)

Definition ustring := list N.

(** The class [[\x00-\x08\x0B\x0C\x0E-\x1F\x7F]]. *)
Definition is_control (c : N) : bool :=
  ((c <=? 8) || (c =? 11) || (c =? 12) || ((14 <=? c) && (c <=? 31)) || (c =? 127))%N.

(** White space and line terminators, which [trim] removes. *)
Definition is_space (c : N) : bool :=
  ((c =? 9) || (c =? 10) || (c =? 11) || (c =? 12) || (c =? 13) || (c =? 32)
   || (c =? 160) || (c =? 5760) || ((8192 <=? c) && (c <=? 8202))
   || (c =? 8232) || (c =? 8233) || (c =? 8239) || (c =? 8287)
   || (c =? 12288) || (c =? 65279))%N.

Fixpoint trimStart (s : ustring) : ustring :=
  match s with
  | c :: rest => if is_space c then trimStart rest else s
  | [] => []
  end.

Definition trimEnd (s : ustring) : ustring := List.rev (trimStart (List.rev s)).

Definition trim (s : ustring) : ustring := trimEnd (trimStart s).

Definition sanitizeString (input : ustring) (maxLength : nat) : ustring :=
  let sanitized := List.filter (fun c => negb (is_control c)) input in
  let sanitized :=
    if (maxLength <? List.length sanitized)%nat then firstn maxLength sanitized
    else sanitized in
  trim sanitized.

(** [.] in a regular expression: anything but a line terminator. *)
Definition is_line_terminator (c : N) : bool :=
  ((c =? 10) || (c =? 13) || (c =? 8232) || (c =? 8233))%N.

(** After an opening brace: a closing brace comes before any line
    terminator. *)
Fixpoint closes_brace (s : ustring) : bool :=
  match s with
  | [] => false
  | c :: rest =>
      if (c =? 125)%N then true
      else if is_line_terminator c then false
      else closes_brace rest
  end.

(** [/\{.*\}/.test(s)] *)
Fixpoint has_braces (s : ustring) : bool :=
  match s with
  | [] => false
  | c :: rest => ((c =? 123)%N && closes_brace rest) || has_braces rest
  end.

(** One of [/\[/], [/\]/], [/\(/], [/\)/], [/:/] matches. *)
Definition has_bracket (s : ustring) : bool :=
  existsb (fun c => (c =? 91) || (c =? 93) || (c =? 40) || (c =? 41) || (c =? 58))%N s.

Definition sanitizeQuery (query : ustring) : Result ustring :=
  let sanitized := sanitizeString query 1000 in
  match sanitized with
  | [] => Throw (Error "Query cannot be empty")
  | _ =>
      if has_braces sanitized || has_bracket sanitized
      then Throw (Error "Query contains invalid characters")
      else Ok sanitized
  end.

(** The loop of [validateTags]. *)
Fixpoint sanitize_tags (tags : list ustring) : list ustring :=
  match tags with
  | [] => []
  | tag :: rest =>
      let sanitizedTag := sanitizeString tag 50 in
      match sanitizedTag with
      | [] => sanitize_tags rest
      | _ => sanitizedTag :: sanitize_tags rest
      end
  end.

Definition validateTags (tags : list ustring) : Result (list ustring) :=
  if (50 <? List.length tags)%nat then Throw (Error "Too many tags (max 50)")
  else Ok (sanitize_tags tags).

(** [Math.floor] *)
Definition floor (x : R) : R := IZR (Int_part x).

(** [validateLimit]; an absent limit ([undefined] or [null]) is [None].
    Every caller passes natural-number literals for the default and the
    maximum. *)
Definition validateLimit (limit : option R) (defaultLimit maxLimit : nat) : Result R :=
  match limit with
  | None => Ok (INR defaultLimit)
  | Some x =>
      if Rltb' x 1 then Throw (Error "Limit must be at least 1")
      else if Rgtb x (INR maxLimit)
           then Throw (Error ("Limit cannot exceed " ++ show_nat maxLimit))
           else Ok (floor x)
  end.

Definition source_name (x : MemorySource) : string :=
  match x with
  | USER => "user"
  | AGENT => "agent"
  | SYSTEM => "system"
  end.

Definition validateLayer (layer : string) : Result string :=
  if includes layer ["working"; "short-term"; "long-term"] then Ok layer
  else Throw (Error "Invalid layer. Must be one of: working, short-term, long-term").

Definition validateSource (source : string) : Result string :=
  if includes source ["user"; "agent"; "system"] then Ok source
  else Throw (Error "Invalid source. Must be one of: user, agent, system").

(** A string that [sanitizeString] has nothing to do on. *)
Definition clean (maxLength : nat) (s : ustring) : Prop :=
  Forall (fun c => is_control c = false) s /\
  List.length s <= maxLength /\
  (forall c rest, s = c :: rest -> is_space c = false) /\
  (forall c front, s = (front ++ [c])%list -> is_space c = false).

(** ** The rate limiter of [src/validation.ts] *)

Module RateLimiter.
Section Limiter.
Variable maxRequests : R.
Variable windowMs : Z.

(** The closure's [requests] map. *)
Definition Requests := JsMap (list Z).

(** [check(identifier)] at the moment [Date.now()] returns [now]. *)
Definition check (identifier : string) (now : Z) (requests : Requests)
  : bool * Requests :=
  let windowStart := (now - windowMs)%Z in
  let userRequests :=
    match map_get identifier requests with Some ts => ts | None => [] end in
  let userRequests := List.filter (fun t => (t >? windowStart)%Z) userRequests in
  if Rgeb (INR (List.length userRequests)) maxRequests then (false, requests)
  else (true, map_set identifier (userRequests ++ [now])%list requests).

(** [requests.get(identifier) || []] *)
Definition recorded (identifier : string) (requests : Requests) : list Z :=
  match map_get identifier requests with Some ts => ts | None => [] end.

(** [reset(identifier)]: an absent identifier and the empty string are both
    falsy. *)
Definition reset (identifier : option string) (requests : Requests) : Requests :=
  match identifier with
  | Some id => if (id =? "")%string then [] else map_delete id requests
  | None => []
  end.

(** The moments at which a sequence of [check] calls let [identifier]
    through; each call is given with the clock reading it saw. *)
Fixpoint granted (identifier : string) (calls : list (string * Z))
         (requests : Requests) : list Z :=
  match calls with
  | [] => []
  | (who, now) :: rest =>
      let (ok, requests') := check who now requests in
      ((if ok && (who =? identifier)%string then [now] else [])
         ++ granted identifier rest requests')%list
  end.
End Limiter.
End RateLimiter.

(** How many of the moments [ts] are later than [start]. *)
Definition since (start : Z) (ts : list Z) : nat :=
  List.length (List.filter (fun t => (t >? start)%Z) ts).

(** ** [LocalEmbeddingProvider]: TF-IDF embeddings *)

Module LocalEmbedding.

Record Vocabulary : Type := mkVocabulary {
  words : JsMap nat;
  idf : JsMap R;
  documentCount : nat
}.

(** The vocabulary of a new provider. *)
Definition empty : Vocabulary := mkVocabulary [] [] 0.

Definition dimensions : nat := 512.

(** Conversion of an integral number to a signed 32-bit integer, as the
    bitwise operators do. *)
Definition toInt32 (z : Z) : Z :=
  ((z + 2147483648) mod 4294967296 - 2147483648)%Z.

(** [str.charCodeAt(i)] for each [i]; a token is made of word characters,
    which are ASCII. *)
Definition charCodes (str : string) : list Z :=
  map (fun c => Z.of_N (N_of_ascii c)) (list_ascii_of_string str).

(** [hashString]: [hash << 5] and [hash & hash] both yield 32-bit
    integers; the subtraction and the addition between them are exact. *)
Definition hashString (str : string) : Z :=
  fold_left (fun hash char => toInt32 (toInt32 (hash * 32) - hash + char))
            (charCodes str) 0%Z.

(** [Math.abs(hash) % this.dimensions] *)
Definition dimension_of (token : string) : nat :=
  Z.to_nat (Z.abs (hashString token) mod Z.of_nat dimensions).

(** [vector[i] = x]; every index written by [embed] is below the length of
    the array, and beyond it the model leaves the array alone. *)
Fixpoint array_set {A} (i : nat) (x : A) (l : list A) : list A :=
  match l, i with
  | [], _ => []
  | _ :: rest, O => x :: rest
  | y :: rest, S i' => y :: array_set i' x rest
  end.

(** [new Set(xs)], in insertion order. *)
Fixpoint unique_from (seen xs : list string) : list string :=
  match xs with
  | [] => []
  | x :: rest =>
      if includes x seen then unique_from seen rest
      else x :: unique_from (x :: seen) rest
  end.

Definition unique (xs : list string) : list string := unique_from [] xs.

(** [this.vocabulary.idf.get(token) || 1] *)
Definition idf_or_one (token : string) (v : Vocabulary) : R :=
  match map_get token (idf v) with
  | Some x => if Reqb x 0 then 1%R else x
  | None => 1%R
  end.

(** [vector.reduce((sum, val) => sum + val * val, 0)] *)
Definition sum_of_squares (vector : list R) : R :=
  fold_left (fun sum val => (sum + val * val)%R) vector 0%R.

Section Provider.
(** [tokenize]: lower-casing, punctuation to blanks, splitting on white
    space and dropping words of fewer than three characters are left to
    the string library. *)
Variable tokenize : string -> list string.

(** [words.set(token, (words.get(token) || 0) + 1)] for each distinct token
    of each text, then the document count, then the IDF of every word. *)
Definition updateVocabulary (texts : list string) (v : Vocabulary) : Vocabulary :=
  let words' :=
    fold_left (fun ws text =>
                 fold_left (fun ws token => count_add token ws)
                           (unique (tokenize text)) ws)
              texts (words v) in
  let documentCount' := documentCount v + List.length texts in
  let idf' :=
    fold_left (fun m e =>
                 let '(word, docFreq) := e in
                 map_set word
                   (ln ((INR documentCount' + 1) / (INR docFreq + 1)) + 1)%R m)
              words' (idf v) in
  mkVocabulary words' idf' documentCount'.

(** The array filled by the loop over the term frequencies. *)
Definition tfidf_vector (tokens : list string) (v : Vocabulary) : list R :=
  fold_left (fun vector e =>
               let '(token, frequency) := e in
               let tokenIdf := idf_or_one token v in
               let tfidf :=
                 (INR frequency / INR (List.length tokens) * tokenIdf)%R in
               array_set (dimension_of token) tfidf vector)
            (count_all tokens) (repeat 0%R dimensions).

Definition embed (text : string) (v : Vocabulary) : list R * Vocabulary :=
  let v' := updateVocabulary [text] v in
  let tokens := tokenize text in
  let vector := tfidf_vector tokens v' in
  let magnitude := sqrt (sum_of_squares vector) in
  if Rgtb magnitude 0
  then (map (fun val => (val / magnitude)%R) vector, v')
  else (vector, v').

End Provider.

(** [hashString] without the 32-bit truncation. *)
Definition polynomial31 (str : string) : Z :=
  fold_left (fun hash char => (31 * hash + char)%Z) (charCodes str) 0%Z.

(** What [updateVocabulary] maintains: a word occurs in at least one and at
    most [documentCount] documents, and no IDF is below one. *)
Definition vocabulary_ok (v : Vocabulary) : Prop :=
  Forall (fun e => 1 <= snd e <= documentCount v) (words v) /\
  Forall (fun e => (1 <= snd e)%R) (idf v).

(** Bounds on the document frequencies while the distinct tokens of one
    text are counted: a word seen in this text may have reached [S N]. *)
Definition counted (seen : list string) (N : nat) (e : string * nat) : Prop :=
  1 <= snd e /\ snd e <= S N /\ (~ In (fst e) seen -> snd e <= N).

(** A vector as [embed] returns them. *)
Definition embedding (vector : list R) : Prop :=
  List.length vector = dimensions /\ Forall (fun x => (0 <= x)%R) vector.
End LocalEmbedding.
(** * Properties *)

(** ** Reasoning about the comparisons *)

Lemma Rgeb_true x y : (x >= y)%R -> Rgeb x y = true.
Proof. unfold Rgeb. destruct (Rge_dec x y); tauto. Qed.

Lemma Rgeb_false x y : (x < y)%R -> Rgeb x y = false.
Proof. unfold Rgeb. destruct (Rge_dec x y); [lra | reflexivity]. Qed.

Lemma Rltb'_true x y : (x < y)%R -> Rltb' x y = true.
Proof. unfold Rltb'. destruct (Rlt_dec x y); tauto. Qed.

Lemma Rltb'_false x y : (y <= x)%R -> Rltb' x y = false.
Proof. unfold Rltb'. destruct (Rlt_dec x y); [lra | reflexivity]. Qed.

Lemma Rgtb_true x y : (x > y)%R -> Rgtb x y = true.
Proof. unfold Rgtb. destruct (Rgt_dec x y); tauto. Qed.

Lemma Rgtb_false x y : (x <= y)%R -> Rgtb x y = false.
Proof. unfold Rgtb. destruct (Rgt_dec x y); [lra | reflexivity]. Qed.

Lemma Reqb_true x y : x = y -> Reqb x y = true.
Proof. unfold Reqb. destruct (Req_dec_T x y); tauto. Qed.

Lemma Reqb_false x y : x <> y -> Reqb x y = false.
Proof. unfold Reqb. destruct (Req_dec_T x y); tauto. Qed.

Lemma heap_set_same h a md : heap_set h a md a = md.
Proof. unfold heap_set. now rewrite Nat.eqb_refl. Qed.

Lemma heap_set_other h a md a' : a' <> a -> heap_set h a md a' = h a'.
Proof.
  intros Hne. unfold heap_set.
  destruct (Nat.eqb a' a) eqn:E; [apply Nat.eqb_eq in E; contradiction | reflexivity].
Qed.

(** ** Initial layer (C2) *)

Lemma determineInitialLayer_spec options :
  initial_layer_by_importance (effective_importance options)
                              (determineInitialLayer options).
Proof.
  unfold initial_layer_by_importance, determineInitialLayer, effective_importance.
  set (x := match so_importance options with Some x => x | None => 0.5%R end).
  unfold Rgeb.
  destruct (Rge_dec x 0.8); [left; split; [lra | reflexivity] |].
  destruct (Rge_dec x 0.5); right; [left | right]; split; (lra || reflexivity).
Qed.

Section StoreFacts.
Context {VS : Type} (backend : IVectorStore VS).
Variables (randomUUID : nat -> string) (embed : string -> list R).

Lemma store_unfold now content options s :
    store backend randomUUID embed now content options s =
    match vs_store backend (new_memory randomUUID embed content s) (vectorStore s) with
    | (Ok _, vs') =>
        (Ok (new_memory randomUUID embed content s),
         mkManager (heap (before_write randomUUID embed now content options s))
                   (heapNext (before_write randomUUID embed now content options s)) vs'
                   (workingMemory (before_write randomUUID embed now content options s))
                   (uuids (before_write randomUUID embed now content options s)))
    | (Throw e, vs') =>
        (Throw e,
         mkManager (heap (before_write randomUUID embed now content options s))
                   (heapNext (before_write randomUUID embed now content options s)) vs'
                   (workingMemory (before_write randomUUID embed now content options s))
                   (uuids (before_write randomUUID embed now content options s)))
    end.
Proof.
    unfold store, bind, generateId, alloc, wm_set, modify, call, ret,
      with_workingMemory, new_memory, before_write, stored_metadata,
      effective_importance; simpl.
    destruct (vs_store backend _ (vectorStore s)) as [[u | e] vs']; reflexivity.
Qed.
End StoreFacts.

Lemma map_get_set_same {V} k (v : V) m : map_get k (map_set k v m) = Some v.
Proof.
  induction m as [| [k' v'] m IH]; simpl.
  - now rewrite String.eqb_refl.
  - destruct (k =? k') eqn:E; simpl; rewrite ?String.eqb_refl, ?E; auto.
Qed.

(** C2.  A call to [store] either returns a record or fails with the very
    error raised by the vector store's write.  The returned record's layer
    is [options.layer] when that is supplied; otherwise it is long-term
    when the effective importance ([options.importance], default 0.5) is at
    least 0.8, short-term when it is at least 0.5 and below 0.8, and working
    when it is below 0.5.  With the in-process vector store the call always
    returns. *)
Theorem store_assigns_initial_layer :
  forall (randomUUID : nat -> string) (embed : string -> list R)
         (now : Z) (content : string) (options : MemoryStoreOptions),
    (forall VS (backend : IVectorStore VS) (s : Manager VS),
        match store backend randomUUID embed now content options s with
        | (Ok m, s') =>
            match so_layer options with
            | Some l => layer (heap s' (metadata m)) = l
            | None =>
                initial_layer_by_importance (effective_importance options)
                                            (layer (heap s' (metadata m)))
            end
        | (Throw e, _) =>
            fst (vs_store backend (new_memory randomUUID embed content s)
                          (vectorStore s)) = Throw e
        end) /\
    (forall s : Manager MemoryVectorStore.t,
        exists m s',
          store memoryVectorStore randomUUID embed now content options s = (Ok m, s')).
Proof.
  intros randomUUID embed now content options. split.
  - intros VS backend s. rewrite store_unfold.
    destruct (vs_store backend _ (vectorStore s)) as [[u | e] vs'] eqn:E; simpl.
    + rewrite heap_set_same. unfold stored_metadata; simpl.
      destruct (so_layer options); [reflexivity | apply determineInitialLayer_spec].
    + reflexivity.
  - intros s. rewrite store_unfold. simpl. eauto.
Qed.

(** The three stores of the end-to-end scenario: importance 0.3, 0.6 and
    0.9 without an explicit layer. *)
Example initial_layer_scenario :
  determineInitialLayer (mkStoreOptions (Some 0.3%R) None None None) = WORKING /\
  determineInitialLayer (mkStoreOptions (Some 0.6%R) None None None) = SHORT_TERM /\
  determineInitialLayer (mkStoreOptions (Some 0.9%R) None None None) = LONG_TERM.
Proof.
  unfold determineInitialLayer; simpl. repeat split.
  - rewrite !Rgeb_false by lra. reflexivity.
  - rewrite Rgeb_false by lra. rewrite Rgeb_true by lra. reflexivity.
  - rewrite Rgeb_true by lra. reflexivity.
Qed.

(** ** A failed write leaves the cache entry behind (C7) *)

(** C7, as the code has it.  [store] puts the new record into the
    working-memory map before it awaits the vector store, and nothing
    removes it again: when the vector store's write fails, [store] fails
    with the same error and the new record is in the working-memory map. *)
Theorem store_failure_keeps_cache_entry :
  forall VS (backend : IVectorStore VS) (randomUUID : nat -> string)
         (embed : string -> list R) now content options (s : Manager VS) e vs',
    vs_store backend (new_memory randomUUID embed content s) (vectorStore s)
      = (Throw e, vs') ->
    exists s',
      store backend randomUUID embed now content options s = (Throw e, s') /\
      vectorStore s' = vs' /\
      map_get (id (new_memory randomUUID embed content s)) (workingMemory s')
        = Some (new_memory randomUUID embed content s).
Proof.
  intros VS backend randomUUID embed now content options s e vs' Hfail.
  rewrite store_unfold, Hfail. eexists; split; [reflexivity |].
  split; [reflexivity |]. simpl. apply map_get_set_same.
Qed.

(** A remote store whose next write request is rejected. *)
Lemma store_failure_keeps_cache_entry_witness :
  exists s',
    store RemoteStore.adapter uuid_of unit_embed 1000 "note"
          (mkStoreOptions None None None None)
          (fresh (RemoteStore.mk [] [true]))
      = (Throw (Error "request failed"), s') /\
    vectorStore s' = RemoteStore.mk [] [] /\
    map_get "id-0" (workingMemory s')
      = Some (mkMemory "id-0" "note" (Some [1%R]) 0).
Proof.
  apply (store_failure_keeps_cache_entry
           RemoteStore.t RemoteStore.adapter uuid_of unit_embed 1000 "note"
           (mkStoreOptions None None None None)
           (fresh (RemoteStore.mk [] [true]))).
  reflexivity.
Defined.

(** C7 fails on the code: after a failed write to an empty remote store
    the record that could not be stored is in the working-memory map while
    the vector store holds nothing. *)
Lemma store_failure_leaks_into_cache :
  fst failed_store_run = Throw (Error "request failed") /\
  map_has "id-0" (workingMemory (snd failed_store_run)) = true /\
  RemoteStore.data (vectorStore (snd failed_store_run)) = [].
Proof. unfold failed_store_run. simpl. repeat split. Qed.

(** ** Calls on the in-process store *)

Lemma call_list_memory h f (s : Manager MemoryVectorStore.t) :
  call (MemoryVectorStore.list h f) s =
  (Ok (map memory (List.filter (MemoryVectorStore.passes_layer_tags h f)
                               (map_values (vectorStore s)))), s).
Proof. destruct s; reflexivity. Qed.

Lemma filter_map_comm {A B} (f : A -> B) (p : B -> bool) (l : list A) :
  List.filter p (map f l) = map f (List.filter (fun x => p (f x)) l).
Proof.
  induction l as [| x l IH]; simpl; [reflexivity |].
  destruct (p (f x)); simpl; now rewrite IH.
Qed.

Lemma filter_filter {A} (p q : A -> bool) (l : list A) :
  List.filter p (List.filter q l) = List.filter (fun x => q x && p x) l.
Proof.
  induction l as [| x l IH]; simpl; [reflexivity |].
  destruct (q x); simpl; [destruct (p x) |]; now rewrite IH.
Qed.

Lemma list_layer_old h memories l t :
  List.filter (fun m => (timestamp (h (metadata m)) <? t)%Z)
    (map memory
       (List.filter (MemoryVectorStore.passes_layer_tags h (mkFilter (Some l) None None))
                    (map_values memories)))
  = candidates h memories l t.
Proof.
  unfold candidates. rewrite !filter_map_comm, filter_filter. f_equal.
  apply filter_ext. intros sm. unfold MemoryVectorStore.passes_layer_tags; simpl.
  now rewrite andb_true_r.
Qed.

(** ** Consolidation with too few candidates (C8) *)

(** C8.  When fewer records of the chosen layer are older than [olderThan]
    than [targetSize] asks for, [consolidate] returns empty [consolidated]
    and [deleted] lists with a summary that names both counts, and the
    manager state (store, working memory, metadata) is what it was. *)
Theorem consolidate_too_few_candidates :
  forall cfg randomUUID embed toLocaleDateString now options
         (s : Manager MemoryVectorStore.t),
    let olderThan := match co_olderThan options with
                     | Some t => t
                     | None => (now - consolidation_age cfg)%Z
                     end in
    let size := match targetSize options with Some n => n | None => 50 end in
    let l := match co_layer options with Some l => l | None => SHORT_TERM end in
    let found := List.length (candidates (heap s) (vectorStore s) l olderThan) in
    found < size ->
    consolidate memoryVectorStore cfg randomUUID embed toLocaleDateString now options s
    = (Ok (mkConsolidationResult [] []
             ("Not enough old memories to consolidate. Found " ++ show_nat found
                ++ ", need at least " ++ show_nat size)),
       s).
Proof.
  intros cfg randomUUID embed tl now options s olderThan size l found Hlt.
  unfold consolidate, bind, callH. simpl vs_list.
  rewrite call_list_memory. unfold gets.
  fold olderThan size l. rewrite list_layer_old. fold found.
  apply Nat.ltb_lt in Hlt. rewrite Hlt. reflexivity.
Qed.

Lemma consolidate_too_few_candidates_witness :
  consolidate memoryVectorStore config uuid_of unit_embed iso_date 5000
              (mkConsolidationOptions (Some 2000%Z) (Some 3) None) two_tiers
  = (Ok (mkConsolidationResult [] []
           "Not enough old memories to consolidate. Found 1, need at least 3"),
     two_tiers).
Proof.
  apply (consolidate_too_few_candidates config uuid_of unit_embed iso_date 5000
           (mkConsolidationOptions (Some 2000%Z) (Some 3) None) two_tiers).
  simpl. lia.
Defined.

(** ** [recall] looks at the working layer only (C3) *)

Lemma layer_eqb_eq a b : layer_eqb a b = true <-> a = b.
Proof. destruct a, b; simpl; split; (reflexivity || discriminate). Qed.

Lemma scan_none_passes h q f entries :
  (forall sm, In sm (map_values entries) -> MemoryVectorStore.passes_search h f sm = false) ->
  MemoryVectorStore.scan h q f entries = Ok [].
Proof.
  induction entries as [| [k sm] entries IH]; simpl; intros H; [reflexivity |].
  rewrite (H sm) by (left; reflexivity). apply IH. intros sm' Hin. apply H. now right.
Qed.

(** [search] hands only the first layer of [layerFilter] to the vector
    store: when no stored record is in that layer the search is empty,
    whatever the other listed layers hold. *)
Lemma search_first_layer_only embed now query first rest n rel ts
      (s : Manager MemoryVectorStore.t) :
  (forall sm, In sm (map_values (vectorStore s)) ->
              layer (heap s (metadata (memory sm))) <> first) ->
  search memoryVectorStore embed now query
         (mkSearchOptions n (Some (first :: rest)) rel ts) s
  = (Ok [], s).
Proof.
  intros Hno. unfold search, bind, callH, call; simpl.
  unfold MemoryVectorStore.search.
  rewrite scan_none_passes.
  - simpl. unfold slice_to. rewrite firstn_nil. simpl.
    unfold ret; simpl. rewrite firstn_nil. destruct s; reflexivity.
  - intros sm Hin. unfold MemoryVectorStore.passes_search,
      MemoryVectorStore.passes_layer_tags; simpl.
    destruct (layer_eqb _ first) eqn:E; [| reflexivity].
    apply layer_eqb_eq in E. now apply Hno in Hin.
Qed.

(** C3, at the code.  [recall] lists the working layer first and [search]
    hands only the first listed layer to the vector store: when no stored
    record is in the working layer, [recall] finds nothing, whatever the
    short-term and long-term layers hold. *)
Theorem recall_searches_working_layer_only :
  forall embed now task context limit (s : Manager MemoryVectorStore.t),
    (forall sm, In sm (map_values (vectorStore s)) ->
                layer (heap s (metadata (memory sm))) <> WORKING) ->
    recall memoryVectorStore embed now task context limit s
    = (Ok ([], "No relevant memories found for task: " ++ dquote ++ task ++ dquote), s).
Proof.
  intros embed now task context limit s Hno.
  unfold recall, bind. rewrite search_first_layer_only by exact Hno.
  reflexivity.
Qed.

(** The failing input: a short-term and a long-term record are stored and
    [recall] returns neither. *)
Lemma recall_searches_working_layer_only_witness :
  recall memoryVectorStore unit_embed 2000 "plan" None 10 two_tiers
  = (Ok ([], "No relevant memories found for task: " ++ dquote ++ "plan" ++ dquote),
     two_tiers).
Proof.
  apply (recall_searches_working_layer_only unit_embed 2000 "plan" None 10 two_tiers).
  simpl. intros sm [H | [H | []]]; subst sm; simpl; discriminate.
Defined.

(** ** [forget] by age (C9) *)

Lemma deleteBatch_loop_ok ids : forall n memories,
  exists n' memories',
    MemoryVectorStore.deleteBatch_loop ids n memories = (Ok n', memories').
Proof.
  induction ids as [| k ids IH]; intros n memories; simpl.
  - unfold ret. eauto.
  - unfold bind, MemoryVectorStore.delete. apply IH.
Qed.

Lemma call_deleteBatch_ok ids (s : Manager MemoryVectorStore.t) :
  exists n vs',
    call (vs_deleteBatch memoryVectorStore ids) s
    = (Ok n, mkManager (heap s) (heapNext s) vs' (workingMemory s) (uuids s)).
Proof.
  unfold call; cbn [vs_deleteBatch memoryVectorStore].
  unfold MemoryVectorStore.deleteBatch.
  destruct (deleteBatch_loop_ok ids 0 (vectorStore s)) as (n & vs' & E).
  rewrite E. eauto.
Qed.

Lemma for_of_wm_delete_ok {VS} ids : forall s : Manager VS,
  exists w, for_of ids wm_delete s = (Ok tt, with_workingMemory w s).
Proof.
  induction ids as [| k ids IH]; intros s; simpl.
  - unfold ret. exists (workingMemory s). destruct s; reflexivity.
  - unfold bind, wm_delete at 1, modify.
    destruct (IH (with_workingMemory (map_delete k (workingMemory s)) s)) as (w & E).
    rewrite E. exists w. reflexivity.
Qed.

(** For a threshold other than 0 the deleted ids are exactly those of the
    listed records below the threshold. *)
Lemma forget_older_than_nonzero :
  forall toLocaleDateString t l why (s : Manager MemoryVectorStore.t),
    t <> 0%Z ->
    exists s',
      forget memoryVectorStore toLocaleDateString (mkForgetOptions None (Some t) l why) s
      = (Ok (mkForgetResult (map id (older_records (heap s) (vectorStore s) l t))
                            ("Older than " ++ toLocaleDateString t)),
         s').
Proof.
  intros tl t l why s Ht.
  assert (Htruthy : truthyZ (Some t) = true).
  { simpl. destruct (Z.eqb_spec t 0); [contradiction | reflexivity]. }
  unfold forget, bind, callH; cbn [memoryId fo_olderThan fo_layer fo_reason].
  unfold ret at 1. rewrite Htruthy. cbn [orb vs_list memoryVectorStore].
  rewrite call_list_memory. unfold gets at 1.
  match goal with
  | |- context [call (vs_deleteBatch memoryVectorStore ?ids) s] =>
      destruct (call_deleteBatch_ok ids s) as (n & vs' & E); rewrite E;
      destruct (for_of_wm_delete_ok ids
                  (mkManager (heap s) (heapNext s) vs' (workingMemory s) (uuids s)))
        as (w & E'); rewrite E'
  end.
  unfold ret. cbn [app join]. rewrite app_nil_l.
  replace (("Older than " ++ tl t) =? "") with false by reflexivity.
  eexists. f_equal. f_equal. f_equal.
  unfold older_records. rewrite !filter_map_comm, filter_filter. f_equal. f_equal.
  apply filter_ext. intros sm.
  unfold MemoryVectorStore.passes_layer_tags; simpl. rewrite andb_true_r.
  f_equal. rewrite Z.geb_leb, Z.ltb_antisym. now destruct (t <=? _)%Z.
Qed.

(** The scenarios of the specification: forgetting a layer, and
    forgetting what is older than a threshold. *)
Example forget_by_layer_scenario :
  forget memoryVectorStore iso_date (mkForgetOptions None None (Some WORKING) None)
         three_working
  = (Ok (mkForgetResult ["a"; "b"; "d"] "Layer: working"),
     mkManager (heap three_working) 4
               [("c", mkStored (record "c" 2) [1%R])] [("c", record "c" 2)] 4).
Proof. reflexivity. Qed.

Example forget_older_than_scenario :
  forget memoryVectorStore iso_date (mkForgetOptions None (Some 30%Z) None None)
         three_working
  = (Ok (mkForgetResult ["a"; "b"] "Older than 1/1/1970"),
     mkManager (heap three_working) 4
               [("c", mkStored (record "c" 2) [1%R]); ("d", mkStored (record "d" 3) [1%R])]
               [("c", record "c" 2); ("d", record "d" 3)] 4).
Proof. reflexivity. Qed.

(** C9, the failing input.  With [olderThan] 0 and a layer, the test
    [options.olderThan && ...] reads 0 as absent: [forget] deletes the whole
    layer, here a working record created at time 5, although no timestamp is
    below 0. *)
Theorem forget_older_than_zero_clears_layer :
  older_records (heap one_working) (vectorStore one_working) (Some WORKING) 0 = [] /\
  forget memoryVectorStore iso_date
         (mkForgetOptions None (Some 0%Z) (Some WORKING) None) one_working
  = (Ok (mkForgetResult ["a"] "Layer: working"),
     mkManager (heap one_working) 1 [] [] 1).
Proof. split; reflexivity. Qed.

(** ** A failed access-counter write fails the search (C6) *)

Lemma for_of_throw_at {S A} (body : A -> M S unit) pre x post e : forall s s2 s3,
  for_of pre body s = (Ok tt, s2) ->
  body x s2 = (Throw e, s3) ->
  for_of (pre ++ x :: post) body s = (Throw e, s3).
Proof.
  induction pre as [| y pre IH]; intros s s2 s3 Hpre Hx; simpl in *.
  - unfold ret in Hpre. inversion Hpre; subst. unfold bind. now rewrite Hx.
  - unfold bind in *. destruct (body y s) as [[[] | e'] s'] eqn:E; [| discriminate].
    eapply IH; eassumption.
Qed.

Lemma updateAccessCount_write_fails {VS} (backend : IVectorStore VS) now k m e vs' :
  forall s s1 : Manager VS,
    get backend k s = (Ok (Some m), s1) ->
    vs_update backend m (vectorStore s1) = (Throw e, vs') ->
    exists s', updateAccessCount backend now k s = (Throw e, s').
Proof.
  intros s s1 Hget Hup.
  unfold updateAccessCount, bind. rewrite Hget.
  unfold mutate, modify, wm_has, gets, wm_set, modify, ret, call; simpl.
  destruct (map_has k (workingMemory s1)); simpl; rewrite Hup; eauto.
Qed.

Lemma search_write_failure {VS} (backend : IVectorStore VS) embed now query options :
  forall (s s2 s3 : Manager VS) results vs1 pre r post m e vs',
    vs_search backend (heap s) (embed query) (search_limit options * 2)
              (search_filter options) (vectorStore s) = (Ok results, vs1) ->
    surviving options results = (pre ++ r :: post)%list ->
    for_of pre (fun x => updateAccessCount backend now (sr_id x))
           (mkManager (heap s) (heapNext s) vs1 (workingMemory s) (uuids s))
      = (Ok tt, s2) ->
    get backend (sr_id r) s2 = (Ok (Some m), s3) ->
    vs_update backend m (vectorStore s3) = (Throw e, vs') ->
    exists s', search backend embed now query options s = (Throw e, s').
Proof.
  intros s s2 s3 results vs1 pre r post m e vs' Hsearch Hsurv Hpre Hget Hup.
  destruct (updateAccessCount_write_fails backend now (sr_id r) m e vs' s2 s3 Hget)
    as (s' & Hfail); [exact Hup |].
  exists s'. unfold search, bind, callH, call.
  fold (search_limit options) (search_filter options).
  unfold search_limit, search_filter in *. rewrite Hsearch.
  unfold surviving, search_minRelevance in Hsurv. rewrite Hsurv.
  match goal with
  | |- context [for_of ?l ?b ?st] =>
      replace (for_of l b st) with (@Throw unit e, s');
      [reflexivity | symmetry; exact (for_of_throw_at _ pre r post e _ s2 s' Hpre Hfail)]
  end.
Qed.

Lemma cosine_unit : MemoryVectorStore.cosineSimilarity [1%R] [1%R] = Ok 1%R.
Proof.
  unfold MemoryVectorStore.cosineSimilarity; simpl.
  replace (0 + 1 * 1)%R with 1%R by ring. rewrite sqrt_1.
  rewrite Reqb_false by (intro; lra). simpl. f_equal. field.
Qed.

Lemma remote_one_search :
  vs_search RemoteStore.adapter (heap remote_one) (unit_embed "q")
            (search_limit no_options * 2) (search_filter no_options)
            (vectorStore remote_one)
  = (Ok [mkSearchResult "a" "a" 1 0], vectorStore remote_one).
Proof.
  simpl. unfold RemoteStore.read, MemoryVectorStore.search; simpl.
  unfold unit_embed. rewrite cosine_unit. reflexivity.
Qed.

Lemma remote_one_surviving :
  surviving no_options [mkSearchResult "a" "a" 1 0]
  = ([] ++ mkSearchResult "a" "a" 1 0 :: [])%list.
Proof.
  unfold surviving, search_minRelevance; simpl.
  rewrite Rgeb_true by lra. reflexivity.
Qed.

(** C6, as the code has it.  [search] awaits each access-counter update
    without a handler: when the vector store rejects the write for some
    surviving result (the updates for the results before it having
    succeeded), [search] fails with that error instead of returning its
    result list. *)
Theorem search_propagates_update_failure :
  forall VS (backend : IVectorStore VS) embed now query options
         (s s2 s3 : Manager VS) results vs1 pre r post m e vs',
    vs_search backend (heap s) (embed query) (search_limit options * 2)
              (search_filter options) (vectorStore s) = (Ok results, vs1) ->
    surviving options results = (pre ++ r :: post)%list ->
    for_of pre (fun x => updateAccessCount backend now (sr_id x))
           (mkManager (heap s) (heapNext s) vs1 (workingMemory s) (uuids s))
      = (Ok tt, s2) ->
    get backend (sr_id r) s2 = (Ok (Some m), s3) ->
    vs_update backend m (vectorStore s3) = (Throw e, vs') ->
    exists s', search backend embed now query options s = (Throw e, s').
Proof. intros. eapply search_write_failure; eassumption. Qed.

Lemma search_propagates_update_failure_witness :
  exists s',
    search RemoteStore.adapter unit_embed 2000 "q" no_options remote_one
    = (Throw (Error "request failed"), s').
Proof.
  apply (search_propagates_update_failure
           RemoteStore.t RemoteStore.adapter unit_embed 2000 "q" no_options
           remote_one remote_one remote_one
           [mkSearchResult "a" "a" 1 0] (vectorStore remote_one)
           [] (mkSearchResult "a" "a" 1 0) [] (record "a" 0)
           (Error "request failed")
           (RemoteStore.mk [("a", mkStored (record "a" 0) [1%R])] [])).
  - exact remote_one_search.
  - exact remote_one_surviving.
  - reflexivity.
  - reflexivity.
  - reflexivity.
Defined.

(** C6 fails on the code: the remote store finds the stored record, then
    rejects the access-counter write, and [search] returns no list. *)
Lemma search_fails_when_update_rejected :
  fst (search RemoteStore.adapter unit_embed 2000 "q" no_options remote_one)
  = Throw (Error "request failed").
Proof.
  destruct (search_write_failure RemoteStore.adapter unit_embed 2000 "q" no_options
              remote_one remote_one remote_one
              [mkSearchResult "a" "a" 1 0] (vectorStore remote_one)
              [] (mkSearchResult "a" "a" 1 0) [] (record "a" 0)
              (Error "request failed")
              (RemoteStore.mk [("a", mkStored (record "a" 0) [1%R])] [])
              remote_one_search remote_one_surviving eq_refl eq_refl eq_refl)
    as (s' & E).
  now rewrite E.
Qed.

(** ** Cosine similarity (C10) *)

Section Cosine.
Local Open Scope R_scope.














End Cosine.

Lemma sort_insert_In {A} (cmp : A -> A -> R) x y l :
  In x (sort_insert cmp y l) -> x = y \/ In x l.
Proof.
  induction l as [| z l IH]; simpl.
  - intros [<- | []]; auto.
  - destruct (Rgtb (cmp y z) 0); simpl.
    + intros [<- | H]; [auto | apply IH in H as [-> | H]; auto].
    + intros [<- | [<- | H]]; auto.
Qed.

Lemma sort_In {A} (cmp : A -> A -> R) x l : In x (sort cmp l) -> In x l.
Proof.
  induction l as [| y l IH]; simpl; [auto |].
  intros H. apply sort_insert_In in H as [-> | H]; auto.
Qed.

Lemma slice_to_In {A} n (x : A) l : In x (slice_to n l) -> In x l.
Proof.
  unfold slice_to. intros H. rewrite <- (firstn_skipn n l).
  apply in_or_app. now left.
Qed.



Lemma cosine_opposite : MemoryVectorStore.cosineSimilarity [1%R] [(-1)%R] = Ok (-1)%R.
Proof.
  unfold MemoryVectorStore.cosineSimilarity; simpl.
  replace (0 + 1 * 1)%R with 1%R by ring.
  replace (0 + -1 * -1)%R with 1%R by ring. rewrite sqrt_1.
  rewrite Reqb_false by (intro; lra). simpl. f_equal. field.
Qed.

Lemma opposite_search :
  MemoryVectorStore.search empty_heap [1%R] 10 no_filter opposite_store
  = (Ok [opposite_result], opposite_store).
Proof.
  unfold MemoryVectorStore.search; simpl. rewrite cosine_opposite. reflexivity.
Qed.



(** ** Importance decay (C4, C5) *)

(** [exp(-0.1)] to four decimals, by ten squarings of
    [1 + x <= exp x] at [x = -1/10240] and [x = 1/10240]. *)
Lemma exp_tenth_bounds : (0.90483 < exp (- (1 / 10)) < 0.90485)%R.
Proof.
  assert (E0 : (0.999902343 <= exp (- (1 / 10240)) <= 0.999902354)%R).
  { split.
    - pose proof (exp_ineq1_le (- (1 / 10240))) as H. lra.
    - pose proof (exp_ineq1_le (1 / 10240)) as H.
      pose proof (exp_pos (- (1 / 10240))) as Hp.
      assert (exp (- (1 / 10240)) * exp (1 / 10240) = 1)%R as Hinv.
      { rewrite <- exp_plus. replace (- (1 / 10240) + 1 / 10240)%R with 0%R by field.
        apply exp_0. }
      nra. }
  assert (E1 : (0.999804695 <= exp (- (1 / 5120)) <= 0.999804718)%R).
  { replace (- (1 / 5120))%R with (- (1 / 10240) + - (1 / 10240))%R by field.
    rewrite exp_plus. nra. }
  assert (E2 : (0.999609428 <= exp (- (1 / 2560)) <= 0.999609475)%R).
  { replace (- (1 / 2560))%R with (- (1 / 5120) + - (1 / 5120))%R by field.
    rewrite exp_plus. nra. }
  assert (E3 : (0.999219008 <= exp (- (1 / 1280)) <= 0.999219103)%R).
  { replace (- (1 / 1280))%R with (- (1 / 2560) + - (1 / 2560))%R by field.
    rewrite exp_plus. nra. }
  assert (E4 : (0.998438625 <= exp (- (1 / 640)) <= 0.998438816)%R).
  { replace (- (1 / 640))%R with (- (1 / 1280) + - (1 / 1280))%R by field.
    rewrite exp_plus. nra. }
  assert (E5 : (0.996879687 <= exp (- (1 / 320)) <= 0.996880070)%R).
  { replace (- (1 / 320))%R with (- (1 / 640) + - (1 / 640))%R by field.
    rewrite exp_plus. nra. }
  assert (E6 : (0.993769110 <= exp (- (1 / 160)) <= 0.993769874)%R).
  { replace (- (1 / 160))%R with (- (1 / 320) + - (1 / 320))%R by field.
    rewrite exp_plus. nra. }
  assert (E7 : (0.987577043 <= exp (- (1 / 80)) <= 0.987578563)%R).
  { replace (- (1 / 80))%R with (- (1 / 160) + - (1 / 160))%R by field.
    rewrite exp_plus. nra. }
  assert (E8 : (0.975308415 <= exp (- (1 / 40)) <= 0.975311419)%R).
  { replace (- (1 / 40))%R with (- (1 / 80) + - (1 / 80))%R by field.
    rewrite exp_plus. nra. }
  assert (E9 : (0.951226504 <= exp (- (1 / 20)) <= 0.951232365)%R).
  { replace (- (1 / 20))%R with (- (1 / 40) + - (1 / 40))%R by field.
    rewrite exp_plus. nra. }
  assert (E10 : (0.904831861 <= exp (- (1 / 10)) <= 0.904843013)%R).
  { replace (- (1 / 10))%R with (- (1 / 20) + - (1 / 20))%R by field.
    rewrite exp_plus. nra. }
  lra.
Qed.

Lemma map_get_In {V} k (v : V) m :
  NoDup (map_keys m) -> In (k, v) m -> map_get k m = Some v.
Proof.
  induction m as [| [k' v'] m IH]; simpl; intros Hnd Hin; [contradiction |].
  inversion Hnd as [| ? ? Hnotin Hnd']; subst.
  destruct Hin as [E | Hin].
  - inversion E; subst. now rewrite String.eqb_refl.
  - destruct (String.eqb_spec k k') as [-> | Hne]; [| now apply IH].
    elim Hnotin. unfold map_keys. change k' with (fst (k', v)). now apply in_map.
Qed.

Lemma projection_keys memories : map fst (projection memories) = map_keys memories.
Proof. unfold projection, map_keys. rewrite map_map. reflexivity. Qed.

Lemma projection_records memories :
  map snd (projection memories) = stored_records memories.
Proof. unfold projection, stored_records, map_values. now rewrite !map_map. Qed.

Lemma projection_map_set k sm sm' memories :
  map_get k memories = Some sm -> memory sm' = memory sm ->
  projection (map_set k sm' memories) = projection memories.
Proof.
  induction memories as [| [k' v'] memories IH]; simpl; intros Hget Hmem;
    [discriminate |].
  destruct (String.eqb_spec k k') as [-> | Hne]; simpl.
  - inversion Hget; subst. now rewrite Hmem.
  - now rewrite IH.
Qed.

Lemma wf_store_projection memories memories' :
  projection memories' = projection memories -> wf_store memories -> wf_store memories'.
Proof.
  intros Hp (Hk & Hid & Hmd). unfold wf_store.
  rewrite <- !projection_keys, <- !projection_records, Hp,
    projection_keys, projection_records.
  repeat split; auto.
  intros k sm Hin.
  assert (In (k, memory sm) (projection memories')) as Hin'.
  { unfold projection. change (k, memory sm) with ((fun e => (fst e, memory (snd e))) (k, sm)).
    now apply in_map. }
  rewrite Hp in Hin'. unfold projection in Hin'.
  apply in_map_iff in Hin' as ([k0 sm0] & E & Hin0). simpl in E.
  injection E as Ek Em. subst k0. rewrite <- Em. now apply Hid.
Qed.

Lemma stored_record_lookup memories m :
  wf_store memories -> In m (stored_records memories) ->
  exists sm, map_get (id m) memories = Some sm /\ memory sm = m.
Proof.
  intros (Hk & Hid & _) Hin. unfold stored_records, map_values in Hin.
  rewrite map_map in Hin. apply in_map_iff in Hin as ([k sm] & E & Hin).
  simpl in E. subst m. exists sm. split; [| reflexivity].
  rewrite <- (Hid k sm Hin). now apply map_get_In.
Qed.

Lemma list_all h memories :
  List.filter (MemoryVectorStore.passes_layer_tags h no_filter) (map_values memories)
  = map_values memories.
Proof.
  induction (map_values memories) as [| sm l IH]; simpl; [reflexivity |].
  now rewrite IH.
Qed.

Lemma decay_heap_ext cfg now ms : forall h1 h2,
  (forall a, h1 a = h2 a) ->
  forall a, decay_heap cfg now ms h1 a = decay_heap cfg now ms h2 a.
Proof.
  induction ms as [| m ms IH]; intros h1 h2 Heq a; simpl; [apply Heq |].
  apply IH. intros a'. unfold heap_set. rewrite Heq.
  destruct (Nat.eqb a' (metadata m)); [reflexivity | apply Heq].
Qed.

Lemma decay_heap_elsewhere cfg now ms : forall h a,
  ~ In a (map metadata ms) -> decay_heap cfg now ms h a = h a.
Proof.
  induction ms as [| m ms IH]; intros h a Hnot; simpl in *; [reflexivity |].
  rewrite IH by tauto. apply heap_set_other. intros E. apply Hnot. now left.
Qed.

Lemma decay_heap_at cfg now ms : forall h m,
  NoDup (map metadata ms) -> In m ms ->
  decay_heap cfg now ms h (metadata m) = decay_once cfg now (h (metadata m)).
Proof.
  induction ms as [| x ms IH]; intros h m Hnd Hin; simpl in *; [contradiction |].
  inversion Hnd as [| ? ? Hnotin Hnd']; subst.
  destruct Hin as [-> | Hin].
  - rewrite decay_heap_elsewhere by exact Hnotin. apply heap_set_same.
  - rewrite IH by assumption. f_equal. apply heap_set_other.
    intros E. apply Hnotin. rewrite <- E. now apply in_map.
Qed.

Lemma decay_step_run cfg now m (s : Manager MemoryVectorStore.t) :
  wf_store (vectorStore s) -> In m (stored_records (vectorStore s)) ->
  exists s',
    decay_step memoryVectorStore cfg now m s = (Ok tt, s') /\
    (forall a, heap s' a
               = heap_set (heap s) (metadata m)
                          (decay_once cfg now (heap s (metadata m))) a) /\
    projection (vectorStore s') = projection (vectorStore s).
Proof.
  intros Hwf Hin.
  destruct (stored_record_lookup _ _ Hwf Hin) as (sm & Hget & Hmem).
  unfold decay_step, bind, gets, decay_once, ageDays.
  destruct (Rgeb (IZR (now - timestamp (heap s (metadata m))) / DAY) 1).
  - unfold mutate, modify, call, wm_has, gets, wm_set, modify, ret; simpl.
    unfold MemoryVectorStore.update. rewrite Hget. simpl.
    destruct (map_has (id m) (workingMemory s)); simpl;
      (eexists; split; [reflexivity |]; split; [reflexivity |]; simpl;
       eapply projection_map_set; [exact Hget | simpl; congruence]).
  - unfold ret. exists s. split; [reflexivity |]. split; [| reflexivity].
    intros a. unfold heap_set. destruct (Nat.eqb_spec a (metadata m)); congruence.
Qed.

Lemma decay_loop cfg now ms : forall s : Manager MemoryVectorStore.t,
  wf_store (vectorStore s) ->
  (forall m, In m ms -> In m (stored_records (vectorStore s))) ->
  exists s',
    for_of ms (decay_step memoryVectorStore cfg now) s = (Ok tt, s') /\
    (forall a, heap s' a = decay_heap cfg now ms (heap s) a) /\
    projection (vectorStore s') = projection (vectorStore s).
Proof.
  induction ms as [| m ms IH]; intros s Hwf Hin; simpl.
  - exists s. unfold ret. auto.
  - destruct (decay_step_run cfg now m s Hwf) as (s1 & E1 & Hh1 & Hp1);
      [apply Hin; now left |].
    destruct (IH s1) as (s' & E' & Hh' & Hp').
    + eapply wf_store_projection; eassumption.
    + intros m' Hm'. rewrite <- projection_records, Hp1, projection_records.
      apply Hin. now right.
    + exists s'. unfold bind. rewrite E1. split; [exact E' |]. split.
      * intros a. rewrite Hh'. apply decay_heap_ext. exact Hh1.
      * congruence.
Qed.

(** What a run of [applyImportanceDecay] over a well-formed in-process
    store does. *)
Lemma applyImportanceDecay_run cfg now (s : Manager MemoryVectorStore.t) :
  wf_store (vectorStore s) ->
  exists s',
    applyImportanceDecay memoryVectorStore cfg now s = (Ok tt, s') /\
    stored_records (vectorStore s') = stored_records (vectorStore s) /\
    wf_store (vectorStore s') /\
    forall m, In m (stored_records (vectorStore s)) ->
              heap s' (metadata m) = decay_once cfg now (heap s (metadata m)).
Proof.
  intros Hwf.
  unfold applyImportanceDecay, bind, callH. cbn [vs_list memoryVectorStore].
  rewrite call_list_memory, list_all. fold (stored_records (vectorStore s)).
  destruct (decay_loop cfg now (stored_records (vectorStore s)) s Hwf)
    as (s' & E & Hh & Hp); [auto |].
  exists s'. split; [exact E |]. split.
  - now rewrite <- !projection_records, Hp.
  - split; [eapply wf_store_projection; eassumption |].
    intros m Hm. rewrite Hh. apply decay_heap_at; [| exact Hm].
    apply Hwf.
Qed.

Lemma decay_once_old cfg now md :
  (1 <= ageDays now md)%R ->
  importance (decay_once cfg now md)
  = Rmax 0.1 (importance md * exp (- decay_rate cfg * ageDays now md / 30)) /\
  timestamp (decay_once cfg now md) = timestamp md.
Proof.
  intros Hage. unfold decay_once. rewrite Rgeb_true by lra. simpl.
  split; [| reflexivity].
  assert (E : (- decay_rate cfg * (ageDays now md / 30)
               = - decay_rate cfg * ageDays now md / 30)%R).
  { field. }
  now rewrite E.
Qed.

Lemma decay_once_young cfg now md :
  (ageDays now md < 1)%R -> decay_once cfg now md = md.
Proof. intros Hage. unfold decay_once. now rewrite Rgeb_false. Qed.

Lemma decay_once_timestamp cfg now md :
  timestamp (decay_once cfg now md) = timestamp md.
Proof. unfold decay_once. destruct (Rgeb _ _); reflexivity. Qed.

Lemma ageDays_thirty now md :
  (now - timestamp md = THIRTY_DAYS)%Z -> ageDays now md = 30%R.
Proof.
  intros E. unfold ageDays, DAY. rewrite E. unfold THIRTY_DAYS. lra.
Qed.

Lemma thirty_day_decay :
  Rmax 0.1 (1 * exp (- (0.1) * 30 / 30)) = exp (- 0.1) /\
  (0.90483 * 0.90483 < Rmax 0.1 (exp (- 0.1) * exp (- (0.1) * 30 / 30))
   < 0.90485 * 0.90485)%R.
Proof.
  pose proof exp_tenth_bounds as Hb.
  replace (- (0.1) * 30 / 30)%R with (- (1 / 10))%R by lra.
  replace (- 0.1)%R with (- (1 / 10))%R by lra.
  split; rewrite Rmax_right by nra; nra.
Qed.

Lemma wf_store_month_old : wf_store (vectorStore month_old).
Proof.
  unfold wf_store; simpl. repeat split.
  - repeat constructor. simpl. tauto.
  - intros k sm [E | []]. now inversion E.
  - repeat constructor. simpl. tauto.
Qed.



(** C5, as the code has it.  A second run of [applyImportanceDecay] at the
    same clock value multiplies by the same factor once more: a stored
    record aged at least one day goes from its importance [i1] after the
    first run to [max(0.1, i1 * exp(-decayRate * age_days / 30))], which is
    never above [i1] and is [i1] again when [i1] is already the floor 0.1; a
    record younger than one day is left alone by both runs. *)
Theorem applyImportanceDecay_twice_compounds :
  forall cfg now (s : Manager MemoryVectorStore.t),
    wf_store (vectorStore s) ->
    (0 <= decay_rate cfg)%R ->
    exists s1 s2,
      applyImportanceDecay memoryVectorStore cfg now s = (Ok tt, s1) /\
      applyImportanceDecay memoryVectorStore cfg now s1 = (Ok tt, s2) /\
      forall m, In m (stored_records (vectorStore s)) ->
        let age := ageDays now (heap s (metadata m)) in
        let i0 := importance (heap s (metadata m)) in
        let i1 := importance (heap s1 (metadata m)) in
        let i2 := importance (heap s2 (metadata m)) in
        ((age < 1)%R -> i1 = i0 /\ i2 = i0) /\
        ((1 <= age)%R ->
         i2 = Rmax 0.1 (i1 * exp (- decay_rate cfg * age / 30)) /\
         (i2 <= i1)%R /\
         (i1 = 0.1%R -> i2 = i1)).
Proof.
  intros cfg now s Hwf Hrate.
  destruct (applyImportanceDecay_run cfg now s Hwf) as (s1 & E1 & Hrec1 & Hwf1 & Hh1).
  destruct (applyImportanceDecay_run cfg now s1 Hwf1) as (s2 & E2 & _ & _ & Hh2).
  exists s1, s2. split; [exact E1 |]. split; [exact E2 |].
  intros m Hm age i0 i1 i2.
  assert (Hage1 : ageDays now (heap s1 (metadata m)) = age).
  { unfold ageDays. rewrite (Hh1 m Hm), decay_once_timestamp. reflexivity. }
  subst i1 i2. rewrite (Hh2 m) by (rewrite Hrec1; exact Hm). split.
  - intros Hyoung. rewrite decay_once_young by (rewrite Hage1; exact Hyoung).
    rewrite (Hh1 m Hm), decay_once_young by exact Hyoung. auto.
  - intros Hold.
    destruct (decay_once_old cfg now (heap s1 (metadata m))) as [-> _];
      [rewrite Hage1; exact Hold |].
    rewrite Hage1.
    set (i1 := importance (heap s1 (metadata m))).
    set (f := exp (- decay_rate cfg * age / 30)).
    assert (Hi1 : (0.1 <= i1)%R).
    { subst i1. rewrite (Hh1 m Hm).
      destruct (decay_once_old cfg now (heap s (metadata m)) Hold) as [-> _].
      apply Rmax_l. }
    assert (Hf : (0 < f <= 1)%R).
    { split; [apply exp_pos |]. subst f. rewrite <- exp_0.
      destruct (Req_dec (- decay_rate cfg * age / 30) 0) as [-> | Hne];
        [lra |].
      left. apply exp_increasing. nra. }
    split; [reflexivity |].
    unfold Rmax. destruct (Rle_dec 0.1 (i1 * f)); split; nra.
Qed.

Lemma applyImportanceDecay_twice_compounds_witness :
  exists s1 s2,
    applyImportanceDecay memoryVectorStore config THIRTY_DAYS month_old = (Ok tt, s1) /\
    applyImportanceDecay memoryVectorStore config THIRTY_DAYS s1 = (Ok tt, s2) /\
    forall m, In m (stored_records (vectorStore month_old)) ->
      let age := ageDays THIRTY_DAYS (heap month_old (metadata m)) in
      let i0 := importance (heap month_old (metadata m)) in
      let i1 := importance (heap s1 (metadata m)) in
      let i2 := importance (heap s2 (metadata m)) in
      ((age < 1)%R -> i1 = i0 /\ i2 = i0) /\
      ((1 <= age)%R ->
       i2 = Rmax 0.1 (i1 * exp (- decay_rate config * age / 30)) /\
       (i2 <= i1)%R /\
       (i1 = 0.1%R -> i2 = i1)).
Proof.
  apply (applyImportanceDecay_twice_compounds config THIRTY_DAYS month_old).
  - exact wf_store_month_old.
  - simpl. lra.
Defined.

(** C5 fails on the code: a record of importance 1 created thirty days
    earlier has importance [exp(-0.1)] after the first run and
    [exp(-0.1) * exp(-0.1)] after the second, more than 0.08 apart. *)
Lemma second_decay_changes_importance :
  (Rabs (importance (heap after_second_decay 0%nat)
         - importance (heap after_first_decay 0%nat)) > 1 / 1000000000000)%R.
Proof.
  unfold after_second_decay, after_first_decay.
  destruct (applyImportanceDecay_run config THIRTY_DAYS month_old wf_store_month_old)
    as (s1 & E1 & Hrec1 & Hwf1 & Hh1).
  destruct (applyImportanceDecay_run config THIRTY_DAYS s1 Hwf1)
    as (s2 & E2 & _ & _ & Hh2).
  rewrite E1. cbn [snd]. rewrite E2. cbn [snd].
  assert (Hm : In (record "a" 0) (stored_records (vectorStore month_old)))
    by (simpl; auto).
  specialize (Hh1 _ Hm). specialize (Hh2 (record "a" 0)).
  rewrite Hrec1 in Hh2. specialize (Hh2 Hm). cbn [metadata record] in Hh1, Hh2.
  assert (Hage : ageDays THIRTY_DAYS (heap month_old 0) = 30%R)
    by (apply ageDays_thirty; reflexivity).
  assert (H1 : importance (heap s1 0) = exp (- 0.1)).
  { rewrite Hh1. destruct (decay_once_old config THIRTY_DAYS (heap month_old 0)) as [-> _];
      [lra |].
    rewrite Hage. simpl. replace (1 / 10)%R with 0.1%R by lra.
    apply thirty_day_decay. }
  assert (Hage1 : ageDays THIRTY_DAYS (heap s1 0) = 30%R).
  { unfold ageDays. rewrite Hh1, decay_once_timestamp. exact Hage. }
  assert (H2 : (importance (heap s2 0%nat) < 0.90485 * 0.90485)%R).
  { rewrite Hh2. destruct (decay_once_old config THIRTY_DAYS (heap s1 0)) as [-> _];
      [lra |].
    rewrite Hage1, H1. simpl. replace (1 / 10)%R with 0.1%R by lra.
    apply thirty_day_decay. }
  rewrite H1. pose proof exp_tenth_bounds as Hb.
  replace (- 0.1)%R with (- (1 / 10))%R by lra.
  rewrite Rabs_left by lra. lra.
Qed.

(** ** The importance invariant (C1) *)

Section Keeps.
Context {VS : Type}.
Variable I : Heap -> Prop.

Lemma keeps_ret {A} (a : A) (Q : A -> Prop) : Q a -> keeps (VS := VS) I (ret a) Q.
Proof.
  intros HQ s HI. unfold ret; simpl. split; [exact HI |].
  intros a' E. injection E as <-. exact HQ.
Qed.

Lemma keeps_weaken {A} (m : M (Manager VS) A) (Q Q' : A -> Prop) :
  keeps I m Q -> (forall a, Q a -> Q' a) -> keeps I m Q'.
Proof. intros H HQ s HI. destruct (H s HI) as [H1 H2]. split; auto. Qed.

Lemma keeps_bind {A B} (m : M (Manager VS) A) (k : A -> M (Manager VS) B) Q R :
  keeps I m Q -> (forall a, Q a -> keeps I (k a) R) -> keeps I (bind m k) R.
Proof.
  intros Hm Hk s HI. destruct (Hm s HI) as [H1 H2]. unfold bind.
  destruct (m s) as [[a | e] s1]; simpl in *.
  - apply (Hk a (H2 a eq_refl) s1 H1).
  - split; [exact H1 | discriminate].
Qed.

Lemma keeps_gets_heap : keeps (VS := VS) I (gets heap) I.
Proof.
  intros s HI. unfold gets; simpl. split; [exact HI |].
  intros a E. injection E as <-. exact HI.
Qed.

Lemma keeps_gets {A} (f : Manager VS -> A) : keeps I (gets f) anything.
Proof. intros s HI. simpl. split; [exact HI |]. intros; exact Logic.I. Qed.

Lemma keeps_call {A} (op : M VS A) : keeps I (call op) anything.
Proof.
  intros s HI. unfold call. destruct (op (vectorStore s)) as [r vs']; simpl.
  split; [exact HI |]. intros; exact Logic.I.
Qed.

Lemma keeps_callH {A} (op : Heap -> M VS A) : keeps I (callH op) anything.
Proof. intros s HI. unfold callH. now apply keeps_call. Qed.

Lemma keeps_generateId (randomUUID : nat -> string) :
  keeps (VS := VS) I (generateId randomUUID) anything.
Proof. intros s HI. simpl. split; [exact HI |]. intros; exact Logic.I. Qed.

Lemma keeps_wm_set k m : keeps (VS := VS) I (wm_set k m) anything.
Proof. intros s HI. simpl. split; [exact HI |]. intros; exact Logic.I. Qed.

Lemma keeps_wm_delete k : keeps (VS := VS) I (wm_delete k) anything.
Proof. intros s HI. simpl. split; [exact HI |]. intros; exact Logic.I. Qed.

Lemma keeps_wm_has k : keeps (VS := VS) I (wm_has k) anything.
Proof. apply keeps_gets. Qed.

Lemma keeps_mutate a (f : MemoryMetadata -> MemoryMetadata) :
  (forall h, I h -> I (heap_set h a (f (h a)))) ->
  keeps (VS := VS) I (mutate a f) anything.
Proof. intros Hf s HI. simpl. split; [now apply Hf |]. intros; exact Logic.I. Qed.

Lemma keeps_alloc md :
  (forall h a, I h -> I (heap_set h a md)) ->
  keeps (VS := VS) I (alloc md) anything.
Proof. intros Hf s HI. simpl. split; [now apply Hf |]. intros; exact Logic.I. Qed.

Lemma keeps_for_of {A} (body : A -> M (Manager VS) unit) xs :
  (forall x, keeps I (body x) anything) -> keeps I (for_of xs body) anything.
Proof.
  intros Hbody. induction xs as [| x xs IH]; simpl.
  - now apply keeps_ret.
  - eapply keeps_bind; [apply Hbody | intros; exact IH].
Qed.

Lemma keeps_update_cache (backend : IVectorStore VS) m :
  keeps I (bind (call (vs_update backend m))
                (fun _ => bind (wm_has (id m))
                               (fun present => if present : bool
                                               then wm_set (id m) m else ret tt)))
        anything.
Proof.
  eapply keeps_bind; [apply keeps_call | intros _ _].
  eapply keeps_bind; [apply keeps_wm_has | intros [] _];
    [apply keeps_wm_set | now apply keeps_ret].
Qed.

End Keeps.

Lemma importance_ok_set h a md :
  importance_ok h -> (0 <= importance md <= 1)%R -> importance_ok (heap_set h a md).
Proof.
  intros Hok Hmd a'. unfold heap_set. destruct (Nat.eqb a' a); [exact Hmd | apply Hok].
Qed.

Lemma floored_since_refl h : importance_ok h -> floored_since h h.
Proof. intros Hok. split; [exact Hok | intros a; now left]. Qed.

Lemma floored_set_importance h0 h a x :
  floored_since h0 h -> (0.1 <= x <= 1)%R ->
  floored_since h0 (heap_set h a (set_importance x (h a))).
Proof.
  intros [Hok Hfl] Hx. split.
  - apply importance_ok_set; [exact Hok | simpl; lra].
  - intros a'. unfold heap_set. destruct (Nat.eqb a' a); [right; simpl; lra | apply Hfl].
Qed.

Lemma floored_set_layer h0 h a l :
  floored_since h0 h -> floored_since h0 (heap_set h a (set_layer l (h a))).
Proof.
  intros [Hok Hfl]. split.
  - apply importance_ok_set; [exact Hok | simpl; apply Hok].
  - intros a'. unfold heap_set.
    destruct (Nat.eqb_spec a' a) as [-> | Hne]; [simpl |]; apply Hfl.
Qed.

Lemma Rgeb_ge x y : Rgeb x y = true -> (y <= x)%R.
Proof. unfold Rgeb. destruct (Rge_dec x y); [lra | discriminate]. Qed.

Lemma decay_factor_range rate age :
  (0 <= rate)%R -> (1 <= age)%R -> (0 < exp (- rate * (age / 30)) <= 1)%R.
Proof.
  intros Hrate Hage. split; [apply exp_pos |].
  destruct (Req_dec (- rate * (age / 30)) 0) as [-> | Hne]; [rewrite exp_0; lra |].
  left. rewrite <- exp_0. apply exp_increasing. nra.
Qed.

Lemma floor_max_range x f :
  (0 <= x <= 1)%R -> (0 < f <= 1)%R -> (0.1 <= Rmax 0.1 (x * f) <= 1)%R.
Proof.
  intros Hx Hf. split; [apply Rmax_l |]. apply Rmax_lub; [lra | nra].
Qed.

Section Invariant.
Context {VS : Type}.
Variable backend : IVectorStore VS.
Variable cfg : Config.
Variable randomUUID : nat -> string.
Variable embed : string -> list R.
Variable toLocaleDateString : Z -> string.

Lemma keeps_store now content options :
  (0 <= effective_importance options <= 1)%R ->
  keeps importance_ok (store backend randomUUID embed now content options) anything.
Proof.
  intros Himp. unfold store.
  eapply keeps_bind; [apply keeps_generateId | intros k _].
  eapply keeps_bind.
  { apply keeps_alloc. intros h a Hok. apply importance_ok_set; [exact Hok |].
    exact Himp. }
  intros md _.
  eapply keeps_bind; [apply keeps_wm_set | intros _ _].
  eapply keeps_bind; [apply keeps_call | intros _ _].
  now apply keeps_ret.
Qed.

Lemma sum_importance_range h ms :
  importance_ok h ->
  (0 <= sum_importance h ms <= INR (List.length ms))%R.
Proof.
  intros Hok. unfold sum_importance.
  assert (G : forall acc n, (0 <= acc <= INR n)%R ->
            (0 <= fold_left (fun sum m => (sum + importance (h (metadata m)))%R) ms acc
             <= INR (n + List.length ms))%R).
  { induction ms as [| m ms IH]; intros acc n Hacc; simpl.
    - now rewrite Nat.add_0_r.
    - replace (n + S (List.length ms)) with (S n + List.length ms) by lia.
      apply IH. rewrite S_INR. specialize (Hok (metadata m)). lra. }
  apply (G 0%R 0). simpl. lra.
Qed.

Lemma keeps_consolidate_group now acc group :
  keeps importance_ok
        (consolidate_group backend randomUUID embed toLocaleDateString now acc group)
        anything.
Proof.
  destruct group as [tag memories]. unfold consolidate_group.
  destruct (List.length memories <? 3)%nat eqn:Hlen; [now apply keeps_ret |].
  apply Nat.ltb_ge in Hlen.
  eapply keeps_bind; [apply keeps_gets_heap | intros h Hok].
  eapply keeps_bind.
  { apply keeps_store. unfold effective_importance; simpl.
    pose proof (sum_importance_range h memories Hok) as Hsum.
    assert (Hn : (3 <= INR (List.length memories))%R).
    { replace 3%R with (INR 3) by (simpl; lra). now apply le_INR. }
    assert (Hdiv : (0 <= sum_importance h memories / INR (List.length memories) <= 1)%R).
    { split.
      - apply Rmult_le_pos; [lra |]. left. apply Rinv_0_lt_compat. lra.
      - apply Rmult_le_reg_r with (INR (List.length memories)); [lra |].
        unfold Rdiv. rewrite Rmult_assoc, Rinv_l by lra. lra. }
    lra. }
  intros m _.
  eapply keeps_bind; [apply keeps_call | intros _ _].
  eapply keeps_bind; [apply keeps_for_of; intros; apply keeps_wm_delete | intros _ _].
  now apply keeps_ret.
Qed.

Lemma keeps_consolidate_groups now groups : forall acc,
  keeps importance_ok
        (consolidate_groups backend randomUUID embed toLocaleDateString now groups acc)
        anything.
Proof.
  induction groups as [| g groups IH]; intros acc; simpl.
  - now apply keeps_ret.
  - eapply keeps_bind; [apply keeps_consolidate_group | intros acc' _; apply IH].
Qed.

Lemma keeps_consolidate now options :
  keeps importance_ok
        (consolidate backend cfg randomUUID embed toLocaleDateString now options)
        anything.
Proof.
  unfold consolidate.
  eapply keeps_bind; [apply keeps_callH | intros allMemories _].
  eapply keeps_bind; [apply keeps_gets_heap | intros h Hok].
  match goal with |- keeps _ (if ?c then _ else _) _ => destruct c end.
  - now apply keeps_ret.
  - eapply keeps_bind; [apply keeps_consolidate_groups | intros acc _].
    now apply keeps_ret.
Qed.

Lemma keeps_decay_step h0 now m :
  (0 <= decay_rate cfg)%R ->
  keeps (floored_since h0) (decay_step backend cfg now m) anything.
Proof.
  intros Hrate. unfold decay_step.
  eapply keeps_bind; [apply keeps_gets_heap | intros h Hh].
  destruct (Rgeb _ 1) eqn:Hage; [| now apply keeps_ret].
  apply Rgeb_ge in Hage.
  eapply keeps_bind; [| intros _ _; apply keeps_update_cache].
  apply keeps_mutate. intros h' Hh'.
  apply floored_set_importance; [exact Hh' |].
  apply floor_max_range; [apply Hh' | now apply decay_factor_range].
Qed.

Lemma keeps_rebalance_step h0 now m :
  keeps (floored_since h0) (rebalance_step backend cfg now m) anything.
Proof.
  unfold rebalance_step.
  eapply keeps_bind; [apply keeps_gets_heap | intros h Hh].
  eapply keeps_bind with (Q := anything).
  - destruct (_ && _).
    + destruct (layer (h (metadata m))); try now apply keeps_ret.
      eapply keeps_bind; [| intros _ _; now apply keeps_ret].
      apply keeps_mutate. intros h' Hh'.
      apply floored_set_importance; [exact Hh' |].
      pose proof (proj1 Hh' (metadata m)) as Hrange.
      split; [apply Rmax_l | apply Rmax_lub; lra].
    + destruct (Rgtb _ _); [| now apply keeps_ret].
      destruct (layer (h (metadata m))); now apply keeps_ret.
  - intros [l |] _; [| now apply keeps_ret].
    destruct (negb _); [| now apply keeps_ret].
    eapply keeps_bind; [| intros _ _; apply keeps_update_cache].
    apply keeps_mutate. intros h' Hh'. now apply floored_set_layer.
Qed.

Lemma keeps_applyImportanceDecay h0 now :
  (0 <= decay_rate cfg)%R ->
  keeps (floored_since h0) (applyImportanceDecay backend cfg now) anything.
Proof.
  intros Hrate. unfold applyImportanceDecay.
  eapply keeps_bind; [apply keeps_callH | intros ms _].
  apply keeps_for_of. intros m. now apply keeps_decay_step.
Qed.

Lemma keeps_rebalanceLayers h0 now :
  keeps (floored_since h0) (rebalanceLayers backend cfg now) anything.
Proof.
  unfold rebalanceLayers.
  eapply keeps_bind; [apply keeps_callH | intros ms _].
  apply keeps_for_of. intros m. apply keeps_rebalance_step.
Qed.

End Invariant.

Lemma validateImportance_range x :
  validateImportance x = Ok x <-> (0 <= x <= 1)%R.
Proof.
  unfold validateImportance, Rltb', Rgtb.
  destruct (Rlt_dec x 0), (Rgt_dec x 1); simpl; split; intros H;
    try discriminate; try lra; reflexivity.
Qed.

Lemma validated_range options :
  validated options -> (0 <= effective_importance options <= 1)%R.
Proof.
  unfold validated, effective_importance.
  destruct (so_importance options) as [x |]; [apply validateImportance_range | lra].
Qed.

(** C1, as the code has it.  If every importance is in [0, 1] and the decay
    rate is not negative, then after [store] with a validated importance,
    after [consolidate], after [applyImportanceDecay] and after
    [rebalanceLayers] (whether they return or fail) every importance is in
    [0, 1]; the two maintenance operations moreover leave each importance
    either unchanged or at 0.1 or above.  [store] and [consolidate] write
    the importance they are given or compute, without a floor. *)
Theorem importance_range_after_mutation :
  forall VS (backend : IVectorStore VS) cfg randomUUID embed toLocaleDateString
         now (s : Manager VS),
    importance_ok (heap s) ->
    (0 <= decay_rate cfg)%R ->
    (forall content options,
        validated options ->
        importance_ok (heap (snd (store backend randomUUID embed now content options s)))) /\
    (forall options,
        importance_ok
          (heap (snd (consolidate backend cfg randomUUID embed toLocaleDateString
                                  now options s)))) /\
    floored_since (heap s) (heap (snd (applyImportanceDecay backend cfg now s))) /\
    floored_since (heap s) (heap (snd (rebalanceLayers backend cfg now s))).
Proof.
  intros VS backend cfg randomUUID embed tl now s Hok Hrate.
  split; [| split; [| split]].
  - intros content options Hval.
    apply (keeps_store backend randomUUID embed now content options
             (validated_range options Hval) s Hok).
  - intros options.
    apply (keeps_consolidate backend cfg randomUUID embed tl now options s Hok).
  - apply (keeps_applyImportanceDecay backend cfg (heap s) now Hrate s
             (floored_since_refl _ Hok)).
  - apply (keeps_rebalanceLayers backend cfg (heap s) now s (floored_since_refl _ Hok)).
Qed.

Lemma importance_ok_month_old : importance_ok (heap month_old).
Proof. intros [| [| a]]; simpl; lra. Qed.

Lemma importance_range_after_mutation_witness :
  (forall content options,
      validated options ->
      importance_ok
        (heap (snd (store memoryVectorStore uuid_of unit_embed THIRTY_DAYS
                          content options month_old)))) /\
  (forall options,
      importance_ok
        (heap (snd (consolidate memoryVectorStore config uuid_of unit_embed iso_date
                                THIRTY_DAYS options month_old)))) /\
  floored_since (heap month_old)
    (heap (snd (applyImportanceDecay memoryVectorStore config THIRTY_DAYS month_old))) /\
  floored_since (heap month_old)
    (heap (snd (rebalanceLayers memoryVectorStore config THIRTY_DAYS month_old))).
Proof.
  apply (importance_range_after_mutation
           MemoryVectorStore.t memoryVectorStore config uuid_of unit_embed iso_date
           THIRTY_DAYS month_old).
  - exact importance_ok_month_old.
  - simpl. lra.
Defined.

(** C1 fails on the code: the boundary validation accepts importance 0,
    [store] keeps it as given, and the stored record's importance is below
    0.1. *)
Lemma store_keeps_importance_below_floor :
  validateImportance 0 = Ok 0%R /\
  exists m,
    fst zero_importance_run = Ok m /\
    map_get (id m) (vectorStore (snd zero_importance_run))
      = Some (mkStored m [1%R]) /\
    ~ (0.1 <= importance (heap (snd zero_importance_run) (metadata m)) <= 1)%R.
Proof.
  split; [apply validateImportance_range; lra |].
  unfold zero_importance_run. rewrite store_unfold. simpl.
  eexists. split; [reflexivity |]. split; [reflexivity |].
  simpl. unfold effective_importance; simpl. lra.
Qed.

(** ** Access counting *)

Lemma search_single now (s : Manager MemoryVectorStore.t) :
  vectorStore s = [("a", mkStored (record "a" 0) [1%R])] ->
  workingMemory s = [("a", record "a" 0)] ->
  search memoryVectorStore unit_embed now "Hello" no_options s
  = (Ok [mkSearchResult "a" "a" 1 0],
     mkManager (heap_set (heap s) 0 (touch now (heap s 0))) (heapNext s)
               (vectorStore s) (workingMemory s) (uuids s)).
Proof.
  intros Hvs Hwm. destruct s as [hp nx vs wm u]; simpl in *; subst vs wm.
  unfold search, bind, callH, call; simpl.
  unfold MemoryVectorStore.search; simpl. unfold unit_embed. rewrite cosine_unit.
  simpl. rewrite Rgeb_true by lra. reflexivity.
Qed.

(** The access-counting scenario: after two searches that return the
    record, its counter is 2 and its last access is the second search. *)
Example access_count_scenario :
  accessCount (heap after_two_searches 0) = 2 /\
  lastAccessed (heap after_two_searches 0) = 3000%Z.
Proof.
  unfold after_two_searches, after_one_search.
  rewrite (search_single 2000 one_record) by reflexivity.
  cbn [snd]. rewrite (search_single 3000) by reflexivity.
  split; reflexivity.
Qed.

(** * Further properties of the code *)

(** ** Insertion-ordered maps *)

Section JsMapFacts.
Context {V : Type}.
Implicit Types (m : JsMap V) (k : string) (v : V).

Lemma map_get_set_other k k' v m :
  k <> k' -> map_get k (map_set k' v m) = map_get k m.
Proof.
  intros Hne. induction m as [| [k0 v0] m IH]; simpl.
  - destruct (String.eqb_spec k k'); [contradiction | reflexivity].
  - destruct (String.eqb_spec k' k0) as [-> | Hk0]; simpl.
    + destruct (String.eqb_spec k k0); [contradiction | reflexivity].
    + destruct (String.eqb_spec k k0); [reflexivity | exact IH].
Qed.

Lemma map_get_none_keys k m : map_get k m = None <-> ~ In k (map_keys m).
Proof.
  induction m as [| [k0 v0] m IH]; simpl; [tauto |].
  destruct (String.eqb_spec k k0) as [-> | Hne].
  - split; [discriminate | intros H; elim H; now left].
  - rewrite IH. split; intros H; [intros [E | Hin]; [congruence | tauto] | tauto].
Qed.

Lemma map_keys_delete_subset k k' m :
  In k (map_keys (map_delete k' m)) -> In k (map_keys m).
Proof.
  induction m as [| [k0 v0] m IH]; simpl; [tauto |].
  destruct (String.eqb_spec k' k0) as [-> | Hne]; simpl; [tauto |].
  intros [E | Hin]; [left; exact E | right; now apply IH].
Qed.

Lemma map_delete_NoDup k m : NoDup (map_keys m) -> NoDup (map_keys (map_delete k m)).
Proof.
  induction m as [| [k0 v0] m IH]; simpl; intros Hnd; [constructor |].
  inversion Hnd as [| ? ? Hnotin Hnd']; subst.
  destruct (String.eqb_spec k k0) as [-> | Hne]; [exact Hnd' |].
  simpl. constructor; [| now apply IH].
  intros Hin. apply Hnotin. eapply map_keys_delete_subset; exact Hin.
Qed.

Lemma map_get_delete_same k m :
  NoDup (map_keys m) -> map_get k (map_delete k m) = None.
Proof.
  induction m as [| [k0 v0] m IH]; simpl; intros Hnd; [reflexivity |].
  inversion Hnd as [| ? ? Hnotin Hnd']; subst.
  destruct (String.eqb_spec k k0) as [-> | Hne].
  - now apply map_get_none_keys.
  - simpl. destruct (String.eqb_spec k k0); [contradiction | now apply IH].
Qed.

Lemma map_get_delete_other k k' m :
  k <> k' -> map_get k (map_delete k' m) = map_get k m.
Proof.
  intros Hne. induction m as [| [k0 v0] m IH]; simpl; [reflexivity |].
  destruct (String.eqb_spec k' k0) as [-> | Hk0]; simpl.
  - destruct (String.eqb_spec k k0); [contradiction | reflexivity].
  - destruct (String.eqb_spec k k0); [reflexivity | exact IH].
Qed.

Lemma map_keys_set k v m :
  map_keys (map_set k v m)
  = if map_has k m then map_keys m else (map_keys m ++ [k])%list.
Proof.
  unfold map_has. induction m as [| [k0 v0] m IH]; simpl; [reflexivity |].
  destruct (String.eqb_spec k k0) as [-> | Hne]; simpl; [reflexivity |].
  rewrite IH. now destruct (map_get k m).
Qed.

Lemma map_set_NoDup k v m : NoDup (map_keys m) -> NoDup (map_keys (map_set k v m)).
Proof.
  intros Hnd. rewrite map_keys_set. unfold map_has.
  destruct (map_get k m) eqn:E; [exact Hnd |].
  apply map_get_none_keys in E.
  apply NoDup_app; [exact Hnd | repeat constructor; simpl; tauto |].
  intros x Hin [<- | []]. contradiction.
Qed.

End JsMapFacts.

Lemma map_delete_absent {V} k (m : JsMap V) : map_get k m = None -> map_delete k m = m.
Proof.
  induction m as [| [k0 v0] m IH]; simpl; [reflexivity |].
  destruct (String.eqb_spec k k0); [discriminate |].
  intros H. now rewrite IH.
Qed.

(** ** The in-process vector store *)

(** X1. [store] is an upsert by id: a record with an embedding is filed under
    its id (an existing key keeps its place in the iteration order, a new
    one goes last), [get] then returns it, and no other key is touched.  A
    record without an embedding is refused and the store is unchanged. *)
Theorem memstore_store_then_get :
  forall (m : Memory) (memories : MemoryVectorStore.t),
    match embedding m with
    | Some e =>
        exists memories',
          MemoryVectorStore.store m memories = (Ok tt, memories') /\
          MemoryVectorStore.get (id m) memories' = (Ok (Some m), memories') /\
          map_get (id m) memories' = Some (mkStored m e) /\
          (forall k, k <> id m -> map_get k memories' = map_get k memories) /\
          map_keys memories'
          = if map_has (id m) memories then map_keys memories
            else (map_keys memories ++ [id m])%list
    | None =>
        MemoryVectorStore.store m memories
        = (Throw (Error "Memory must have an embedding to store"), memories)
    end.
Proof.
  intros m memories. unfold MemoryVectorStore.store.
  destruct (embedding m) as [e |]; [| reflexivity].
  exists (map_set (id m) (mkStored m e) memories).
  split; [reflexivity |]. split.
  - unfold MemoryVectorStore.get, gets. now rewrite map_get_set_same.
  - split; [apply map_get_set_same |]. split.
    + intros k Hk. now apply map_get_set_other.
    + apply map_keys_set.
Qed.

(** X2. [delete] answers whether the id was present; afterwards [get] finds
    nothing under it, every other id is as before, and a second [delete]
    answers false and changes nothing. *)
Theorem memstore_delete_then_get :
  forall (k : string) (memories : MemoryVectorStore.t),
    NoDup (map_keys memories) ->
    exists memories',
      MemoryVectorStore.delete k memories = (Ok (map_has k memories), memories') /\
      MemoryVectorStore.get k memories' = (Ok None, memories') /\
      (forall k', k' <> k -> map_get k' memories' = map_get k' memories) /\
      MemoryVectorStore.delete k memories' = (Ok false, memories').
Proof.
  intros k memories Hnd. exists (map_delete k memories).
  pose proof (map_get_delete_same k memories Hnd) as Hnone.
  split; [reflexivity |]. split.
  - unfold MemoryVectorStore.get, gets. now rewrite Hnone.
  - split; [intros k' Hk'; now apply map_get_delete_other |].
    unfold MemoryVectorStore.delete, map_has. rewrite Hnone.
    now rewrite map_delete_absent.
Qed.

Lemma memstore_delete_then_get_witness :
  exists memories',
    MemoryVectorStore.delete "a" (vectorStore two_tiers)
    = (Ok (map_has "a" (vectorStore two_tiers)), memories') /\
    MemoryVectorStore.get "a" memories' = (Ok None, memories') /\
    (forall k', k' <> "a" -> map_get k' memories' = map_get k' (vectorStore two_tiers)) /\
    MemoryVectorStore.delete "a" memories' = (Ok false, memories').
Proof.
  apply (memstore_delete_then_get "a" (vectorStore two_tiers)).
  simpl. repeat constructor; simpl; intuition discriminate.
Defined.

(** X3. [update] of an id the store does not hold fails with "not found" and
    changes nothing; otherwise it replaces the record in place, keeping the
    iteration order and, when the new record carries no embedding, the
    stored embedding. *)
Theorem memstore_update_in_place :
  forall (m : Memory) (memories : MemoryVectorStore.t),
    match map_get (id m) memories with
    | None =>
        MemoryVectorStore.update m memories
        = (Throw (Error ("Memory with id " ++ id m ++ " not found")), memories)
    | Some existing =>
        exists memories',
          MemoryVectorStore.update m memories = (Ok tt, memories') /\
          map_keys memories' = map_keys memories /\
          map_get (id m) memories'
          = Some (mkStored m match embedding m with
                             | Some e => e
                             | None => sm_embedding existing
                             end) /\
          (forall k, k <> id m -> map_get k memories' = map_get k memories)
    end.
Proof.
  intros m memories. unfold MemoryVectorStore.update.
  destruct (map_get (id m) memories) as [existing |] eqn:E; [| reflexivity].
  eexists. split; [reflexivity |]. split.
  - rewrite map_keys_set. unfold map_has. now rewrite E.
  - split; [apply map_get_set_same |].
    intros k Hk. now apply map_get_set_other.
Qed.

Lemma deleteBatch_loop_spec ids : forall n (memories : MemoryVectorStore.t),
  NoDup (map_keys memories) -> NoDup ids ->
  exists memories',
    MemoryVectorStore.deleteBatch_loop ids n memories
    = (Ok (n + List.length (List.filter (fun k => map_has k memories) ids)), memories') /\
    NoDup (map_keys memories') /\
    (forall k, In k ids -> map_get k memories' = None) /\
    (forall k, ~ In k ids -> map_get k memories' = map_get k memories).
Proof.
  induction ids as [| k ids IH]; intros n memories Hnd Hids; simpl.
  - exists memories. unfold ret. rewrite Nat.add_0_r.
    split; [reflexivity |]. split; [exact Hnd |].
    split; [intros k [] | intros; reflexivity].
  - inversion Hids as [| ? ? Hnotin Hids']; subst.
    unfold bind, MemoryVectorStore.delete.
    destruct (IH (if map_has k memories then S n else n) (map_delete k memories))
      as (memories' & E & Hnd' & Hin & Hout);
      [now apply map_delete_NoDup | exact Hids' |].
    exists memories'. split; [| split; [exact Hnd' | split]].
    + rewrite E. do 2 f_equal.
      assert (Hsame : List.filter (fun k0 => map_has k0 (map_delete k memories)) ids
                      = List.filter (fun k0 => map_has k0 memories) ids).
      { apply filter_ext_in. intros k0 Hk0. unfold map_has.
        rewrite map_get_delete_other; [reflexivity |]. intros ->. contradiction. }
      rewrite Hsame. destruct (map_has k memories); simpl; lia.
    + intros k0 [<- | Hk0]; [| now apply Hin].
      rewrite Hout by exact Hnotin. now apply map_get_delete_same.
    + intros k0 Hk0. rewrite Hout by tauto.
      apply map_get_delete_other. intros ->. apply Hk0. now left.
Qed.

(** X4. [deleteBatch] of distinct ids returns how many of them the store
    held; afterwards none of them is present and every other id is as
    before. *)
Theorem memstore_deleteBatch_counts :
  forall (ids : list string) (memories : MemoryVectorStore.t),
    NoDup (map_keys memories) -> NoDup ids ->
    exists memories',
      MemoryVectorStore.deleteBatch ids memories
      = (Ok (List.length (List.filter (fun k => map_has k memories) ids)), memories') /\
      (forall k, In k ids -> map_get k memories' = None) /\
      (forall k, ~ In k ids -> map_get k memories' = map_get k memories).
Proof.
  intros ids memories Hnd Hids.
  destruct (deleteBatch_loop_spec ids 0 memories Hnd Hids)
    as (memories' & E & _ & Hin & Hout).
  exists memories'. auto.
Qed.

Lemma memstore_deleteBatch_counts_witness :
  exists memories',
    MemoryVectorStore.deleteBatch ["b"; "zz"] (vectorStore two_tiers)
    = (Ok (List.length (List.filter (fun k => map_has k (vectorStore two_tiers))
                                    ["b"; "zz"])), memories') /\
    (forall k, In k ["b"; "zz"] -> map_get k memories' = None) /\
    (forall k, ~ In k ["b"; "zz"] ->
               map_get k memories' = map_get k (vectorStore two_tiers)).
Proof.
  apply (memstore_deleteBatch_counts ["b"; "zz"] (vectorStore two_tiers)).
  - simpl. repeat constructor; simpl; intuition discriminate.
  - repeat constructor; simpl; intuition discriminate.
Defined.

Lemma storeBatch_all_embedded ms : forall memories : MemoryVectorStore.t,
  (forall x, In x ms -> embedding x <> None) ->
  exists memories',
    MemoryVectorStore.storeBatch ms memories = (Ok tt, memories') /\
    (forall x, In x ms -> map_has (id x) memories' = true) /\
    (forall k, map_has k memories = true -> map_has k memories' = true).
Proof.
  induction ms as [| m ms IH]; intros memories Hemb; simpl.
  - exists memories. unfold ret. split; [reflexivity |]. split; [intros x [] | auto].
  - unfold bind, MemoryVectorStore.store.
    destruct (embedding m) as [e |] eqn:Em;
      [| elim (Hemb m (or_introl eq_refl)); exact Em].
    unfold modify.
    destruct (IH (map_set (id m) (mkStored m e) memories)) as (memories' & E & Hin & Hkeep);
      [intros x Hx; apply Hemb; now right |].
    exists memories'. split; [exact E |]. split.
    + intros x [<- | Hx]; [| now apply Hin].
      apply Hkeep. unfold map_has. now rewrite map_get_set_same.
    + intros k Hk. apply Hkeep. unfold map_has in *.
      destruct (String.eqb_spec k (id m)) as [-> | Hne];
        [now rewrite map_get_set_same | now rewrite map_get_set_other].
Qed.

(** X5. [storeBatch] stores the records one after the other and stops at the
    first one without an embedding: the call fails, yet the records before
    it have been written and stay in the store. *)
Theorem memstore_storeBatch_partial :
  forall (written : list Memory) (m : Memory) (rest : list Memory)
         (memories : MemoryVectorStore.t),
    (forall x, In x written -> embedding x <> None) ->
    embedding m = None ->
    exists memories',
      MemoryVectorStore.storeBatch (written ++ m :: rest) memories
      = (Throw (Error "Memory must have an embedding to store"), memories') /\
      MemoryVectorStore.storeBatch written memories = (Ok tt, memories') /\
      (forall x, In x written -> map_has (id x) memories' = true).
Proof.
  intros written m rest memories Hemb Hm.
  destruct (storeBatch_all_embedded written memories Hemb) as (memories' & E & Hin & _).
  exists memories'. split; [| split; [exact E | exact Hin]].
  clear Hin. revert memories memories' E.
  induction written as [| x written IH]; intros memories memories' E; simpl in *.
  - unfold ret in E. injection E as <-.
    unfold bind, MemoryVectorStore.store. now rewrite Hm.
  - unfold bind in *.
    destruct (MemoryVectorStore.store x memories) as [[[] | e] m1]; [| discriminate].
    apply IH; [intros y Hy; apply Hemb; now right | exact E].
Qed.

Lemma memstore_storeBatch_partial_witness :
  exists memories',
    MemoryVectorStore.storeBatch ([record "a" 0] ++ bare "b" 1 :: [record "c" 2]) []
    = (Throw (Error "Memory must have an embedding to store"), memories') /\
    MemoryVectorStore.storeBatch [record "a" 0] [] = (Ok tt, memories') /\
    (forall x, In x [record "a" 0] -> map_has (id x) memories' = true).
Proof.
  apply (memstore_storeBatch_partial [record "a" 0] (bare "b" 1) [record "c" 2] []).
  - intros x [<- | []]. discriminate.
  - reflexivity.
Defined.

(** *** Search *)

Lemma sort_insert_Permutation {A} (cmp : A -> A -> R) x l :
  Permutation (sort_insert cmp x l) (x :: l).
Proof.
  induction l as [| y l IH]; simpl; [reflexivity |].
  destruct (Rgtb (cmp x y) 0); [| reflexivity].
  rewrite IH. apply perm_swap.
Qed.

Lemma sort_Permutation {A} (cmp : A -> A -> R) l : Permutation (sort cmp l) l.
Proof.
  induction l as [| x l IH]; simpl; [reflexivity |].
  rewrite sort_insert_Permutation. now constructor.
Qed.

Lemma sort_length {A} (cmp : A -> A -> R) l : List.length (sort cmp l) = List.length l.
Proof. apply Permutation_length, sort_Permutation. Qed.

Section SortByKey.
Context {A : Type} (key : A -> R).
Let cmp := fun a b : A => (key b - key a)%R.
Let above := fun a b : A => (key b <= key a)%R.

Lemma sort_insert_sorted x l :
  StronglySorted above l -> StronglySorted above (sort_insert cmp x l).
Proof.
  induction l as [| y l IH]; simpl; intros Hs.
  - repeat constructor.
  - inversion Hs as [| ? ? Hs' Hall]; subst.
    unfold Rgtb, cmp. destruct (Rgt_dec (key y - key x) 0) as [Hgt | Hle].
    + constructor; [now apply IH |].
      apply Forall_forall. intros z Hz.
      apply sort_insert_In in Hz as [-> | Hz].
      * unfold above. lra.
      * rewrite Forall_forall in Hall. now apply Hall.
    + constructor; [exact Hs |].
      constructor; [unfold above; lra |].
      eapply Forall_impl; [| exact Hall]. unfold above. intros z Hz. lra.
Qed.

Lemma sort_sorted l : StronglySorted above (sort cmp l).
Proof.
  induction l as [| x l IH]; simpl; [constructor | now apply sort_insert_sorted].
Qed.
End SortByKey.

Lemma StronglySorted_firstn {A} (R : A -> A -> Prop) n l :
  StronglySorted R l -> StronglySorted R (firstn n l).
Proof.
  revert l. induction n as [| n IH]; intros [| x l] Hs; simpl; try constructor.
  - inversion Hs; subst. now apply IH.
  - inversion Hs as [| ? ? _ Hall]; subst.
    apply Forall_forall. intros y Hy. rewrite Forall_forall in Hall.
    apply Hall. rewrite <- (firstn_skipn n l). apply in_or_app. now left.
Qed.

Lemma includes_In x xs : includes x xs = true <-> In x xs.
Proof.
  unfold includes. rewrite existsb_exists. split.
  - intros (y & Hy & E). apply String.eqb_eq in E. now subst.
  - intros H. exists x. split; [exact H | apply String.eqb_refl].
Qed.

Lemma passes_search_satisfies h f stored :
  MemoryVectorStore.passes_search h f stored = true
  <-> satisfies f (h (metadata (memory stored))).
Proof.
  unfold MemoryVectorStore.passes_search, MemoryVectorStore.passes_layer_tags,
    MemoryVectorStore.hasAllTags, satisfies.
  set (md := h (metadata (memory stored))).
  rewrite !andb_true_iff. split.
  - intros [[Hl Ht] Hi]. repeat split.
    + intros l El. rewrite El in Hl. now apply layer_eqb_eq.
    + intros ts Ets t Hin. rewrite Ets in Ht. rewrite forallb_forall in Ht.
      now apply includes_In, Ht.
    + intros x Ex. rewrite Ex in Hi. unfold Rltb' in Hi.
      destruct (Rlt_dec (importance md) x); [discriminate | lra].
  - intros (Hl & Ht & Hi). repeat split.
    + destruct (f_layer f) as [l |]; [| reflexivity].
      apply layer_eqb_eq. now apply Hl.
    + destruct (f_tags f) as [ts |]; [| reflexivity].
      apply forallb_forall. intros t Hin. apply includes_In. now apply (Ht ts).
    + destruct (f_minImportance f) as [x |]; [| reflexivity].
      specialize (Hi x eq_refl). now rewrite Rltb'_false.
Qed.

(** The scan lists the matching records in map order. *)
Lemma scan_matching h q f entries : forall results,
  MemoryVectorStore.scan h q f entries = Ok results ->
  Forall2 (fun stored r =>
             sr_id r = id (memory stored) /\
             sr_content r = content (memory stored) /\
             sr_metadata r = metadata (memory stored) /\
             MemoryVectorStore.cosineSimilarity q (sm_embedding stored)
             = Ok (relevance r))
          (matching h f entries) results.
Proof.
  unfold matching.
  induction entries as [| [k sm] entries IH]; simpl; intros results Hscan.
  - injection Hscan as <-. constructor.
  - destruct (MemoryVectorStore.passes_search h f sm); [| now apply IH].
    destruct (MemoryVectorStore.cosineSimilarity q (sm_embedding sm)) as [rel | e] eqn:Ec;
      [| discriminate].
    destruct (MemoryVectorStore.scan h q f entries) as [rest | e]; [| discriminate].
    injection Hscan as <-. constructor; [simpl; auto | now apply IH].
Qed.

Lemma Forall2_In_r {A B} (P : A -> B -> Prop) l1 l2 y :
  Forall2 P l1 l2 -> In y l2 -> exists x, In x l1 /\ P x y.
Proof.
  induction 1 as [| x y' l1 l2 Hxy _ IH]; simpl; [tauto |].
  intros [<- | Hin]; [exists x; auto |].
  destruct (IH Hin) as (x' & Hx' & HP). exists x'. auto.
Qed.

Lemma Forall2_In_l {A B} (P : A -> B -> Prop) l1 l2 x :
  Forall2 P l1 l2 -> In x l1 -> exists y, In y l2 /\ P x y.
Proof.
  induction 1 as [| x' y l1 l2 Hxy _ IH]; simpl; [tauto |].
  intros [<- | Hin]; [exists y; auto |].
  destruct (IH Hin) as (y' & Hy' & HP). exists y'. auto.
Qed.

Lemma search_unfold h q limit f (memories memories' : MemoryVectorStore.t) results :
  MemoryVectorStore.search h q limit f memories = (Ok results, memories') ->
  memories' = memories /\
  exists found,
    MemoryVectorStore.scan h q f memories = Ok found /\
    results = firstn limit (sort (fun a b => relevance b - relevance a)%R found).
Proof.
  unfold MemoryVectorStore.search.
  destruct (MemoryVectorStore.scan h q f memories) as [found | e]; [| discriminate].
  intros H. injection H as <- <-. split; [reflexivity |]. now exists found.
Qed.

(** X6. [search] leaves the store as it is and returns at most [limit]
    results, the most relevant first. *)
Theorem memstore_search_ranked :
  forall h q limit f (memories memories' : MemoryVectorStore.t) results,
    MemoryVectorStore.search h q limit f memories = (Ok results, memories') ->
    memories' = memories /\
    List.length results <= limit /\
    descending results.
Proof.
  intros h q limit f memories memories' results Hs.
  apply search_unfold in Hs as (-> & found & _ & ->).
  split; [reflexivity |]. split; [apply firstn_le_length |].
  apply StronglySorted_firstn. apply (sort_sorted relevance).
Qed.

Lemma memstore_search_ranked_witness :
  opposite_store = opposite_store /\
  List.length [opposite_result] <= 10 /\
  descending [opposite_result].
Proof.
  apply (memstore_search_ranked empty_heap [1%R] 10 no_filter opposite_store
           opposite_store [opposite_result]).
  exact opposite_search.
Defined.

(** X7. [search] returns as many results as records pass the filter, up to
    [limit]; every result names a stored record that is in the requested
    layer, carries every requested tag and has at least the requested
    importance; and when the limit does not cut the list, every such record
    is among the results. *)
Theorem memstore_search_filters :
  forall h q limit f (memories memories' : MemoryVectorStore.t) results,
    MemoryVectorStore.search h q limit f memories = (Ok results, memories') ->
    List.length results = Nat.min limit (List.length (matching h f memories)) /\
    (forall r, In r results ->
       exists stored,
         In stored (map_values memories) /\
         sr_id r = id (memory stored) /\
         sr_content r = content (memory stored) /\
         sr_metadata r = metadata (memory stored) /\
         satisfies f (h (metadata (memory stored)))) /\
    (List.length (matching h f memories) <= limit ->
     forall stored,
       In stored (map_values memories) ->
       satisfies f (h (metadata (memory stored))) ->
       exists r, In r results /\ sr_id r = id (memory stored)).
Proof.
  intros h q limit f memories memories' results Hs.
  apply search_unfold in Hs as (-> & found & Hscan & ->).
  pose proof (scan_matching h q f memories found Hscan) as Hall.
  pose proof (Forall2_length Hall) as Hlen.
  split; [| split].
  - rewrite length_firstn, sort_length. now rewrite Hlen.
  - intros r Hin. apply slice_to_In, sort_In in Hin.
    destruct (Forall2_In_r _ _ _ r Hall Hin) as (stored & Hst & H1 & H2 & H3 & _).
    exists stored. unfold matching in Hst. apply filter_In in Hst as [Hst Hpass].
    repeat split; auto; now apply passes_search_satisfies.
  - intros Hfit stored Hst Hsat.
    assert (Hm : In stored (matching h f memories)).
    { unfold matching. apply filter_In. split; [exact Hst |].
      now apply passes_search_satisfies. }
    destruct (Forall2_In_l _ _ _ stored Hall Hm) as (r & Hr & H1 & _).
    exists r. split; [| exact H1].
    rewrite firstn_all2 by (rewrite sort_length; lia).
    eapply Permutation_in; [symmetry; apply sort_Permutation | exact Hr].
Qed.

Lemma memstore_search_filters_witness :
  List.length [opposite_result]
  = Nat.min 10 (List.length (matching empty_heap no_filter opposite_store)) /\
  (forall r, In r [opposite_result] ->
     exists stored,
       In stored (map_values opposite_store) /\
       sr_id r = id (memory stored) /\
       sr_content r = content (memory stored) /\
       sr_metadata r = metadata (memory stored) /\
       satisfies no_filter (empty_heap (metadata (memory stored)))) /\
  (List.length (matching empty_heap no_filter opposite_store) <= 10 ->
   forall stored,
     In stored (map_values opposite_store) ->
     satisfies no_filter (empty_heap (metadata (memory stored))) ->
     exists r, In r [opposite_result] /\ sr_id r = id (memory stored)).
Proof.
  apply (memstore_search_filters empty_heap [1%R] 10 no_filter opposite_store
           opposite_store [opposite_result]).
  exact opposite_search.
Defined.

Lemma cosine_throws a b :
  (forall e, MemoryVectorStore.cosineSimilarity a b = Throw e ->
             e = Error "Vector dimensions must match") /\
  (List.length a <> List.length b ->
   MemoryVectorStore.cosineSimilarity a b = Throw (Error "Vector dimensions must match")).
Proof.
  unfold MemoryVectorStore.cosineSimilarity.
  destruct (Nat.eqb_spec (List.length a) (List.length b)) as [E | E]; simpl.
  - split; [| contradiction].
    destruct (MemoryVectorStore.cosine_loop a b (0, 0, 0)%R) as [[d ma] mb].
    destruct (Reqb (sqrt ma) 0 || Reqb (sqrt mb) 0); discriminate.
  - split; [intros e H; now injection H as <- | reflexivity].
Qed.

Lemma scan_dimension_mismatch h q f entries stored :
  In stored (matching h f entries) ->
  List.length (sm_embedding stored) <> List.length q ->
  MemoryVectorStore.scan h q f entries = Throw (Error "Vector dimensions must match").
Proof.
  unfold matching.
  induction entries as [| [k sm] entries IH]; simpl; intros Hin Hlen; [contradiction |].
  destruct (MemoryVectorStore.passes_search h f sm) eqn:Hp; [| now apply IH].
  destruct (MemoryVectorStore.cosineSimilarity q (sm_embedding sm)) as [rel | e] eqn:Ec.
  - destruct Hin as [-> | Hin].
    + rewrite (proj2 (cosine_throws q (sm_embedding stored))) in Ec by congruence.
      discriminate.
    + now rewrite IH.
  - f_equal. now apply (cosine_throws q (sm_embedding sm)).
Qed.

(** X8. When a stored record that passes the filter has an embedding whose
    length differs from the query's, the whole [search] fails with "Vector
    dimensions must match", whatever the other records are; the store is
    unchanged. *)
Theorem memstore_search_dimension_mismatch :
  forall h q limit f (memories : MemoryVectorStore.t) stored,
    In stored (matching h f memories) ->
    List.length (sm_embedding stored) <> List.length q ->
    MemoryVectorStore.search h q limit f memories
    = (Throw (Error "Vector dimensions must match"), memories).
Proof.
  intros h q limit f memories stored Hin Hlen.
  unfold MemoryVectorStore.search.
  now rewrite (scan_dimension_mismatch h q f memories stored Hin Hlen).
Qed.

Lemma memstore_search_dimension_mismatch_witness :
  MemoryVectorStore.search empty_heap [1%R; 0%R] 10 no_filter opposite_store
  = (Throw (Error "Vector dimensions must match"), opposite_store).
Proof.
  apply (memstore_search_dimension_mismatch empty_heap [1%R; 0%R] 10 no_filter
           opposite_store
           (mkStored (mkMemory "a" "a" (Some [(-1)%R]) 0) [(-1)%R])).
  - simpl. left. reflexivity.
  - simpl. discriminate.
Defined.

(** *** Cosine similarity *)

Section CosineMore.
Local Open Scope R_scope.







End CosineMore.

(** ** The memory manager *)

(** X10. A record that [store] returns is found again by [get]; its metadata
    object is new, holds what the options say (importance and layer as
    given or defaulted, no access yet, both times the current time), and no
    existing metadata object is touched. *)
Theorem store_then_get :
  forall VS (backend : IVectorStore VS) randomUUID embed now text options
         (s s' : Manager VS) m,
    store backend randomUUID embed now text options s = (Ok m, s') ->
    get backend (id m) s' = (Ok (Some m), s') /\
    content m = text /\
    embedding m = Some (embed text) /\
    heap s' (metadata m) = stored_metadata now options /\
    timestamp (heap s' (metadata m)) = now /\
    lastAccessed (heap s' (metadata m)) = now /\
    accessCount (heap s' (metadata m)) = 0 /\
    (forall a, a <> metadata m -> heap s' a = heap s a).
Proof.
  intros VS backend randomUUID embed now text options s s' m Hstore.
  rewrite store_unfold in Hstore.
  destruct (vs_store backend _ (vectorStore s)) as [[u | e] vs']; [| discriminate].
  injection Hstore as <- <-. simpl.
  split.
  - unfold get, bind, gets; simpl. now rewrite map_get_set_same.
  - rewrite heap_set_same. repeat split; try reflexivity.
    intros a Ha. now apply heap_set_other.
Qed.

Lemma store_then_get_witness :
  get memoryVectorStore (id zero_importance_record) (snd zero_importance_run)
  = (Ok (Some zero_importance_record), snd zero_importance_run) /\
  content zero_importance_record = "note" /\
  embedding zero_importance_record = Some (unit_embed "note") /\
  heap (snd zero_importance_run) (metadata zero_importance_record)
  = stored_metadata 1000 (mkStoreOptions (Some 0%R) None None None) /\
  timestamp (heap (snd zero_importance_run) (metadata zero_importance_record)) = 1000%Z /\
  lastAccessed (heap (snd zero_importance_run) (metadata zero_importance_record)) = 1000%Z /\
  accessCount (heap (snd zero_importance_run) (metadata zero_importance_record)) = 0 /\
  (forall a, a <> metadata zero_importance_record ->
             heap (snd zero_importance_run) a = heap (fresh MemoryVectorStore.empty) a).
Proof.
  apply (store_then_get MemoryVectorStore.t memoryVectorStore uuid_of unit_embed 1000
           "note" (mkStoreOptions (Some 0%R) None None None)
           (fresh MemoryVectorStore.empty) (snd zero_importance_run)
           zero_importance_record).
  reflexivity.
Defined.

(** X11. [search] returns at most [limit] results (10 when no limit is given),
    each with a relevance of at least [minRelevance] (0 when none is
    given), whatever the vector store answers. *)
Theorem search_respects_limit_and_threshold :
  forall VS (backend : IVectorStore VS) embed now query options
         (s s' : Manager VS) results,
    search backend embed now query options s = (Ok results, s') ->
    List.length results <= search_limit options /\
    forall r, In r results -> (search_minRelevance options <= relevance r)%R.
Proof.
  intros VS backend embed now query options s s' results Hs.
  unfold search, bind in Hs.
  destruct (callH _ s) as [[found | e] s1]; [| discriminate].
  destruct (for_of _ _ s1) as [[[] | e] s2]; [| discriminate].
  unfold ret in Hs. injection Hs as <- <-.
  split; [apply firstn_le_length |].
  intros r Hin. apply slice_to_In in Hin. apply filter_In in Hin as [_ Hge].
  apply Rgeb_ge in Hge. exact Hge.
Qed.

Lemma search_respects_limit_and_threshold_witness :
  List.length [mkSearchResult "a" "a" 1 0] <= search_limit no_options /\
  forall r, In r [mkSearchResult "a" "a" 1 0] ->
            (search_minRelevance no_options <= relevance r)%R.
Proof.
  apply (search_respects_limit_and_threshold MemoryVectorStore.t memoryVectorStore
           unit_embed 2000 "Hello" no_options one_record after_one_search
           [mkSearchResult "a" "a" 1 0]).
  unfold after_one_search. now rewrite (search_single 2000 one_record).
Defined.

Lemma deletion_reason_not_empty why : (deletion_reason why =? "") = false.
Proof.
  unfold deletion_reason. destruct why as [r |]; [| reflexivity].
  destruct (r =? "") eqn:E; [reflexivity | exact E].
Qed.

Lemma forget_by_id_run toLocaleDateString k why (s : Manager MemoryVectorStore.t) :
  k <> "" ->
  forget memoryVectorStore toLocaleDateString (mkForgetOptions (Some k) None None why) s
  = (Ok (if map_has k (vectorStore s)
         then mkForgetResult [k] (deletion_reason why)
         else mkForgetResult [] "No memories matched criteria"),
     mkManager (heap s) (heapNext s) (map_delete k (vectorStore s))
               (map_delete k (workingMemory s)) (uuids s)).
Proof.
  intros Hk.
  assert (Ht : truthyS (Some k) = true).
  { simpl. destruct (String.eqb_spec k ""); [contradiction | reflexivity]. }
  unfold forget, bind; cbn [memoryId fo_olderThan fo_layer fo_reason].
  rewrite Ht. unfold call; cbn [vs_delete memoryVectorStore].
  unfold MemoryVectorStore.delete, wm_delete, modify, ret; simpl.
  destruct (map_has k (vectorStore s)); simpl; [| reflexivity].
  assert (E : (if truthyS why then match why with Some r => r | None => "" end
               else "Explicit deletion") = deletion_reason why).
  { unfold deletion_reason, truthyS. destruct why as [r |]; [| reflexivity].
    now destruct (r =? ""). }
  rewrite E, deletion_reason_not_empty. reflexivity.
Qed.

(** X12. [forget] with a [memoryId] deletes that id from the store and from the
    working memory; it reports the id (with the caller's reason, or
    "Explicit deletion") only when the store held it.  Afterwards [get]
    finds nothing under the id, every other id is as before, and a second
    [forget] of the same id reports an empty list. *)
Theorem forget_by_id_then_get :
  forall toLocaleDateString k why (s : Manager MemoryVectorStore.t),
    k <> "" ->
    NoDup (map_keys (vectorStore s)) ->
    NoDup (map_keys (workingMemory s)) ->
    exists s',
      forget memoryVectorStore toLocaleDateString
             (mkForgetOptions (Some k) None None why) s
      = (Ok (if map_has k (vectorStore s)
             then mkForgetResult [k] (deletion_reason why)
             else mkForgetResult [] "No memories matched criteria"), s') /\
      get memoryVectorStore k s' = (Ok None, s') /\
      (forall k', k' <> k ->
                  map_get k' (vectorStore s') = map_get k' (vectorStore s) /\
                  map_get k' (workingMemory s') = map_get k' (workingMemory s)) /\
      forget memoryVectorStore toLocaleDateString
             (mkForgetOptions (Some k) None None why) s'
      = (Ok (mkForgetResult [] "No memories matched criteria"), s').
Proof.
  intros tl k why s Hk Hvs Hwm.
  eexists. split; [apply forget_by_id_run; exact Hk |].
  pose proof (map_get_delete_same k (vectorStore s) Hvs) as Hs1.
  pose proof (map_get_delete_same k (workingMemory s) Hwm) as Hs2.
  split; [| split].
  - unfold get, bind, gets, call; simpl. rewrite Hs2. simpl.
    unfold MemoryVectorStore.get, gets. now rewrite Hs1.
  - intros k' Hk'. simpl. split; now apply map_get_delete_other.
  - rewrite forget_by_id_run by exact Hk. simpl.
    unfold map_has. rewrite Hs1.
    now rewrite (map_delete_absent k _ Hs1), (map_delete_absent k _ Hs2).
Qed.

Lemma forget_by_id_then_get_witness :
  exists s',
    forget memoryVectorStore iso_date (mkForgetOptions (Some "a") None None None) two_tiers
    = (Ok (if map_has "a" (vectorStore two_tiers)
           then mkForgetResult ["a"] (deletion_reason None)
           else mkForgetResult [] "No memories matched criteria"), s') /\
    get memoryVectorStore "a" s' = (Ok None, s') /\
    (forall k', k' <> "a" ->
                map_get k' (vectorStore s') = map_get k' (vectorStore two_tiers) /\
                map_get k' (workingMemory s') = map_get k' (workingMemory two_tiers)) /\
    forget memoryVectorStore iso_date (mkForgetOptions (Some "a") None None None) s'
    = (Ok (mkForgetResult [] "No memories matched criteria"), s').
Proof.
  apply (forget_by_id_then_get iso_date "a" None two_tiers).
  - discriminate.
  - simpl. repeat constructor; simpl; intuition discriminate.
  - simpl. repeat constructor; simpl; intuition discriminate.
Defined.

(** *** Loops that rewrite one metadata object per item *)

Lemma apply_at_ext g addrs : forall h1 h2,
  (forall a, h1 a = h2 a) ->
  forall a, apply_at g addrs h1 a = apply_at g addrs h2 a.
Proof.
  unfold apply_at. induction addrs as [| x addrs IH]; intros h1 h2 Heq a; simpl;
    [apply Heq |].
  apply IH. intros a'. unfold heap_set. rewrite Heq.
  destruct (Nat.eqb a' x); [reflexivity | apply Heq].
Qed.

Lemma apply_at_elsewhere g addrs : forall h a,
  ~ In a addrs -> apply_at g addrs h a = h a.
Proof.
  unfold apply_at. induction addrs as [| x addrs IH]; intros h a Hnot; simpl in *;
    [reflexivity |].
  rewrite IH by tauto. apply heap_set_other. intros E. apply Hnot. now left.
Qed.

Lemma apply_at_here g addrs : forall h a,
  NoDup addrs -> In a addrs -> apply_at g addrs h a = g (h a).
Proof.
  induction addrs as [| x addrs IH]; intros h a Hnd Hin; [contradiction |].
  inversion Hnd as [| ? ? Hnotin Hnd']; subst.
  change (apply_at g (x :: addrs) h) with (apply_at g addrs (heap_set h x (g (h x)))).
  destruct Hin as [-> | Hin].
  - rewrite apply_at_elsewhere by exact Hnotin. apply heap_set_same.
  - rewrite IH by assumption. f_equal. apply heap_set_other.
    intros ->. contradiction.
Qed.

Section RecordLoop.
Context {VS X : Type}.
Variable step : X -> M (Manager VS) unit.
Variable addr : X -> Addr.
Variable g : MemoryMetadata -> MemoryMetadata.
Variable Inv : Manager VS -> Prop.
Variable good : X -> Prop.
Hypothesis step_run :
  forall x s, Inv s -> good x ->
    exists s', step x s = (Ok tt, s') /\
               (forall a, heap s' a = heap_set (heap s) (addr x) (g (heap s (addr x))) a) /\
               Inv s'.

Lemma record_loop xs : forall s,
  Inv s -> Forall good xs ->
  exists s', for_of xs step s = (Ok tt, s') /\
             (forall a, heap s' a = apply_at g (map addr xs) (heap s) a) /\
             Inv s'.
Proof.
  induction xs as [| x xs IH]; intros s HI Hgood; simpl.
  - exists s. unfold ret. auto.
  - inversion Hgood as [| ? ? Hx Hxs]; subst.
    destruct (step_run x s HI Hx) as (s1 & E1 & Hh1 & HI1).
    destruct (IH s1 HI1 Hxs) as (s' & E' & Hh' & HI').
    exists s'. unfold bind. rewrite E1. split; [exact E' |]. split; [| exact HI'].
    intros a. rewrite Hh'.
    change (apply_at g (addr x :: map addr xs) (heap s))
      with (apply_at g (map addr xs) (heap_set (heap s) (addr x) (g (heap s (addr x))))).
    apply apply_at_ext. exact Hh1.
Qed.
End RecordLoop.

Lemma projection_lookup memories k m :
  NoDup (map_keys memories) -> In (k, m) (projection memories) ->
  exists sm, map_get k memories = Some sm /\ memory sm = m.
Proof.
  intros Hnd Hin. unfold projection in Hin.
  apply in_map_iff in Hin as ([k0 sm] & E & Hin). simpl in E.
  injection E as -> <-. exists sm. split; [now apply map_get_In | reflexivity].
Qed.

Lemma projection_keyed memories k m :
  wf_store memories -> In (k, m) (projection memories) -> k = id m.
Proof.
  intros (_ & Hid & _) Hin. unfold projection in Hin.
  apply in_map_iff in Hin as ([k0 sm] & E & Hin). simpl in E.
  injection E as <- <-. now apply Hid.
Qed.

Lemma stored_in_projection memories m :
  wf_store memories -> In m (stored_records memories) ->
  In (id m, m) (projection memories).
Proof.
  intros (_ & Hid & _) Hin. unfold stored_records, map_values in Hin.
  rewrite map_map in Hin. apply in_map_iff in Hin as ([k sm] & E & Hin).
  simpl in E. subst m. rewrite <- (Hid k sm Hin).
  unfold projection. apply in_map_iff. exists (k, sm). auto.
Qed.

Lemma map_set_same_value {V} k (v : V) m : map_get k m = Some v -> map_set k v m = m.
Proof.
  induction m as [| [k0 v0] m IH]; simpl; [discriminate |].
  destruct (String.eqb_spec k k0) as [-> | Hne].
  - intros E. now injection E as ->.
  - intros E. now rewrite IH.
Qed.

(** Writing a changed record back: the store's [update], then the
    working-memory map when it holds the id. *)
Ltac write_back Hget Hmem Hp :=
  unfold mutate, modify, call, wm_has, gets, wm_set, modify, ret; simpl;
  unfold MemoryVectorStore.update; rewrite Hget; simpl;
  match goal with |- context [map_has ?k ?w] => destruct (map_has k w) end; simpl;
  (eexists; split; [reflexivity |]; split; [reflexivity |]; simpl;
   erewrite projection_map_set; [exact Hp | exact Hget | simpl; congruence]).

Lemma heap_set_self (h : Heap) a : forall a', h a' = heap_set h a (h a) a'.
Proof. intros a'. unfold heap_set. destruct (Nat.eqb_spec a' a); congruence. Qed.

Lemma rebalance_step_run cfg now (s0 : Manager MemoryVectorStore.t) :
  wf_store (vectorStore s0) ->
  forall m (s : Manager MemoryVectorStore.t),
    projection (vectorStore s) = projection (vectorStore s0) ->
    In m (stored_records (vectorStore s0)) ->
    exists s',
      rebalance_step memoryVectorStore cfg now m s = (Ok tt, s') /\
      (forall a, heap s' a
                 = heap_set (heap s) (metadata m)
                            (rebalanced cfg now (heap s (metadata m))) a) /\
      projection (vectorStore s') = projection (vectorStore s0).
Proof.
  intros Hwf0 m s Hp Hin.
  assert (Hwf : wf_store (vectorStore s)) by (eapply wf_store_projection; eassumption).
  assert (Hin' : In m (stored_records (vectorStore s)))
    by (now rewrite <- projection_records, Hp, projection_records).
  destruct (stored_record_lookup _ _ Hwf Hin') as (sm & Hget & Hmem).
  unfold rebalance_step, bind, gets.
  change (calculateMemoryScore cfg (heap s) now m)
    with (score_of cfg now (heap s (metadata m))).
  unfold rebalanced.
  set (md := heap s (metadata m)).
  destruct ((now - timestamp md >? ttl cfg (layer md))%Z
            && Rltb' (score_of cfg now md) 0.3) eqn:Hexp.
  - destruct (layer md) eqn:Hl; simpl.
    + unfold ret. exists s. split; [reflexivity |].
      split; [apply heap_set_self | exact Hp].
    + write_back Hget Hmem Hp.
    + unfold mutate, modify, ret; simpl.
      eexists. split; [reflexivity |]. split; [reflexivity | exact Hp].
  - destruct (Rgtb (score_of cfg now md) 0.8).
    + destruct (layer md) eqn:Hl; simpl.
      * write_back Hget Hmem Hp.
      * write_back Hget Hmem Hp.
      * unfold ret. exists s. split; [reflexivity |].
        split; [apply heap_set_self | exact Hp].
    + simpl. unfold ret. exists s. split; [reflexivity |].
      split; [apply heap_set_self | exact Hp].
Qed.

Lemma rebalanced_facts cfg now md :
  timestamp (rebalanced cfg now md) = timestamp md /\
  accessCount (rebalanced cfg now md) = accessCount md /\
  lastAccessed (rebalanced cfg now md) = lastAccessed md /\
  (layer md = LONG_TERM -> layer (rebalanced cfg now md) = LONG_TERM) /\
  (layer (rebalanced cfg now md) = layer md \/
   layer (rebalanced cfg now md) = LONG_TERM \/
   (layer md = SHORT_TERM /\ layer (rebalanced cfg now md) = WORKING)) /\
  (importance (rebalanced cfg now md) = importance md \/
   (layer md = LONG_TERM /\
    importance (rebalanced cfg now md) = Rmax 0.1 (importance md * 0.5))).
Proof.
  unfold rebalanced.
  destruct ((now - timestamp md >? ttl cfg (layer md))%Z
            && Rltb' (score_of cfg now md) 0.3);
    [| destruct (Rgtb (score_of cfg now md) 0.8)];
    destruct (layer md) eqn:Hl; simpl; rewrite ?Hl;
    repeat split; auto; try discriminate; tauto.
Qed.

(** X13. Over a well-formed in-process store [rebalanceLayers] returns, keeps
    every record, and rewrites each record's metadata by the rule
    [rebalanced], which looks at that record alone.  It never changes a
    timestamp or an access counter, never moves a long-term record to
    another layer, demotes only from short-term to working, and changes an
    importance only by attenuating a long-term record to
    [max(0.1, importance * 0.5)]. *)
Theorem rebalanceLayers_by_record :
  forall cfg now (s : Manager MemoryVectorStore.t),
    wf_store (vectorStore s) ->
    exists s',
      rebalanceLayers memoryVectorStore cfg now s = (Ok tt, s') /\
      stored_records (vectorStore s') = stored_records (vectorStore s) /\
      forall m, In m (stored_records (vectorStore s)) ->
        let before := heap s (metadata m) in
        let after := heap s' (metadata m) in
        after = rebalanced cfg now before /\
        timestamp after = timestamp before /\
        accessCount after = accessCount before /\
        lastAccessed after = lastAccessed before /\
        (layer before = LONG_TERM -> layer after = LONG_TERM) /\
        (layer after = layer before \/ layer after = LONG_TERM \/
         (layer before = SHORT_TERM /\ layer after = WORKING)) /\
        (importance after = importance before \/
         (layer before = LONG_TERM /\
          importance after = Rmax 0.1 (importance before * 0.5))).
Proof.
  intros cfg now s Hwf.
  unfold rebalanceLayers, bind, callH. cbn [vs_list memoryVectorStore].
  rewrite call_list_memory, list_all. fold (stored_records (vectorStore s)).
  assert (Hall : Forall (fun m => In m (stored_records (vectorStore s)))
                        (stored_records (vectorStore s)))
    by (apply Forall_forall; auto).
  destruct (record_loop (rebalance_step memoryVectorStore cfg now) metadata
              (rebalanced cfg now)
              (fun s1 => projection (vectorStore s1) = projection (vectorStore s))
              (fun m => In m (stored_records (vectorStore s)))
              (fun m s1 HI Hm => rebalance_step_run cfg now s Hwf m s1 HI Hm)
              (stored_records (vectorStore s)) s eq_refl Hall)
    as (s' & E & Hh & Hp).
  exists s'. split; [exact E |]. split.
  - now rewrite <- !projection_records, Hp.
  - intros m Hm.
    assert (Hafter : heap s' (metadata m) = rebalanced cfg now (heap s (metadata m))).
    { rewrite Hh. apply apply_at_here; [apply Hwf |]. now apply in_map. }
    rewrite Hafter. split; [reflexivity | apply rebalanced_facts].
Qed.

Lemma rebalanceLayers_by_record_witness :
  exists s',
    rebalanceLayers memoryVectorStore config THIRTY_DAYS month_old = (Ok tt, s') /\
    stored_records (vectorStore s') = stored_records (vectorStore month_old) /\
    forall m, In m (stored_records (vectorStore month_old)) ->
      let before := heap month_old (metadata m) in
      let after := heap s' (metadata m) in
      after = rebalanced config THIRTY_DAYS before /\
      timestamp after = timestamp before /\
      accessCount after = accessCount before /\
      lastAccessed after = lastAccessed before /\
      (layer before = LONG_TERM -> layer after = LONG_TERM) /\
      (layer after = layer before \/ layer after = LONG_TERM \/
       (layer before = SHORT_TERM /\ layer after = WORKING)) /\
      (importance after = importance before \/
       (layer before = LONG_TERM /\
        importance after = Rmax 0.1 (importance before * 0.5))).
Proof.
  apply (rebalanceLayers_by_record config THIRTY_DAYS month_old).
  exact wf_store_month_old.
Defined.

(** X14. Over a well-formed in-process store the decay touches nothing but the
    importance, and the floor works both ways: a record aged at least one
    day whose importance is at or below 0.1 ends at exactly 0.1 (raised when
    it was lower), while with a non-negative rate an importance of 0.1 or
    more never grows. *)
Theorem applyImportanceDecay_only_importance :
  forall cfg now (s : Manager MemoryVectorStore.t),
    wf_store (vectorStore s) ->
    exists s',
      applyImportanceDecay memoryVectorStore cfg now s = (Ok tt, s') /\
      forall m, In m (stored_records (vectorStore s)) ->
        let before := heap s (metadata m) in
        let after := heap s' (metadata m) in
        timestamp after = timestamp before /\
        layer after = layer before /\
        source after = source before /\
        tags after = tags before /\
        accessCount after = accessCount before /\
        lastAccessed after = lastAccessed before /\
        ((1 <= ageDays now before)%R -> (0 <= decay_rate cfg)%R ->
         (importance before <= 0.1)%R -> importance after = 0.1%R) /\
        ((0 <= decay_rate cfg)%R -> (0.1 <= importance before)%R ->
         (importance after <= importance before)%R).
Proof.
  intros cfg now s Hwf.
  destruct (applyImportanceDecay_run cfg now s Hwf) as (s' & E & _ & _ & Hh).
  exists s'. split; [exact E |].
  intros m Hm before after. subst after. rewrite (Hh m Hm). fold before.
  unfold decay_once. destruct (Rgeb (ageDays now before) 1) eqn:Hage; simpl;
    do 6 (split; [reflexivity |]); split.
  - apply Rgeb_ge in Hage. intros _ Hrate Hlow.
    pose proof (decay_factor_range _ _ Hrate Hage) as Hf.
    apply Rmax_left. destruct (Rle_dec 0 (importance before)); nra.
  - apply Rgeb_ge in Hage. intros Hrate Hhigh.
    pose proof (decay_factor_range _ _ Hrate Hage) as Hf.
    apply Rmax_lub; nra.
  - intros Hold. unfold Rgeb in Hage.
    destruct (Rge_dec (ageDays now before) 1); [discriminate | lra].
  - intros; lra.
Qed.

Lemma applyImportanceDecay_only_importance_witness :
  exists s',
    applyImportanceDecay memoryVectorStore config THIRTY_DAYS month_old = (Ok tt, s') /\
    forall m, In m (stored_records (vectorStore month_old)) ->
      let before := heap month_old (metadata m) in
      let after := heap s' (metadata m) in
      timestamp after = timestamp before /\
      layer after = layer before /\
      source after = source before /\
      tags after = tags before /\
      accessCount after = accessCount before /\
      lastAccessed after = lastAccessed before /\
      ((1 <= ageDays THIRTY_DAYS before)%R -> (0 <= decay_rate config)%R ->
       (importance before <= 0.1)%R -> importance after = 0.1%R) /\
      ((0 <= decay_rate config)%R -> (0.1 <= importance before)%R ->
       (importance after <= importance before)%R).
Proof.
  apply (applyImportanceDecay_only_importance config THIRTY_DAYS month_old).
  exact wf_store_month_old.
Defined.

(** *** Access counters *)

Lemma NoDup_map_filter {A B} (f : A -> B) (p : A -> bool) l :
  NoDup (map f l) -> NoDup (map f (List.filter p l)).
Proof.
  induction l as [| x l IH]; simpl; intros Hnd; [constructor |].
  inversion Hnd as [| ? ? Hnotin Hnd']; subst.
  destruct (p x); simpl; [| now apply IH].
  constructor; [| now apply IH].
  intros Hin. apply Hnotin. apply in_map_iff in Hin as (y & E & Hy).
  apply filter_In in Hy as [Hy _]. apply in_map_iff. exists y. auto.
Qed.

Lemma NoDup_map_firstn {A B} (f : A -> B) n l :
  NoDup (map f l) -> NoDup (map f (firstn n l)).
Proof.
  revert l. induction n as [| n IH]; intros [| x l] Hnd; simpl; try constructor.
  - inversion Hnd as [| ? ? Hnotin _]; subst.
    intros Hin. apply Hnotin. apply in_map_iff in Hin as (y & E & Hy).
    apply in_map_iff. exists y. split; [exact E |].
    rewrite <- (firstn_skipn n l). apply in_or_app. now left.
  - inversion Hnd; subst. now apply IH.
Qed.

Lemma Forall2_map_eq {A B C} (f : A -> C) (g : B -> C) l1 l2 :
  Forall2 (fun x y => g y = f x) l1 l2 -> map g l2 = map f l1.
Proof. induction 1; simpl; congruence. Qed.

Lemma updateAccessCount_run now (s0 : Manager MemoryVectorStore.t) :
  wf_store (vectorStore s0) -> cache_coherent s0 ->
  forall r (s : Manager MemoryVectorStore.t),
    projection (vectorStore s) = projection (vectorStore s0) /\
    workingMemory s = workingMemory s0 ->
    (exists m, In (sr_id r, m) (projection (vectorStore s0)) /\
               metadata m = sr_metadata r) ->
    exists s',
      updateAccessCount memoryVectorStore now (sr_id r) s = (Ok tt, s') /\
      (forall a, heap s' a
                 = heap_set (heap s) (sr_metadata r) (touch now (heap s (sr_metadata r))) a) /\
      (projection (vectorStore s') = projection (vectorStore s0) /\
       workingMemory s' = workingMemory s0).
Proof.
  intros Hwf0 Hcoh r s [Hp Hw] (m & Hin & Hmd).
  set (k := sr_id r) in *.
  assert (Hk : k = id m) by (eapply projection_keyed; eassumption).
  destruct (projection_lookup (vectorStore s0) k m (proj1 Hwf0) Hin) as (sm0 & Hget0 & Hm0).
  assert (Hnd : NoDup (map_keys (vectorStore s)))
    by (rewrite <- projection_keys, Hp, projection_keys; apply Hwf0).
  assert (Hin' : In (k, m) (projection (vectorStore s))) by (now rewrite Hp).
  destruct (projection_lookup (vectorStore s) k m Hnd Hin') as (sm & Hget & Hm).
  assert (Hupd : map_get (id m) (vectorStore s) = Some sm) by (now rewrite <- Hk).
  unfold updateAccessCount, get, bind, gets. rewrite Hw.
  destruct (map_get k (workingMemory s0)) as [mc |] eqn:Hc.
  - destruct (Hcoh k mc Hc) as (sm1 & Hget1 & Hm1).
    assert (Emc : mc = m) by congruence. clear sm1 Hget1 Hm1. subst mc.
    unfold ret, mutate, modify, wm_has, gets, wm_set, modify, call; simpl.
    unfold map_has. rewrite Hw, Hc. simpl.
    unfold MemoryVectorStore.update. rewrite Hupd. simpl.
    eexists. split; [reflexivity |]. simpl. rewrite Hmd. split; [reflexivity |].
    split.
    + rewrite <- Hp. eapply projection_map_set; [exact Hupd | simpl; congruence].
    + rewrite Hw. now apply map_set_same_value.
  - unfold call; simpl. unfold MemoryVectorStore.get, gets. rewrite Hget. simpl.
    rewrite Hm.
    unfold mutate, modify, wm_has, gets, wm_set, modify, ret; simpl.
    unfold map_has. rewrite Hw, Hc. simpl.
    unfold MemoryVectorStore.update. rewrite Hupd. simpl.
    eexists. split; [reflexivity |]. simpl. rewrite Hmd. split; [reflexivity |].
    split; [| first [exact Hw | reflexivity]].
    rewrite <- Hp. eapply projection_map_set; [exact Hupd | simpl; congruence].
Qed.

Lemma found_records h q limit f (memories : MemoryVectorStore.t) found :
  wf_store memories ->
  MemoryVectorStore.search h q limit f memories = (Ok found, memories) ->
  NoDup (map sr_metadata found) /\
  forall r, In r found ->
    exists m, In (sr_id r, m) (projection memories) /\ metadata m = sr_metadata r.
Proof.
  intros Hwf Hs. apply search_unfold in Hs as (_ & res & Hscan & ->).
  pose proof (scan_matching h q f memories res Hscan) as Hall.
  split.
  - apply NoDup_map_firstn.
    apply (Permutation_NoDup (l := map sr_metadata res)).
    { apply Permutation_map. symmetry. apply sort_Permutation. }
    rewrite (Forall2_map_eq (fun st => metadata (memory st)) sr_metadata
               (matching h f memories) res).
    + unfold matching. apply NoDup_map_filter.
      destruct Hwf as (_ & _ & Hmd). unfold stored_records in Hmd.
      now rewrite map_map in Hmd.
    + eapply Forall2_impl; [| exact Hall]. simpl. tauto.
  - intros r Hin. apply slice_to_In, sort_In in Hin.
    destruct (Forall2_In_r _ _ _ r Hall Hin) as (st & Hst & Hid & _ & Hmd & _).
    exists (memory st). split; [| now rewrite Hmd].
    rewrite Hid. apply stored_in_projection; [exact Hwf |].
    unfold matching in Hst. apply filter_In in Hst as [Hst _].
    unfold stored_records. now apply in_map.
Qed.

(** X15. [search] bumps the access counter of every result that survives
    [minRelevance] (up to twice the limit), not only of those it returns:
    over a well-formed in-process store with a coherent working memory the
    search returns the first [limit] survivors, each survivor's metadata has
    its counter raised by one and its last access set to the current time,
    and nothing else changes. *)
Theorem search_touches_every_survivor :
  forall embed now query options (s : Manager MemoryVectorStore.t) found,
    wf_store (vectorStore s) ->
    cache_coherent s ->
    MemoryVectorStore.search (heap s) (embed query) (search_limit options * 2)
                             (search_filter options) (vectorStore s)
    = (Ok found, vectorStore s) ->
    exists s',
      search memoryVectorStore embed now query options s
      = (Ok (slice_to (search_limit options) (surviving options found)), s') /\
      (forall r, In r (surviving options found) ->
                 heap s' (sr_metadata r) = touch now (heap s (sr_metadata r))) /\
      (forall a, ~ In a (map sr_metadata (surviving options found)) ->
                 heap s' a = heap s a) /\
      stored_records (vectorStore s') = stored_records (vectorStore s) /\
      workingMemory s' = workingMemory s.
Proof.
  intros embed now query options s found Hwf Hcoh Hs.
  destruct (found_records _ _ _ _ _ _ Hwf Hs) as (Hnd & Hgood).
  assert (Hall : Forall (fun r => exists m, In (sr_id r, m) (projection (vectorStore s))
                                            /\ metadata m = sr_metadata r)
                        (surviving options found)).
  { apply Forall_forall. intros r Hr. apply Hgood.
    unfold surviving in Hr. now apply filter_In in Hr. }
  destruct (record_loop (fun r => updateAccessCount memoryVectorStore now (sr_id r))
              sr_metadata (touch now)
              (fun s1 => projection (vectorStore s1) = projection (vectorStore s)
                         /\ workingMemory s1 = workingMemory s)
              _ (updateAccessCount_run now s Hwf Hcoh)
              (surviving options found) s (conj eq_refl eq_refl) Hall)
    as (s' & E & Hh & Hp & Hw).
  exists s'. split; [| split; [| split; [| split]]].
  - unfold search, bind, callH, call. cbn [vs_search memoryVectorStore].
    fold (search_limit options) (search_filter options).
    unfold search_limit, search_filter in Hs |- *. rewrite Hs.
    fold (search_minRelevance options). fold (surviving options found).
    destruct s as [hp nx vs wm u]. simpl in *.
    match goal with
    | |- context [for_of ?l ?b ?st] =>
        replace (for_of l b st) with (@Ok unit tt, s') by (symmetry; exact E)
    end.
    reflexivity.
  - intros r Hr. rewrite Hh. apply apply_at_here; [| now apply in_map].
    unfold surviving. now apply NoDup_map_filter.
  - intros a Ha. rewrite Hh. now apply apply_at_elsewhere.
  - now rewrite <- !projection_records, Hp.
  - exact Hw.
Qed.

Lemma two_records_found :
  MemoryVectorStore.search (heap two_records) (unit_embed "q")
                           (search_limit limit_one * 2) (search_filter limit_one)
                           (vectorStore two_records)
  = (Ok both_found, vectorStore two_records).
Proof.
  unfold MemoryVectorStore.search; simpl. unfold unit_embed. rewrite cosine_unit.
  simpl. rewrite Rgtb_false by lra. reflexivity.
Qed.

Lemma wf_store_two_records : wf_store (vectorStore two_records).
Proof.
  unfold wf_store; simpl. repeat split.
  - repeat constructor; simpl; intuition discriminate.
  - intros k sm [E | [E | []]]; now inversion E.
  - repeat constructor; simpl; intuition discriminate.
Qed.

Lemma cache_coherent_two_records : cache_coherent two_records.
Proof.
  intros k m. simpl.
  destruct (k =? "a") eqn:Ea; [intros H; injection H as <-; eauto |].
  destruct (k =? "b") eqn:Eb; [intros H; injection H as <-; eauto | discriminate].
Qed.

Lemma search_touches_every_survivor_witness :
  exists s',
    search memoryVectorStore unit_embed 2000 "q" limit_one two_records
    = (Ok (slice_to (search_limit limit_one) (surviving limit_one both_found)), s') /\
    (forall r, In r (surviving limit_one both_found) ->
               heap s' (sr_metadata r) = touch 2000 (heap two_records (sr_metadata r))) /\
    (forall a, ~ In a (map sr_metadata (surviving limit_one both_found)) ->
               heap s' a = heap two_records a) /\
    stored_records (vectorStore s') = stored_records (vectorStore two_records) /\
    workingMemory s' = workingMemory two_records.
Proof.
  apply (search_touches_every_survivor unit_embed 2000 "q" limit_one two_records
           both_found).
  - exact wf_store_two_records.
  - exact cache_coherent_two_records.
  - exact two_records_found.
Defined.

(** ** Grouping and counting *)



















(** ** Input validation *)

Lemma trimStart_suffix (s : ustring) : exists pre, s = (pre ++ trimStart s)%list.
Proof.
  induction s as [| c s IH]; simpl.
  - exists []. reflexivity.
  - destruct (is_space c).
    + destruct IH as [pre E]. exists (c :: pre). simpl. rewrite <- E. reflexivity.
    + exists []. reflexivity.
Qed.

Lemma trimStart_head (s : ustring) c rest :
  trimStart s = c :: rest -> is_space c = false.
Proof.
  induction s as [| d s IH]; simpl; [discriminate |].
  destruct (is_space d) eqn:Ed; [exact IH |].
  intros E. injection E as -> _. exact Ed.
Qed.

Lemma trimStart_id (s : ustring) :
  (forall c rest, s = c :: rest -> is_space c = false) -> trimStart s = s.
Proof.
  destruct s as [| c s]; simpl; [reflexivity |].
  intros H. rewrite (H c s eq_refl). reflexivity.
Qed.

Lemma trimEnd_prefix (s : ustring) : exists suf, s = (trimEnd s ++ suf)%list.
Proof.
  unfold trimEnd. destruct (trimStart_suffix (List.rev s)) as [pre E].
  exists (List.rev pre).
  rewrite <- rev_app_distr, <- E, rev_involutive. reflexivity.
Qed.

Lemma trimEnd_last (s : ustring) c front :
  trimEnd s = (front ++ [c])%list -> is_space c = false.
Proof.
  unfold trimEnd. intros E.
  apply (f_equal (@List.rev N)) in E.
  rewrite rev_involutive, rev_app_distr in E. simpl in E.
  exact (trimStart_head _ _ _ E).
Qed.

Lemma trimEnd_id (s : ustring) :
  (forall c front, s = (front ++ [c])%list -> is_space c = false) -> trimEnd s = s.
Proof.
  intros H. unfold trimEnd. rewrite trimStart_id.
  - apply rev_involutive.
  - intros c rest E. apply (H c (List.rev rest)).
    apply (f_equal (@List.rev N)) in E. rewrite rev_involutive in E.
    rewrite E. reflexivity.
Qed.

Lemma trimEnd_head (s : ustring) :
  (forall c rest, s = c :: rest -> is_space c = false) ->
  forall c rest, trimEnd s = c :: rest -> is_space c = false.
Proof.
  intros H c rest E. destruct (trimEnd_prefix s) as [suf Es].
  rewrite E in Es. simpl in Es. exact (H _ _ Es).
Qed.

Lemma trim_parts (s : ustring) : exists pre suf, s = (pre ++ trim s ++ suf)%list.
Proof.
  unfold trim. destruct (trimStart_suffix s) as [pre E].
  destruct (trimEnd_prefix (trimStart s)) as [suf E'].
  exists pre, suf. rewrite <- E'. exact E.
Qed.

Lemma trim_clean n (s : ustring) :
  Forall (fun c => is_control c = false) s -> List.length s <= n -> clean n (trim s).
Proof.
  intros Hc Hn. destruct (trim_parts s) as [pre [suf E]].
  split; [| split; [| split]].
  - rewrite E in Hc. apply Forall_app in Hc as [_ Hc].
    apply Forall_app in Hc as [Hc _]. exact Hc.
  - rewrite E in Hn. rewrite !length_app in Hn. lia.
  - apply trimEnd_head. intros c rest. apply trimStart_head.
  - intros c front. apply trimEnd_last.
Qed.

Lemma trim_id n (s : ustring) : clean n s -> trim s = s.
Proof.
  intros [_ [_ [Hh Hl]]]. unfold trim.
  rewrite (trimStart_id s Hh). apply trimEnd_id. exact Hl.
Qed.

Lemma filter_all {A} (p : A -> bool) (l : list A) :
  Forall (fun x => p x = true) l -> List.filter p l = l.
Proof.
  induction 1 as [| x l Hx _ IH]; simpl; [reflexivity |].
  rewrite Hx, IH. reflexivity.
Qed.

Lemma filter_Forall {A} (p : A -> bool) (l : list A) :
  Forall (fun x => p x = true) (List.filter p l).
Proof.
  apply Forall_forall. intros x Hx. apply filter_In in Hx. apply Hx.
Qed.

Lemma firstn_subset {A} (n : nat) (l : list A) x : In x (firstn n l) -> In x l.
Proof.
  revert l. induction n as [| n IH]; intros [| y l]; simpl; try tauto.
  intros [-> | H]; [left; reflexivity | right; exact (IH _ H)].
Qed.

Lemma sanitizeString_is_clean input n : clean n (sanitizeString input n).
Proof.
  unfold sanitizeString. apply trim_clean.
  - assert (Hf : Forall (fun c => is_control c = false)
                   (List.filter (fun c => negb (is_control c)) input)).
    { eapply Forall_impl; [| apply filter_Forall].
      intros c Hc. simpl in Hc. apply negb_true_iff in Hc. exact Hc. }
    destruct (n <? _)%nat; [| exact Hf].
    apply Forall_forall. intros c Hc.
    apply (proj1 (Forall_forall _ _) Hf). eapply firstn_subset; exact Hc.
  - destruct (n <? _)%nat eqn:E.
    + rewrite length_firstn. lia.
    + apply Nat.ltb_ge in E. exact E.
Qed.

Lemma sanitizeString_fixes_clean s n : clean n s -> sanitizeString s n = s.
Proof.
  intros Hc. pose proof Hc as [Hctl [Hlen _]].
  unfold sanitizeString. rewrite filter_all.
  - apply Nat.ltb_ge in Hlen. rewrite Hlen. exact (trim_id n s Hc).
  - eapply Forall_impl; [| exact Hctl].
    intros c E. simpl in E. rewrite E. reflexivity.
Qed.

(** X19. Whatever the input, [sanitizeString] returns a string with no
    control character, at most [maxLength] code units, no white space at
    either end; and sanitising its output again changes nothing. *)
Theorem sanitizeString_clean_and_idempotent : forall input maxLength,
  clean maxLength (sanitizeString input maxLength) /\
  sanitizeString (sanitizeString input maxLength) maxLength
  = sanitizeString input maxLength.
Proof.
  intros input n. split.
  - apply sanitizeString_is_clean.
  - apply sanitizeString_fixes_clean, sanitizeString_is_clean.
Qed.

(** X20. The length limit is applied before trimming: a string whose first
    [maxLength] characters are white space is sanitised to the empty
    string, whatever follows them. *)
Theorem sanitizeString_truncates_before_trimming : forall blanks rest maxLength,
  Forall (fun c => is_control c = false /\ is_space c = true) blanks ->
  maxLength <= List.length blanks ->
  sanitizeString (blanks ++ rest)%list maxLength = [].
Proof.
  intros blanks rest n Hb Hn. unfold sanitizeString.
  rewrite filter_app. rewrite (filter_all _ blanks).
  2:{ eapply Forall_impl; [| exact Hb]. intros c [E _]. simpl. rewrite E. reflexivity. }
  set (tail := List.filter _ rest).
  assert (Hall : Forall (fun c => is_space c = true) (firstn n blanks)).
  { apply Forall_forall. intros c Hc. apply firstn_subset in Hc.
    exact (proj2 (proj1 (Forall_forall _ _) Hb c Hc)). }
  assert (Htrim : forall l : ustring, Forall (fun c => is_space c = true) l -> trim l = []).
  { intros l Hl. unfold trim.
    assert (E : trimStart l = []).
    { induction Hl as [| c l Hc _ IH]; simpl; [reflexivity |]. rewrite Hc. exact IH. }
    rewrite E. reflexivity. }
  destruct (n <? _)%nat eqn:E.
  - rewrite firstn_app.
    replace (n - List.length blanks) with 0 by lia. simpl. rewrite app_nil_r.
    apply Htrim. exact Hall.
  - apply Nat.ltb_ge in E. rewrite length_app in E.
    assert (El : List.length tail = 0) by lia.
    destruct tail; [| discriminate]. rewrite app_nil_r.
    apply Htrim. eapply Forall_impl; [| exact Hb]. intros c [_ Hc]. exact Hc.
Qed.

Lemma sanitizeString_truncates_before_trimming_witness :
  sanitizeString ([32; 32]%N ++ [104; 105]%N)%list 2 = [].
Proof.
  apply (sanitizeString_truncates_before_trimming [32; 32]%N [104; 105]%N 2).
  - repeat constructor.
  - simpl. lia.
Defined.

Lemma closes_brace_spec (s : ustring) :
  closes_brace s = true <->
  exists mid post, s = (mid ++ 125%N :: post)%list /\
                   Forall (fun c => is_line_terminator c = false) mid.
Proof.
  split.
  - induction s as [| c s IH]; simpl; [discriminate |].
    destruct (N.eqb_spec c 125) as [-> | Hc].
    + intros _. exists [], s. split; [reflexivity | constructor].
    + destruct (is_line_terminator c) eqn:El; [discriminate |].
      intros H. destruct (IH H) as [mid [post [E Hm]]].
      exists (c :: mid), post. split.
      * simpl. rewrite E. reflexivity.
      * constructor; assumption.
  - intros [mid [post [E Hm]]]. subst s.
    induction Hm as [| c mid Hc _ IH]; simpl.
    + reflexivity.
    + destruct (c =? 125)%N; [reflexivity |]. rewrite Hc. exact IH.
Qed.

Lemma has_braces_spec (s : ustring) :
  has_braces s = true <->
  exists pre mid post, s = (pre ++ 123%N :: mid ++ 125%N :: post)%list /\
                       Forall (fun c => is_line_terminator c = false) mid.
Proof.
  split.
  - induction s as [| c s IH]; simpl; [discriminate |].
    intros H. apply orb_true_iff in H as [H | H].
    + apply andb_true_iff in H as [Hc Hb]. apply N.eqb_eq in Hc. subst c.
      apply closes_brace_spec in Hb as [mid [post [E Hm]]].
      exists [], mid, post. split; [simpl; rewrite E; reflexivity | exact Hm].
    + destruct (IH H) as [pre [mid [post [E Hm]]]].
      exists (c :: pre), mid, post. split; [simpl; rewrite E; reflexivity | exact Hm].
  - intros [pre [mid [post [E Hm]]]]. subst s.
    induction pre as [| c pre IH]; simpl.
    + apply orb_true_iff. left.
      apply closes_brace_spec. exists mid, post. split; [reflexivity | exact Hm].
    + rewrite IH. apply orb_true_r.
Qed.

(** X21. A query that [sanitizeQuery] lets through is the sanitised input
    itself, is not empty, holds none of the characters [[ ] ( ) :], and
    no opening brace of it is followed by a closing brace on the same
    line. *)
Theorem sanitizeQuery_accepts : forall query s,
  sanitizeQuery query = Ok s ->
  s = sanitizeString query 1000 /\ s <> [] /\ clean 1000 s /\
  (forall c, In c s -> ~ In c [91; 93; 40; 41; 58]%N) /\
  ~ (exists pre mid post, s = (pre ++ 123%N :: mid ++ 125%N :: post)%list /\
                          Forall (fun c => is_line_terminator c = false) mid).
Proof.
  intros query s. unfold sanitizeQuery.
  pose proof (sanitizeString_is_clean query 1000) as Hclean.
  destruct (sanitizeString query 1000) as [| c0 s0] eqn:Es; [discriminate |].
  destruct (has_braces (c0 :: s0)) eqn:Hb; [discriminate |].
  destruct (has_bracket (c0 :: s0)) eqn:Hk; [discriminate |].
  simpl. intros E. injection E as <-.
  split; [reflexivity | split; [discriminate | split; [exact Hclean | split]]].
  - intros c Hc Hbad.
    assert (Hex : has_bracket (c0 :: s0) = true).
    { unfold has_bracket. apply existsb_exists. exists c. split; [exact Hc |].
      simpl in Hbad.
      destruct Hbad as [<- | [<- | [<- | [<- | [<- | []]]]]]; reflexivity. }
    congruence.
  - intros Hex. apply has_braces_spec in Hex. congruence.
Qed.

Lemma sanitizeQuery_accepts_witness :
  [104; 105]%N = sanitizeString [32; 104; 105; 0; 10]%N 1000.
Proof.
  exact (proj1 (sanitizeQuery_accepts [32; 104; 105; 0; 10]%N [104; 105]%N eq_refl)).
Defined.

Lemma sanitize_tags_spec tags :
  List.length (sanitize_tags tags) <= List.length tags /\
  Forall (fun t => t <> [] /\ clean 50 t) (sanitize_tags tags).
Proof.
  induction tags as [| t tags [IHl IHf]]; simpl.
  - split; [lia | constructor].
  - pose proof (sanitizeString_is_clean t 50) as Hc.
    destruct (sanitizeString t 50) as [| c s] eqn:E.
    + split; [lia | exact IHf].
    + split; [simpl; lia |]. constructor; [| exact IHf].
      split; [discriminate | exact Hc].
Qed.

Lemma sanitize_tags_id tags :
  Forall (fun t => t <> [] /\ clean 50 t) tags -> sanitize_tags tags = tags.
Proof.
  induction 1 as [| t tags [Hne Hc] _ IH]; simpl; [reflexivity |].
  rewrite (sanitizeString_fixes_clean t 50 Hc), IH.
  destruct t; [contradiction | reflexivity].
Qed.

(** X22. [validateTags] accepts any list of at most fifty tags: no more
    tags come out than went in, each is non-empty, clean and at most fifty
    code units long, and validating the result again returns it
    unchanged. *)
Theorem validateTags_accepts : forall tags,
  List.length tags <= 50 ->
  exists out,
    validateTags tags = Ok out /\
    List.length out <= List.length tags /\
    Forall (fun t => t <> [] /\ clean 50 t) out /\
    validateTags out = Ok out.
Proof.
  intros tags Hn. exists (sanitize_tags tags).
  destruct (sanitize_tags_spec tags) as [Hl Hf].
  unfold validateTags.
  assert (E1 : (50 <? List.length tags)%nat = false) by (apply Nat.ltb_ge; exact Hn).
  assert (E2 : (50 <? List.length (sanitize_tags tags))%nat = false)
    by (apply Nat.ltb_ge; lia).
  rewrite E1, E2, (sanitize_tags_id _ Hf).
  repeat split; try reflexivity; assumption.
Qed.

Lemma validateTags_accepts_witness :
  exists out,
    validateTags [[32; 97]; [9]; [98; 0]]%N = Ok out /\
    List.length out <= 3 /\
    Forall (fun t => t <> [] /\ clean 50 t) out /\
    validateTags out = Ok out.
Proof.
  apply (validateTags_accepts [[32; 97]; [9]; [98; 0]]%N). simpl. lia.
Defined.

(** X23. A limit that [validateLimit] accepts comes back as a whole number
    between one and the maximum, the input rounded down; an absent limit
    gives the default. *)
Theorem validateLimit_result : forall limit defaultLimit maxLimit r,
  validateLimit limit defaultLimit maxLimit = Ok r ->
  match limit with
  | None => r = INR defaultLimit
  | Some x =>
      exists n : Z, r = IZR n /\ (1 <= n)%Z /\ (IZR n <= x < IZR n + 1)%R /\
                    (r <= INR maxLimit)%R
  end.
Proof.
  intros [x |] d m r; unfold validateLimit.
  - unfold Rltb', Rgtb.
    destruct (Rlt_dec x 1) as [| H1]; [discriminate |].
    destruct (Rgt_dec x (INR m)) as [| Hm]; [discriminate |].
    intros E. injection E as <-. unfold floor.
    destruct (base_Int_part x) as [Hlo Hhi].
    exists (Int_part x). split; [reflexivity |].
    split; [| split; [lra | lra]].
    assert (Hpos : (0 < Int_part x)%Z) by (apply lt_IZR; lra). lia.
  - intros E. injection E as <-. reflexivity.
Qed.

Lemma validateLimit_result_witness :
  exists n : Z, 7%R = IZR n /\ (1 <= n)%Z /\ (IZR n <= 7 < IZR n + 1)%R /\
                (7 <= INR 100)%R.
Proof.
  apply (validateLimit_result (Some 7%R) 10 100 7%R).
  assert (Hmax : INR 100 = 100%R) by (simpl; lra).
  unfold validateLimit, Rltb', Rgtb.
  destruct (Rlt_dec 7 1) as [H | _]; [exfalso; lra |].
  destruct (Rgt_dec 7 (INR 100)) as [H | _]; [exfalso; lra |].
  f_equal. unfold floor.
  assert (E : Int_part 7 = 7%Z) by (symmetry; apply Int_part_spec; lra).
  rewrite E. reflexivity.
Defined.

(** X24. [validateLayer] and [validateSource] accept exactly the string
    values of the enumerations [MemoryLayer] and [MemorySource], and return
    them unchanged. *)
Theorem validate_enum_names : forall s,
  (validateLayer s = Ok s <-> exists l, layer_name l = s) /\
  (validateSource s = Ok s <-> exists x, source_name x = s) /\
  (forall r, validateLayer s = Ok r -> r = s) /\
  (forall r, validateSource s = Ok r -> r = s).
Proof.
  intros s. unfold validateLayer, validateSource, includes. simpl.
  split; [| split; [| split]].
  - destruct (String.eqb_spec s "working") as [-> | H1];
      [split; [intros _; exists WORKING; reflexivity | reflexivity] |].
    destruct (String.eqb_spec s "short-term") as [-> | H2];
      [split; [intros _; exists SHORT_TERM; reflexivity | reflexivity] |].
    destruct (String.eqb_spec s "long-term") as [-> | H3];
      [split; [intros _; exists LONG_TERM; reflexivity | reflexivity] |].
    simpl. split; [discriminate |].
    intros [[| |] E]; simpl in E; congruence.
  - destruct (String.eqb_spec s "user") as [-> | H1];
      [split; [intros _; exists USER; reflexivity | reflexivity] |].
    destruct (String.eqb_spec s "agent") as [-> | H2];
      [split; [intros _; exists AGENT; reflexivity | reflexivity] |].
    destruct (String.eqb_spec s "system") as [-> | H3];
      [split; [intros _; exists SYSTEM; reflexivity | reflexivity] |].
    simpl. split; [discriminate |].
    intros [[| |] E]; simpl in E; congruence.
  - intros r. destruct (_ || _)%bool; [congruence | discriminate].
  - intros r. destruct (_ || _)%bool; [congruence | discriminate].
Qed.

(** ** The rate limiter *)

Section RateLimiterFacts.
Variable maxRequests : R.
Variable windowMs : Z.

Lemma filter_later_twice (c d : Z) (ts : list Z) :
  (d <= c)%Z ->
  List.filter (fun t => (t >? c)%Z) (List.filter (fun t => (t >? d)%Z) ts)
  = List.filter (fun t => (t >? c)%Z) ts.
Proof.
  intros Hdc. induction ts as [| t ts IH]; simpl; [reflexivity |].
  destruct (Z.gtb_spec t d) as [Hd | Hd]; simpl.
  - rewrite IH. reflexivity.
  - rewrite IH. destruct (Z.gtb_spec t c); [lia | reflexivity].
Qed.

(** What the map remembers of an identifier agrees, from the window of any
    later call on, with everything it was ever granted. *)
Lemma granted_window identifier : forall calls requests history clock,
  (forall c, (clock - windowMs <= c)%Z ->
     List.filter (fun t => (t >? c)%Z) (RateLimiter.recorded identifier requests)
     = List.filter (fun t => (t >? c)%Z) history) ->
  StronglySorted Z.le (clock :: map snd calls) ->
  forall before now after,
    RateLimiter.granted maxRequests windowMs identifier calls requests
    = (before ++ now :: after)%list ->
    (INR (since (now - windowMs) (history ++ before ++ [now])) < maxRequests + 1)%R.
Proof.
  induction calls as [| [who t] calls IH]; intros requests history clock Hrec Hs;
    intros before now after E; simpl in E.
  - destruct before; discriminate.
  - simpl in Hs. apply StronglySorted_inv in Hs as [Hs Hclock].
    assert (Ht : (clock <= t)%Z) by (inversion Hclock; assumption).
    unfold RateLimiter.check in E.
    set (kept := List.filter (fun x => (x >? t - windowMs)%Z)
                   match map_get who requests with Some ts => ts | None => [] end) in E.
    unfold Rgeb in E.
    destruct (Rge_dec (INR (List.length kept)) maxRequests) as [Hfull | Hroom].
    + simpl in E.
      eapply (IH requests history t); [| exact Hs | exact E].
      intros c Hc. apply Hrec. lia.
    + destruct (String.eqb_spec who identifier) as [-> | Hother]; simpl in E.
      * fold (RateLimiter.recorded identifier requests) in kept.
        assert (Hkept : kept = List.filter (fun x => (x >? t - windowMs)%Z) history).
        { unfold kept. apply Hrec. lia. }
        destruct before as [| b before]; simpl in E.
        -- injection E as <- _. rewrite app_nil_l.
           unfold since. rewrite filter_app, length_app, <- Hkept.
           rewrite plus_INR.
           assert (Hone : (List.length
                             (List.filter (fun x => (x >? t - windowMs)%Z) [t]) <= 1)%nat).
           { simpl. destruct (t >? t - windowMs)%Z; simpl; lia. }
           apply le_INR in Hone. change (INR 1) with 1%R in Hone.
           apply Rnot_ge_lt in Hroom. lra.
        -- injection E as <- E.
           replace (history ++ (t :: before) ++ [now])%list
             with ((history ++ [t]) ++ before ++ [now])%list
             by (rewrite <- !app_assoc; reflexivity).
           eapply (IH (map_set identifier (kept ++ [t])%list requests)
                      (history ++ [t])%list t); [| exact Hs | exact E].
           intros c Hc. unfold RateLimiter.recorded. rewrite map_get_set_same.
           rewrite !filter_app. f_equal.
           rewrite Hkept. rewrite filter_later_twice by lia. reflexivity.
      * eapply (IH (map_set who (kept ++ [t])%list requests) history t);
          [| exact Hs | exact E].
        intros c Hc. unfold RateLimiter.recorded.
        rewrite map_get_set_other by congruence. apply Hrec. lia.
Qed.
End RateLimiterFacts.

(** X25. While the clock never runs backwards, the limiter keeps its
    promise: whenever a request of an identifier is let through, the
    requests granted to that identifier within the last [windowMs]
    milliseconds, this one included, number fewer than [maxRequests + 1],
    so at most [maxRequests] when that is a whole number. *)
Theorem rate_limit_holds :
  forall (maxRequests : R) (windowMs : Z) identifier calls before now after,
    StronglySorted Z.le (map snd calls) ->
    RateLimiter.granted maxRequests windowMs identifier calls []
    = (before ++ now :: after)%list ->
    (INR (since (now - windowMs) (before ++ [now])) < maxRequests + 1)%R /\
    (forall n : nat, maxRequests = INR n ->
                     since (now - windowMs) (before ++ [now]) <= n).
Proof.
  intros maxRequests windowMs identifier calls before now after Hs E.
  assert (H : (INR (since (now - windowMs) (before ++ [now])) < maxRequests + 1)%R).
  { destruct calls as [| [who t] calls]; [destruct before; discriminate |].
    apply (granted_window maxRequests windowMs identifier ((who, t) :: calls) [] [] t
             (fun c _ => eq_refl)) with (after := after); [| exact E].
    simpl. constructor; [exact Hs |].
    constructor; [lia |]. simpl in Hs. apply StronglySorted_inv in Hs as [_ Hall].
    exact Hall. }
  split; [exact H |].
  intros n ->.
  assert (Hlt : (INR (since (now - windowMs) (before ++ [now])) < INR (S n))%R)
    by (rewrite S_INR; exact H).
  apply INR_lt in Hlt. lia.
Qed.

Lemma rate_limit_holds_witness :
  (INR (since (5 - 10)%Z ([1%Z] ++ [5%Z])%list) < 2 + 1)%R /\
  (forall n : nat, 2%R = INR n -> since (5 - 10)%Z ([1%Z] ++ [5%Z])%list <= n).
Proof.
  apply (rate_limit_holds 2%R 10%Z "a" [("a", 1%Z); ("a", 5%Z); ("a", 7%Z)]
           [1%Z] 5%Z []).
  - simpl. repeat (constructor; try lia).
  - unfold RateLimiter.granted, RateLimiter.check, Rgeb. simpl.
    repeat (match goal with
            | |- context [Rge_dec ?a ?b] =>
                destruct (Rge_dec a b); try (exfalso; lra); simpl
            end).
    reflexivity.
Defined.

(** ** Local embeddings *)

Lemma toInt32_range z :
  (-2147483648 <= LocalEmbedding.toInt32 z < 2147483648)%Z.
Proof.
  unfold LocalEmbedding.toInt32.
  pose proof (Z.mod_pos_bound (z + 2147483648) 4294967296). lia.
Qed.

Lemma toInt32_congruent z :
  exists k, LocalEmbedding.toInt32 z = (z + k * 4294967296)%Z.
Proof.
  unfold LocalEmbedding.toInt32.
  exists (- ((z + 2147483648) / 4294967296))%Z.
  pose proof (Z.div_mod (z + 2147483648) 4294967296). lia.
Qed.

Lemma toInt32_periodic z k :
  LocalEmbedding.toInt32 (z + k * 4294967296) = LocalEmbedding.toInt32 z.
Proof.
  unfold LocalEmbedding.toInt32.
  replace (z + k * 4294967296 + 2147483648)%Z
    with (z + 2147483648 + k * 4294967296)%Z by ring.
  rewrite Z_mod_plus_full. reflexivity.
Qed.

Lemma hash_step p c :
  LocalEmbedding.toInt32
    (LocalEmbedding.toInt32 (LocalEmbedding.toInt32 p * 32)
     - LocalEmbedding.toInt32 p + c)
  = LocalEmbedding.toInt32 (31 * p + c).
Proof.
  destruct (toInt32_congruent (LocalEmbedding.toInt32 p * 32)) as [k' Ek'].
  destruct (toInt32_congruent p) as [k Ek].
  rewrite Ek', Ek.
  replace ((p + k * 4294967296) * 32 + k' * 4294967296
           - (p + k * 4294967296) + c)%Z
    with (31 * p + c + (31 * k + k') * 4294967296)%Z by ring.
  apply toInt32_periodic.
Qed.

Lemma hash_loop codes : forall p,
  fold_left (fun hash char =>
               LocalEmbedding.toInt32
                 (LocalEmbedding.toInt32 (hash * 32) - hash + char))
            codes (LocalEmbedding.toInt32 p)
  = LocalEmbedding.toInt32
      (fold_left (fun hash char => (31 * hash + char)%Z) codes p).
Proof.
  induction codes as [| c codes IH]; intros p; simpl; [reflexivity |].
  rewrite hash_step. apply IH.
Qed.

Lemma dimension_in_range token :
  LocalEmbedding.dimension_of token < LocalEmbedding.dimensions.
Proof.
  unfold LocalEmbedding.dimension_of, LocalEmbedding.dimensions.
  change (Z.of_nat 512) with 512%Z.
  pose proof (Z.mod_pos_bound (Z.abs (LocalEmbedding.hashString token)) 512). lia.
Qed.

(** X26. [hashString] is the polynomial hash in base 31 of the character
    codes, reduced to a signed 32-bit integer; the array index derived from
    it is always below the 512 dimensions. *)
Theorem hashString_is_polynomial_hash : forall str,
  LocalEmbedding.hashString str
  = LocalEmbedding.toInt32 (LocalEmbedding.polynomial31 str) /\
  (-2147483648 <= LocalEmbedding.hashString str < 2147483648)%Z /\
  LocalEmbedding.dimension_of str < LocalEmbedding.dimensions.
Proof.
  intros str.
  assert (E : LocalEmbedding.hashString str
              = LocalEmbedding.toInt32 (LocalEmbedding.polynomial31 str)).
  { unfold LocalEmbedding.hashString, LocalEmbedding.polynomial31.
    change 0%Z with (LocalEmbedding.toInt32 0) at 1. apply hash_loop. }
  split; [exact E |]. split; [rewrite E; apply toInt32_range |].
  apply dimension_in_range.
Qed.

Lemma unique_from_spec xs : forall seen,
  NoDup (LocalEmbedding.unique_from seen xs) /\
  (forall k, In k (LocalEmbedding.unique_from seen xs) <-> In k xs /\ ~ In k seen).
Proof.
  induction xs as [| x xs IH]; intros seen; simpl.
  - split; [constructor | intros k; tauto].
  - destruct (includes x seen) eqn:E.
    + apply includes_In in E. destruct (IH seen) as [Hnd Hin].
      split; [exact Hnd |]. intros k. rewrite Hin.
      split; [tauto |]. intros [[<- | Hk] Hs]; [contradiction | tauto].
    + assert (Hx : ~ In x seen).
      { intros Hx. apply includes_In in Hx. congruence. }
      destruct (IH (x :: seen)) as [Hnd Hin]. split.
      * constructor; [| exact Hnd]. intros Hc. apply Hin in Hc. simpl in Hc. tauto.
      * intros k. simpl. rewrite Hin. simpl.
        destruct (string_dec x k) as [<- | Hne]; tauto.
Qed.

Lemma counted_more seen k N e : LocalEmbedding.counted seen N e -> LocalEmbedding.counted (k :: seen) N e.
Proof.
  intros (H1 & H2 & H3). split; [exact H1 |]. split; [exact H2 |].
  intros Hn. apply H3. intros Hs. apply Hn. right. exact Hs.
Qed.

Lemma count_add_counted k counts seen N :
  ~ In k seen -> Forall (LocalEmbedding.counted seen N) counts ->
  Forall (LocalEmbedding.counted (k :: seen) N) (count_add k counts).
Proof.
  intros Hk. induction counts as [| [k0 n0] counts IH]; simpl; intros Hall.
  - constructor; [| constructor]. unfold LocalEmbedding.counted. simpl.
    split; [lia |]. split; [lia |]. intros Hn. elim Hn. left. reflexivity.
  - apply Forall_cons_iff in Hall as [H0 Hrest].
    destruct (String.eqb_spec k k0) as [-> | Hne].
    + constructor.
      * destruct H0 as (H1 & H2 & H3). simpl in *. unfold LocalEmbedding.counted. simpl.
        specialize (H3 Hk). split; [lia |]. split; [lia |].
        intros Hn. elim Hn. left. reflexivity.
      * eapply Forall_impl; [| exact Hrest]. intros e. apply counted_more.
    + constructor; [apply counted_more; exact H0 | apply IH; exact Hrest].
Qed.

Lemma tokens_loop ts : forall seen counts N,
  NoDup ts -> (forall k, In k ts -> ~ In k seen) ->
  Forall (LocalEmbedding.counted seen N) counts ->
  Forall (fun e => 1 <= snd e <= S N)
         (fold_left (fun ws token => count_add token ws) ts counts).
Proof.
  induction ts as [| t ts IH]; intros seen counts N Hnd Hfresh Hall; simpl.
  - eapply Forall_impl; [| exact Hall]. intros e (H1 & H2 & _). lia.
  - inversion Hnd as [| ? ? Hnotin Hnd']; subst.
    apply (IH (t :: seen)); [exact Hnd' | |].
    + intros k Hk [<- | Hs]; [contradiction |].
      apply (Hfresh k); [right; exact Hk | exact Hs].
    + apply count_add_counted; [| exact Hall].
      apply Hfresh. left. reflexivity.
Qed.

Section LocalEmbeddingFacts.
Variable tokenize : string -> list string.

Lemma texts_loop texts : forall ws N,
  Forall (fun e : string * nat => 1 <= snd e <= N) ws ->
  Forall (fun e => 1 <= snd e <= N + List.length texts)
         (fold_left (fun ws text =>
                       fold_left (fun ws token => count_add token ws)
                                 (LocalEmbedding.unique (tokenize text)) ws)
                    texts ws).
Proof.
  induction texts as [| text texts IH]; intros ws N Hall; simpl.
  - eapply Forall_impl; [| exact Hall]. intros e H. simpl in H. lia.
  - eapply Forall_impl; [| apply (IH _ (S N))].
    + intros e H. simpl in H. lia.
    + destruct (unique_from_spec (tokenize text) []) as [Hnd _].
      apply (tokens_loop _ []); [exact Hnd | intros k _ [] |].
      eapply Forall_impl; [| exact Hall].
      intros e H. simpl in H. unfold LocalEmbedding.counted.
      split; [lia |]. split; [lia |]. intros _. lia.
Qed.

Lemma map_set_Forall {V} (P : string * V -> Prop) k v m :
  Forall P m -> P (k, v) -> Forall P (map_set k v m).
Proof.
  intros Hall Hv. induction Hall as [| [k0 v0] m H0 Hrest IH]; simpl.
  - constructor; [exact Hv | constructor].
  - destruct (k =? k0); constructor; assumption.
Qed.

Lemma idf_at_least_one (N docFreq : nat) :
  1 <= docFreq <= N ->
  (1 <= ln ((INR N + 1) / (INR docFreq + 1)) + 1)%R.
Proof.
  intros [H1 H2].
  assert (Hd : (0 <= INR docFreq)%R) by apply pos_INR.
  assert (Hle : (INR docFreq <= INR N)%R) by (apply le_INR; exact H2).
  assert (Hratio : (1 <= (INR N + 1) / (INR docFreq + 1))%R).
  { apply (Rmult_le_reg_r (INR docFreq + 1)); [lra |].
    unfold Rdiv. rewrite Rmult_assoc, Rinv_l by lra. lra. }
  destruct (Req_dec ((INR N + 1) / (INR docFreq + 1)) 1) as [E | Hne].
  - rewrite E, ln_1. lra.
  - assert (Hln : (ln 1 < ln ((INR N + 1) / (INR docFreq + 1)))%R)
      by (apply ln_increasing; lra).
    rewrite ln_1 in Hln. lra.
Qed.

Lemma idf_loop N ws : forall m : JsMap R,
  Forall (fun e : string * nat => 1 <= snd e <= N) ws ->
  Forall (fun e => (1 <= snd e)%R) m ->
  Forall (fun e => (1 <= snd e)%R)
         (fold_left (fun m e =>
                       let '(word, docFreq) := e in
                       map_set word
                         (ln ((INR N + 1) / (INR docFreq + 1)) + 1)%R m)
                    ws m).
Proof.
  induction ws as [| [word docFreq] ws IH]; intros m Hws Hm; simpl; [exact Hm |].
  apply Forall_cons_iff in Hws as [H0 Hrest].
  apply IH; [exact Hrest |].
  apply map_set_Forall; [exact Hm |]. simpl. apply idf_at_least_one. exact H0.
Qed.

Lemma updateVocabulary_ok texts v :
  LocalEmbedding.vocabulary_ok v ->
  LocalEmbedding.vocabulary_ok (LocalEmbedding.updateVocabulary tokenize texts v).
Proof.
  intros [Hw Hi]. unfold LocalEmbedding.vocabulary_ok, LocalEmbedding.updateVocabulary.
  simpl.
  pose proof (texts_loop texts _ _ Hw) as Hw'.
  split; [exact Hw' |]. apply idf_loop; assumption.
Qed.

(** X27. [updateVocabulary] keeps the statistics consistent: because each
    text counts a word once, however often it occurs, no word is recorded
    in more documents than were seen, so no IDF falls below one; and the
    document count grows by the number of texts. *)
Theorem updateVocabulary_keeps_statistics : forall texts v,
  LocalEmbedding.vocabulary_ok v ->
  LocalEmbedding.vocabulary_ok (LocalEmbedding.updateVocabulary tokenize texts v) /\
  LocalEmbedding.documentCount (LocalEmbedding.updateVocabulary tokenize texts v)
  = LocalEmbedding.documentCount v + List.length texts.
Proof.
  intros texts v Hok. split; [apply updateVocabulary_ok; exact Hok | reflexivity].
Qed.

















End LocalEmbeddingFacts.

Lemma updateVocabulary_keeps_statistics_witness :
  LocalEmbedding.vocabulary_ok
    (LocalEmbedding.updateVocabulary (fun text => [text; text]) ["cat"; "dog"]
                                     LocalEmbedding.empty) /\
  LocalEmbedding.documentCount
    (LocalEmbedding.updateVocabulary (fun text => [text; text]) ["cat"; "dog"]
                                     LocalEmbedding.empty)
  = LocalEmbedding.documentCount LocalEmbedding.empty + List.length ["cat"; "dog"].
Proof.
  apply (updateVocabulary_keeps_statistics (fun text => [text; text]) ["cat"; "dog"]
           LocalEmbedding.empty).
  split; constructor.
Defined.



